(** * Dove Chaser: the aiming control subsystem

    A shallow embedding of [Config.py], [angles_map.py], [Dove_object.py] and
    [Servo.py], with [find_closest_bird] and [wait_for_dove] of [main.py],
    and the properties of the angle tables, the target tracker, the
    ballistic correction, the aim loops and the wait for a target.

    Conventions of the embedding.
    - Python exceptions are values: a computation returns [Ok v] or
      [Raise e].
    - The trigonometric code ([ang_conv], [real_alpha_calc_balistics]) is
      read over the real numbers: [math.cos], [math.acos], ... are the
      functions of the Reals library, and rounding of binary64 results is not
      represented: the results that go through it hold of the real-number
      reading, and say nothing of overflow or cancellation in binary64.  The
      interpolated table entries are exact rationals for the same reason;
      the interpolation loop is also given over an arbitrary arithmetic, and
      [interpolate_binary64] runs it with IEEE operations.
    - The countdown budgets of the aim loops ([timeout], [undetected_to])
      are binary64 floats with IEEE subtraction and comparison, exactly as
      Python evaluates [timeout -= Config.ROLL_TIME_AIM].
    - The tracker is written by the detection thread while the aim loops read
      it.  The loops therefore read the tracker through an oracle
      [env : nat -> Dove]: the n-th method call made on the tracker observes
      [env n].
    - The debug prints of the source hand [Config.sys.stderr] to [print],
      and [Config.py] binds no [sys]: evaluating the argument raises
      AttributeError, in [print_dove] after its header line and at the end of
      [Dove.__init__] under DEBUG.  The other prints of the aim loops are
      events of the trace; the one line that [alpha_beta_maps] and each
      failure branch of [real_alpha_calc_balistics] print is left out.
    - Loops carry a fuel argument and a run that exhausts it ends in
      [OutOfFuel]; the results below name the fuel that suffices. *)

From Stdlib Require Import Floats Uint63.
From Stdlib Require Import ZArith QArith Reals Qreals Lra Lia ZifyNat List String.
From stdpp Require Import gmap list sorting.

Close Scope float_scope.
Close Scope R_scope.
Close Scope Q_scope.
Open Scope Z_scope.

(** ** Python values and exceptions *)

Inductive exn : Set :=
| ValueError
| ZeroDivisionError
| TypeError
| KeyError
| IndexError
| AttributeError.

Inductive result (A : Type) : Type :=
| Ok (a : A)
| Raise (e : exn).

Arguments Ok {A} a.
Arguments Raise {A} e.

Definition rbind {A B : Type} (m : result A) (k : A -> result B) : result B :=
  match m with
  | Ok a => k a
  | Raise e => Raise e
  end.

Notation "x <-r m ; k" := (rbind m (fun x => k))
  (at level 100, m at next level, right associativity).

(** ** Config.py *)

Module Config.

  (* Config.py imports nothing and assigns no [sys]: the attribute
     [Config.sys], which the debug prints of Dove_object.py and Servo.py
     evaluate, is not bound. *)
Definition sys : option unit := None.

  (* Timing constants.  [TIMEOUT_S] is the integer 15 in the source and
     becomes a float at the first [timeout -= ROLL_TIME_AIM]; 15 is exactly
     representable.  [ROLL_TIME_AIM] is the binary64 nearest to 0.1. *)
Definition TIMEOUT_S : float := 15%float.
Definition ROLL_TIME_AIM : float := 0x1.999999999999ap-4%float.
Definition UNDETECTED_TO : float := 5%float.
Definition ROLL_TIME_STATIC : Z := 2.
Definition PITCH_DEG_DOWN : Z := 65.
Definition PITCH_DEG_UP : Z := 97.

  (* Bird detection constants. *)
Definition FRAME_TO_PITCH : nat := 10.
Definition MIN_DOVE_HEIGHT : Z := 1.
Definition REAL_DOVE_HEIGHT : R := (2 / 10)%R.

  (* Field of view and aiming constants. *)
Definition FOV_deg : R := (167 / 10)%R.
Definition TOP_AIM : Z := 160.
Definition HEIGHT_PIXEL : R := 360%R.
Definition BOTTOM_AIM : Z := 200.
Definition LEFT_AIM : Z := 310.
Definition RIGHT_AIM : Z := 330.

  (* Gravity and initial velocity. *)
Definition GRAVITY_CONSTANT : R := (981 / 100)%R.
Definition INITIAL_V : R := (52 / 10)%R.

  (* Servo control constants. *)
Definition MAX_DUTY : Q := 15%Q.
Definition MIN_DUTY : Q := 0%Q.
Definition RIGHT_DUTY : Q := (71 # 10)%Q.
Definition STATIC_DUTY : Q := (75 # 10)%Q.
Definition LEFT_DUTY : Q := (79 # 10)%Q.

  (* Linkage geometry. *)
Definition l1 : R := (74 / 10)%R.
Definition l2 : R := (164 / 100)%R.
Definition l3 : R := (155 / 100)%R.
Definition l4 : R := (79 / 10)%R.
Definition l5 : R := (32 / 10)%R.
Definition lim : Z := 12.
Definition s_cal : Z := 90.

  (* Further constants of Config.py. *)
Definition DEBUG : bool := true.
Definition DELTA_FRAME : float := 0x1.999999999999ap-5%float.
Definition DELTA_FRAME_dyn : float := 0x1.1eb851eb851ecp-5%float.

End Config.

(** ** Dove_object.py *)

Module DoveObject.

  (* An element of the numpy history arrays: [np.nan] or a number. *)
Inductive sample : Set :=
| NaN
| Num (q : Q).

  (* [[x for x in arr if not np.isnan(x)]] *)
Fixpoint filtered_data (arr : list sample) : list Q :=
  match arr with
  | [] => []
  | NaN :: rest => filtered_data rest
  | Num q :: rest => q :: filtered_data rest
  end.

Fixpoint insert_sorted (q : Q) (l : list Q) : list Q :=
  match l with
  | [] => [q]
  | h :: t => if Qle_bool q h then q :: h :: t else h :: insert_sorted q t
  end.

Definition sort_Q (l : list Q) : list Q := foldr insert_sorted [] l.

  (* [np.median] of a non-empty array: the middle element of the sorted data,
     or the mean of the two middle elements. *)
Definition np_median (l : list Q) : Q :=
  let s := sort_Q l in
  let n := length s in
  if Nat.even n
  then ((nth (n / 2 - 1)%nat s 0 + nth (n / 2)%nat s 0) / 2)%Q
  else nth (n / 2)%nat s 0%Q.

Definition s_median (arr : list sample) : option Q :=
  let data := filtered_data arr in
  if Nat.eqb (length data) 0 then None else Some (np_median data).

Record Dove : Type := mkDove {
  is_valid : bool;
  x_center : Z;
  y_center : list sample;
  height : list sample;
  index : nat
}.

  (* The assignments of [Dove.__init__] (lines 53-67): the [y_center] and
     [height] arguments are not used; both histories start filled with
     NaN. *)
Definition init (valid : bool) (x : Z) : Dove :=
  {| is_valid := valid;
     x_center := x;
     y_center := replicate Config.FRAME_TO_PITCH NaN;
     height := replicate Config.FRAME_TO_PITCH NaN;
     index := 0 |}.

  (* [Dove(is_valid, x_center)], the whole constructor: after the
     assignments the debug print evaluates [Config.sys.stderr], which raises
     AttributeError when [Config.sys] is not bound, and then no object is
     handed back. *)
Definition construct (valid : bool) (x : Z) : result Dove :=
  if Config.DEBUG then
    match Config.sys with
    | Some _ => Ok (init valid x)
    | None => Raise AttributeError
    end
  else Ok (init valid x).

  (* [arr[i] = v] on a numpy array: IndexError out of range. *)
Definition setitem (arr : list sample) (i : nat) (v : sample) : result (list sample) :=
  if (i <? length arr)%nat then Ok (<[i := v]> arr) else Raise IndexError.

Definition update_dove (d : Dove) (valid : bool) (x : Z) (y h : sample) : result Dove :=
  if negb valid then
    ys <-r setitem (y_center d) (index d) NaN ;
    hs <-r setitem (height d) (index d) NaN ;
    Ok {| is_valid := valid;
          x_center := x_center d;
          y_center := ys;
          height := hs;
          index := (index d + 1) mod Config.FRAME_TO_PITCH |}
  else
    ys <-r setitem (y_center d) (index d) y ;
    hs <-r setitem (height d) (index d) h ;
    Ok {| is_valid := valid;
          x_center := x;
          y_center := ys;
          height := hs;
          index := (index d + 1) mod Config.FRAME_TO_PITCH |}.

Definition is_dove (d : Dove) : bool := is_valid d.

Definition get_center (d : Dove) : Z * option Q := (x_center d, s_median (y_center d)).

Definition get_height (d : Dove) : option Q := s_median (height d).

  (* One call of [update_dove], as the detection thread issues it. *)
Record update : Type := mkUpdate {
  u_valid : bool;
  u_x : Z;
  u_y : sample;
  u_h : sample
}.

Definition apply_update (d : Dove) (u : update) : result Dove :=
  update_dove d (u_valid u) (u_x u) (u_y u) (u_h u).

Fixpoint run_updates (d : Dove) (us : list update) : result Dove :=
  match us with
  | [] => Ok d
  | u :: rest => d' <-r apply_update d u ; run_updates d' rest
  end.

End DoveObject.

(** ** The parts of Python's [math] and built-ins the code uses *)

Module PyMath.

Definition radians (d : R) : R := (d * PI / 180)%R.

Definition degrees (r : R) : R := (r * 180 / PI)%R.

  (* [a / b] on floats. *)
Definition py_div (a b : R) : result R :=
  if Req_dec_T b 0%R then Raise ZeroDivisionError else Ok (a / b)%R.

  (* [math.acos]: "math domain error" outside [-1, 1]. *)
Definition py_acos (x : R) : result R :=
  if Rlt_dec x (-1)%R then Raise ValueError
  else if Rlt_dec 1%R x then Raise ValueError
  else Ok (acos x).

  (* [round(x)] with one argument: the nearest integer, ties to even. *)
Definition py_round (x : R) : Z :=
  let f := Int_part x in
  let d := (x - IZR f)%R in
  if Rlt_dec d (1 / 2)%R then f
  else if Rlt_dec (1 / 2)%R d then f + 1
  else if Z.even f then f else f + 1.

  (* [a / b] on two ints (true division). *)
Definition py_truediv (a b : Z) : result Q :=
  if Z.eqb b 0 then Raise ZeroDivisionError else Ok (inject_Z a / inject_Z b)%Q.

  (* [min(...)] and [max(...)] of an iterable: ValueError when it is empty. *)
Definition py_min (l : list Z) : result Z :=
  match l with
  | [] => Raise ValueError
  | x :: rest => Ok (foldr Z.min x rest)
  end.

Definition py_max (l : list Z) : result Z :=
  match l with
  | [] => Raise ValueError
  | x :: rest => Ok (foldr Z.max x rest)
  end.

Definition py_min_R (l : list R) : result R :=
  match l with
  | [] => Raise ValueError
  | x :: rest => Ok (foldr Rmin x rest)
  end.

  (* [d[k]] on a dict: KeyError when the key is absent. *)
Definition getitem {V : Type} (d : gmap Z V) (k : Z) : result V :=
  match d !! k with
  | Some v => Ok v
  | None => Raise KeyError
  end.

  (* The keys of a dict, as the iteration [for k in d] yields them. *)
Definition keys {V : Type} (d : gmap Z V) : list Z := elements (dom d).

End PyMath.

(** ** angles_map.py *)

Module AnglesMap.
Import PyMath.

  (* The argument of [math.acos] in [ang_conv], with the divisions that
     precede it. *)
Definition acos_arg (alpha_deg : Z) : result R :=
  let alpha := radians (IZR alpha_deg) in
  A <-r py_div (Config.l2 - Config.l5 * cos alpha)%R Config.l3 ;
  B <-r py_div (-1 * (Config.l1 + Config.l5 * sin alpha))%R Config.l3 ;
  let BS := (B ^ 2)%R in
  q <-r py_div Config.l4 Config.l3 ;
  let C := (q ^ 2 - 1)%R in
  let D := (A ^ 2 + BS)%R in
  E <-r py_div (A * (BS - C))%R D ;
  F <-r py_div (25 / 100 * (BS - C) ^ 2 - BS)%R D ;
  let discriminant := (E ^ 2 - 4 * F)%R in
  let discriminant := if Rlt_dec discriminant 0%R then 0%R else discriminant in
  py_div (- E + sqrt discriminant)%R 2%R.

Definition ang_conv (alpha_deg : Z) : result Z :=
  root <-r acos_arg alpha_deg ;
  angle_radians <-r py_acos root ;
  let angle_degrees := degrees angle_radians in
  let angle_degrees :=
    if Z.ltb alpha_deg Config.lim then (angle_degrees * -1)%R else angle_degrees in
  Ok (py_round angle_degrees + Config.s_cal).

  (* The body of the first loop of [alpha_beta_maps]. *)
Definition add_alpha (maps : gmap Z Z * gmap Z (list Q)) (alpha : Z)
  : result (gmap Z Z * gmap Z (list Q)) :=
  beta <-r ang_conv alpha ;
  Ok (<[alpha := beta]> (fst maps),
      match snd maps !! beta with
      | Some alphas => <[beta := alphas ++ [inject_Z alpha]]> (snd maps)
      | None => <[beta := [inject_Z alpha]]> (snd maps)
      end).

Fixpoint populate (alphas : list Z) (maps : gmap Z Z * gmap Z (list Q))
  : result (gmap Z Z * gmap Z (list Q)) :=
  match alphas with
  | [] => Ok maps
  | alpha :: rest => maps' <-r add_alpha maps alpha ; populate rest maps'
  end.

Definition weighted (weight_lower weight_higher alpha_low alpha_high : Q) : Q :=
  (weight_lower * alpha_low + weight_higher * alpha_high)%Q.

  (* The body of the second loop: fill [beta] when it is not a key. *)
Definition fill_beta (m : gmap Z (list Q)) (beta : Z) : result (gmap Z (list Q)) :=
  match m !! beta with
  | Some _ => Ok m
  | None =>
      lower_beta <-r py_max (filter (fun k => k < beta) (keys m)) ;
      higher_beta <-r py_min (filter (fun k => beta < k) (keys m)) ;
      weight_lower <-r py_truediv (higher_beta - beta) (higher_beta - lower_beta) ;
      weight_higher <-r py_truediv (beta - lower_beta) (higher_beta - lower_beta) ;
      lower_alphas <-r getitem m lower_beta ;
      higher_alphas <-r getitem m higher_beta ;
      Ok (<[beta := zip_with (weighted weight_lower weight_higher)
                             lower_alphas higher_alphas]> m)
  end.

Fixpoint interpolate (betas : list Z) (m : gmap Z (list Q)) : result (gmap Z (list Q)) :=
  match betas with
  | [] => Ok m
  | beta :: rest => m' <-r fill_beta m beta ; interpolate rest m'
  end.

Definition alpha_beta_maps : result (gmap Z Z * gmap Z (list Q)) :=
  maps <-r populate (seqZ (-16) 62) (∅, ∅) ;
  min_beta <-r py_min (keys (snd maps)) ;
  max_beta <-r py_max (keys (snd maps)) ;
  b2a <-r interpolate (seqZ min_beta (max_beta + 1 - min_beta)) (snd maps) ;
  Ok (fst maps, b2a).

  (* The second loop once more, with the arithmetic of its entries as a
     parameter: [num] is the type of an entry, [div] the true division of
     two ints, [mul] and [add] the product and sum of two entries.  With
     exact rationals this is [fill_beta] and [interpolate] above; with
     binary64 it is the arithmetic Python does. *)
Section Arithmetic.

Variable num : Type.
Variable div : Z -> Z -> num.
Variables mul add : num -> num -> num.

Definition truediv_in (a b : Z) : result num :=
  if Z.eqb b 0 then Raise ZeroDivisionError else Ok (div a b).

Definition weighted_in (weight_lower weight_higher alpha_low alpha_high : num) : num :=
  add (mul weight_lower alpha_low) (mul weight_higher alpha_high).

Definition fill_beta_in (m : gmap Z (list num)) (beta : Z) : result (gmap Z (list num)) :=
  match m !! beta with
  | Some _ => Ok m
  | None =>
      lower_beta <-r py_max (filter (fun k => k < beta) (keys m)) ;
      higher_beta <-r py_min (filter (fun k => beta < k) (keys m)) ;
      weight_lower <-r truediv_in (higher_beta - beta) (higher_beta - lower_beta) ;
      weight_higher <-r truediv_in (beta - lower_beta) (higher_beta - lower_beta) ;
      lower_alphas <-r getitem m lower_beta ;
      higher_alphas <-r getitem m higher_beta ;
      Ok (<[beta := zip_with (weighted_in weight_lower weight_higher)
                             lower_alphas higher_alphas]> m)
  end.

Fixpoint interpolate_in (betas : list Z) (m : gmap Z (list num))
  : result (gmap Z (list num)) :=
  match betas with
  | [] => Ok m
  | beta :: rest => m' <-r fill_beta_in m beta ; interpolate_in rest m'
  end.

End Arithmetic.

  (* The binary64 arithmetic of Python: an int becomes the float of the same
     value (exact for the small ints of the tables), [/] of two ints is the
     correctly rounded quotient. *)
Definition float_of_int (z : Z) : float :=
  if z <? 0 then PrimFloat.opp (PrimFloat.of_uint63 (Uint63.of_Z (- z)))
  else PrimFloat.of_uint63 (Uint63.of_Z z).

Definition float_truediv (a b : Z) : float :=
  PrimFloat.div (float_of_int a) (float_of_int b).

Definition interpolate_binary64 : list Z -> gmap Z (list float) -> result (gmap Z (list float)) :=
  interpolate_in float float_truediv PrimFloat.mul PrimFloat.add.

End AnglesMap.

(** ** Servo.py *)

Module Servo.
Import PyMath.

Definition deg_to_duty (deg : Z) : Q :=
  (inject_Z deg * (Config.MAX_DUTY - Config.MIN_DUTY) / 180 + Config.MIN_DUTY)%Q.

  (* A float result that may be the NaN sentinel. *)
Inductive pyfloat : Type :=
| FNaN
| FNum (r : R).

  (* The discriminant [dis] of the range equation, for the ballistic
     parameter [E] and the aim angle [alpha] in radians. *)
Definition ballistic_dis (E alpha : R) : R :=
  (1 - 2 * E * sin alpha - (E * cos alpha) ^ 2)%R.

  (* [alpha_deg] is the list of candidate angles read from
     [beta_to_alpha_map]; the function takes its minimum.  The two
     diagnostic prints are left out.
     The body is read over the real numbers with [OB] a Python float, so
     that a zero divisor raises ZeroDivisionError.  This reading follows the
     code where every intermediate stays inside the binary64 range and away
     from its rounding: it has no OverflowError for [(E * cos alpha) ** 2]
     (sizes below about 6.6e-153), no infinities, and at a real angle whose
     cosine is exactly 0 it divides by zero where binary64 has a tiny
     non-zero cosine.  The results below keep to apparent sizes between
     MIN_DOVE_HEIGHT and HEIGHT_PIXEL and to the aim angles of the tables,
     except at the size 0.0, where the first division raises in both
     readings. *)
Definition real_alpha_calc_balistics (alpha_deg : list R) (OB : R) : result pyfloat :=
  let FOV := radians Config.FOV_deg in
  m <-r py_min_R alpha_deg ;
  let alpha := radians m in
  D <-r py_div (Config.REAL_DOVE_HEIGHT * Config.HEIGHT_PIXEL)%R
               (2 * OB * tan (FOV / 2))%R ;
  E <-r py_div (Config.GRAVITY_CONSTANT * D)%R (Config.INITIAL_V ^ 2)%R ;
  let dis := ballistic_dis E alpha in
  if Rlt_dec dis 0%R then Ok FNaN
  else
    t <-r py_div (1 - sqrt dis)%R (E * cos alpha)%R ;
    let real_alpha := degrees (atan t) in
    if Rlt_dec 45%R real_alpha then Ok FNaN else Ok (FNum real_alpha).

Record Servo : Type := mkServo {
  pitch_deg : Z;
  alpha_to_beta_map : gmap Z Z;
  beta_to_alpha_map : gmap Z (list Q)
}.

  (* What a method of [Servo] does to the outside: duty-cycle commands,
     sleeps and printed diagnostics, in order. *)
Inductive event : Type :=
| RollDuty (duty : Q)
| PitchDuty (duty : Q)
| Slept (seconds : float)
| Said (msg : string)
| SaidDove (d : DoveObject.Dove).

Record world : Type := mkWorld {
  servo : Servo;
  reads : nat;
  trace : list event
}.

Inductive outcome (A : Type) : Type :=
| Returns (a : A)
| Raises (e : exn)
| OutOfFuel.

Arguments Returns {A} a.
Arguments Raises {A} e.
Arguments OutOfFuel {A}.

Definition M (A : Type) : Type := world -> outcome A * world.

Definition ret {A : Type} (a : A) : M A := fun w => (Returns a, w).

Definition bind {A B : Type} (m : M A) (k : A -> M B) : M B :=
  fun w =>
    match m w with
    | (Returns a, w') => k a w'
    | (Raises e, w') => (Raises e, w')
    | (OutOfFuel, w') => (OutOfFuel, w')
    end.

Notation "x <- m ;; k" := (bind m (fun x => k))
  (at level 100, m at next level, right associativity).
Notation "m ;; k" := (bind m (fun _ => k))
  (at level 100, right associativity).

Definition raise {A : Type} (e : exn) : M A := fun w => (Raises e, w).

Definition out_of_fuel {A : Type} : M A := fun w => (OutOfFuel, w).

Definition lift {A : Type} (r : result A) : M A :=
  match r with
  | Ok a => ret a
  | Raise e => raise e
  end.

Definition emit (e : event) : M unit :=
  fun w => (Returns tt, {| servo := servo w; reads := reads w; trace := trace w ++ [e] |}).

Definition say (msg : string) : M unit := emit (Said msg).

Definition sleep (seconds : float) : M unit := emit (Slept seconds).

Definition get_servo : M Servo := fun w => (Returns (servo w), w).

Definition set_pitch_deg (deg : Z) : M unit :=
  fun w =>
    (Returns tt,
     {| servo := {| pitch_deg := deg;
                    alpha_to_beta_map := alpha_to_beta_map (servo w);
                    beta_to_alpha_map := beta_to_alpha_map (servo w) |};
        reads := reads w;
        trace := trace w |}).

Definition Qlt_bool (a b : Q) : bool := negb (Qle_bool b a).

  (* [y < n] on a median that may be None: [None < n] raises TypeError. *)
Definition py_lt (y : option Q) (n : Z) : M bool :=
  match y with
  | None => raise TypeError
  | Some q => ret (Qlt_bool q (inject_Z n))
  end.

  (* [Servo.__init__]: pitch at the downward preset, tables built. *)
Definition init : result Servo :=
  maps <-r AnglesMap.alpha_beta_maps ;
  Ok {| pitch_deg := Config.PITCH_DEG_DOWN;
        alpha_to_beta_map := fst maps;
        beta_to_alpha_map := snd maps |}.

Section Loops.

  (* [env n] is the tracker as the n-th call made on it sees it. *)
Variable env : nat -> DoveObject.Dove.

Definition read_dove : M DoveObject.Dove :=
  fun w => (Returns (env (reads w)),
            {| servo := servo w; reads := S (reads w); trace := trace w |}).

Definition is_dove : M bool := d <- read_dove ;; ret (DoveObject.is_dove d).

Definition get_center : M (Z * option Q) := d <- read_dove ;; ret (DoveObject.get_center d).

  (* [dove.print_dove()]: the header line is printed, then the next
     [print] evaluates [Config.sys.stderr] before it shows anything of the
     tracker. *)
Definition print_dove : M unit :=
  d <- read_dove ;;
  say "Dove status:" ;;
  match Config.sys with
  | Some _ => emit (SaidDove d)
  | None => raise AttributeError
  end.

  (* The inner loop of both aim loops:
<<
     while undetected_to > 0:
         if dove.is_dove(): break
         time.sleep(Config.ROLL_TIME_AIM)
         undetected_to -= Config.ROLL_TIME_AIM
>> *)
Fixpoint reacquire (fuel : nat) (undetected_to : float) : M unit :=
  if PrimFloat.ltb 0%float undetected_to then
    match fuel with
    | O => out_of_fuel
    | S fuel' =>
        present <- is_dove ;;
        if present then ret tt
        else
          sleep Config.ROLL_TIME_AIM ;;
          reacquire fuel' (PrimFloat.sub undetected_to Config.ROLL_TIME_AIM)
    end
  else ret tt.

  (* The [if not dove.is_dove(): ...] block at the head of a loop body;
     returns true when the loop must return False ("Dove gone!"). *)
Definition dove_gone (fuel : nat) (undetected_to : float) : M bool :=
  present <- is_dove ;;
  if negb present then
    reacquire fuel undetected_to ;;
    back <- is_dove ;;
    if negb back then say "Dove gone!" ;; ret true else ret false
  else ret false.

  (* The loop of [Aim_side] with the code that follows it. *)
Fixpoint side_loop (wfuel fuel : nat) (x_center : Z) (timeout undetected_to : float)
  : M bool :=
  if ((x_center <? Config.LEFT_AIM) || (Config.RIGHT_AIM <? x_center))
     && PrimFloat.ltb 0%float timeout
  then
    match fuel with
    | O => out_of_fuel
    | S fuel' =>
        print_dove ;;
        gone <- dove_gone wfuel undetected_to ;;
        if gone : bool then ret false
        else
          let undetected_to := Config.UNDETECTED_TO in
          let duty :=
            if x_center <? Config.LEFT_AIM then Config.RIGHT_DUTY else Config.LEFT_DUTY in
          emit (RollDuty duty) ;;
          sleep Config.ROLL_TIME_AIM ;;
          emit (RollDuty Config.STATIC_DUTY) ;;
          c <- get_center ;;
          side_loop wfuel fuel' (fst c)
                    (PrimFloat.sub timeout Config.ROLL_TIME_AIM) undetected_to
    end
  else if PrimFloat.leb timeout 0%float then say "Aim Failed!" ;; ret false
  else say "Roll Aim success!" ;; ret true.

Definition Aim_side (fuel : nat) : M bool :=
  c <- get_center ;;
  side_loop fuel fuel (fst c) Config.TIMEOUT_S Config.UNDETECTED_TO.

  (* [(y_center is None) or ((y_center < TOP_AIM) or (y_center > BOTTOM_AIM))] *)
Definition off_target (y_center : option Q) : bool :=
  match y_center with
  | None => true
  | Some y => Qlt_bool y (inject_Z Config.TOP_AIM) || Qlt_bool (inject_Z Config.BOTTOM_AIM) y
  end.

  (* One pitch step:
<<
     self.pitch_deg += 1 if y_center < Config.TOP_AIM else -1
     if self.pitch_deg < self.alpha_to_beta_map[-16] or self.pitch_deg > self.alpha_to_beta_map[45]:
         print("not in pitch range"); return False
     self.pitch_servo.ChangeDutyCycle(deg_to_duty(self.pitch_deg))
>>
     returns false when the loop must return False. *)
Definition pitch_step (y_center : option Q) : M bool :=
  s <- get_servo ;;
  up <- py_lt y_center Config.TOP_AIM ;;
  let deg := pitch_deg s + (if up : bool then 1 else -1) in
  set_pitch_deg deg ;;
  lo <- lift (getitem (alpha_to_beta_map s) (-16)) ;;
  below <- (if deg <? lo then ret true
            else hi <- lift (getitem (alpha_to_beta_map s) 45) ;; ret (hi <? deg)) ;;
  if below : bool then say "not in pitch range" ;; ret false
  else emit (PitchDuty (deg_to_duty deg)) ;; ret true.

  (* The loop of [Aim_pitch] with the code that follows it. *)
Fixpoint pitch_loop (wfuel fuel : nat) (y_center : option Q) (timeout undetected_to : float)
  : M bool :=
  if off_target y_center && PrimFloat.ltb 0%float timeout then
    match fuel with
    | O => out_of_fuel
    | S fuel' =>
        gone <- dove_gone wfuel undetected_to ;;
        if gone : bool then ret false
        else
          let undetected_to := Config.UNDETECTED_TO in
          in_range <- pitch_step y_center ;;
          if in_range : bool then
            sleep Config.ROLL_TIME_AIM ;;
            c <- get_center ;;
            pitch_loop wfuel fuel' (snd c)
                       (PrimFloat.sub timeout Config.ROLL_TIME_AIM) undetected_to
          else ret false
    end
  else if PrimFloat.leb timeout 0%float then say "Aim Failed!" ;; ret false
  else say "Pitch Aim success!" ;; ret true.

Definition Aim_pitch (fuel : nat) : M bool :=
  c <- get_center ;;
  pitch_loop fuel fuel (snd c) Config.TIMEOUT_S Config.UNDETECTED_TO.

End Loops.

  (* What a Python function hands back when it may fall off its end. *)
Inductive pyval : Set :=
| PyBool (b : bool)
| PyNone.

  (* The match on [real_alpha] is the test [math.isnan(real_alpha)]. *)
Definition final_pitch_aim (height : R) : M pyval :=
  s <- get_servo ;;
  naive_alpha <- lift (getitem (beta_to_alpha_map s) (pitch_deg s)) ;;
  real_alpha <- lift (real_alpha_calc_balistics (map Q2R naive_alpha) height) ;;
  match real_alpha with
  | FNaN => ret (PyBool false)
  | FNum a =>
      deg <- lift (getitem (alpha_to_beta_map s) (py_round a)) ;;
      set_pitch_deg deg ;;
      emit (PitchDuty (deg_to_duty deg)) ;;
      ret PyNone
  end.

Definition reset_pitch : M unit :=
  set_pitch_deg Config.PITCH_DEG_DOWN ;;
  emit (PitchDuty (deg_to_duty Config.PITCH_DEG_DOWN)).

  (* An int handed to [time.sleep]. *)
Definition seconds (n : Z) : float := PrimFloat.of_uint63 (Uint63.of_Z n).

  (* [Servo.pose_change]: a fixed sweep to the right, then the pitch toggles
     between the two presets. *)
Definition pose_change : M unit :=
  let duty := Config.RIGHT_DUTY in
  emit (RollDuty duty) ;;
  sleep (seconds Config.ROLL_TIME_STATIC) ;;
  emit (RollDuty Config.STATIC_DUTY) ;;
  sleep 0.5%float ;;
  (if Config.DEBUG then say "Rotate right - static" else ret tt) ;;
  s <- get_servo ;;
  let deg := if pitch_deg s =? Config.PITCH_DEG_DOWN
             then Config.PITCH_DEG_UP else Config.PITCH_DEG_DOWN in
  set_pitch_deg deg ;;
  emit (PitchDuty (deg_to_duty deg)).

End Servo.

(** ** main.py *)

  (* The two functions of main.py that stand between the detector and the
     tracker, each embedded as its own text reads.  [aim] is left out: its
     loop body is not well-indented Python as given, so it has no reading to
     embed (and for that reason main.py as a whole has to be repaired before
     it loads).  The coordinates and heights of detections are read over the
     real numbers, like the trigonometric code. *)
Module Main.
Import Servo.

  (* A detection of the network: the centre of its box and its height. *)
Record detection : Type := mkDetection {
  Center_x : R;
  Center_y : R;
  Height : R
}.

  (* The loop of [find_closest_bird].  [best] holds [closest_bird] with
     [min_distance]; None stands for the initial [(None, inf)]. *)
Definition closer (cx cy : R) (best : option (detection * R)) (d : detection)
  : option (detection * R) :=
  if Rle_dec (IZR Config.MIN_DOVE_HEIGHT) (Height d) then
    let distance := sqrt ((Center_x d - cx) ^ 2 + (Center_y d - cy) ^ 2)%R in
    match best with
    | None => Some (d, distance)
    | Some (_, min_distance) =>
        if Rlt_dec distance min_distance then Some (d, distance) else best
    end
  else best.

Definition find_closest_bird (bird_detections : list detection)
    (frame_width frame_height : R) : option detection :=
  let frame_center_x := (frame_width / 2)%R in
  let frame_center_y := (frame_height / 2)%R in
  fst <$> foldl (closer frame_center_x frame_center_y) None bird_detections.

Section Polling.

Variable env : nat -> DoveObject.Dove.

  (* The loop of [wait_for_dove] with the code that follows it.
     [delta_frame] is the value of [Config.DELTA_FRAME] during the call
     (main.py rebinds it to [DELTA_FRAME_dyn] once a target was seen). *)
Fixpoint wait_loop (fuel : nat) (delta_frame time_out : float) : M bool :=
  if PrimFloat.ltb 0%float time_out then
    match fuel with
    | O => out_of_fuel
    | S fuel' =>
        present <- is_dove env ;;
        if present : bool then say "Dove detected!" ;; ret true
        else
          sleep delta_frame ;;
          wait_loop fuel' delta_frame (PrimFloat.sub time_out delta_frame)
    end
  else say "No dove detected within timeout." ;; ret false.

Definition wait_for_dove (fuel : nat) (delta_frame : float) : M bool :=
  (if Config.DEBUG then say "Waiting for a dove..." else ret tt) ;;
  wait_loop fuel delta_frame Config.TIMEOUT_S.

End Polling.

End Main.

(** * Vocabulary of the statements *)

Section Vocabulary.
Import PyMath.

(** ** The tracker *)

  (* The shape every tracker built by [init] and [update_dove] has. *)
Definition wf (d : DoveObject.Dove) : Prop :=
  length (DoveObject.y_center d) = Config.FRAME_TO_PITCH /\
  length (DoveObject.height d) = Config.FRAME_TO_PITCH /\
  (DoveObject.index d < Config.FRAME_TO_PITCH)%nat.

  (* The finite-argument side condition on a valid frame. *)
Definition finite_args (u : DoveObject.update) : Prop :=
  DoveObject.u_valid u = true ->
  DoveObject.u_y u <> DoveObject.NaN /\ DoveObject.u_h u <> DoveObject.NaN.

  (* What the last update leaves behind: a valid tracker holds a real
     sample in some slot of each history. *)
Definition holds_sample (d : DoveObject.Dove) : Prop :=
  DoveObject.is_valid d = true ->
  (exists i q, DoveObject.y_center d !! i = Some (DoveObject.Num q)) /\
  (exists i q, DoveObject.height d !! i = Some (DoveObject.Num q)).

  (* A tracker that was never updated and whose x lies in the dead-band:
     absent, with an empty y history. *)
Definition absent_centered : DoveObject.Dove := DoveObject.init false 320.

  (* A tracker that holds a present target far left of the dead-band. *)
Definition present_left : DoveObject.Dove :=
  {| DoveObject.is_valid := true;
     DoveObject.x_center := 0;
     DoveObject.y_center := replicate Config.FRAME_TO_PITCH (DoveObject.Num 180);
     DoveObject.height := replicate Config.FRAME_TO_PITCH (DoveObject.Num 50);
     DoveObject.index := 0 |}.

(** ** The aim loops *)

  (* [x_center] outside the dead-band [LEFT_AIM, RIGHT_AIM]. *)
Definition out_of_band (x : Z) : bool :=
  (x <? Config.LEFT_AIM) || (Config.RIGHT_AIM <? x).

  (* Number of [time.sleep] calls in a trace: one per pulse or wait tick. *)
Definition is_sleep (e : Servo.event) : bool :=
  match e with
  | Servo.Slept _ => true
  | _ => false
  end.

Definition ticks (tr : list Servo.event) : nat := length (List.filter is_sleep tr).

  (* How many times [t -= ROLL_TIME_AIM] runs before [t > 0] fails, when the
     loop is left with [t <= 0]. *)
Fixpoint countdown (fuel : nat) (t : float) : option nat :=
  if PrimFloat.ltb 0%float t then
    match fuel with
    | O => None
    | S fuel' => option_map S (countdown fuel' (PrimFloat.sub t Config.ROLL_TIME_AIM))
    end
  else if PrimFloat.leb t 0%float then Some 0%nat else None.

Definition with_pitch (s : Servo.Servo) (deg : Z) : Servo.Servo :=
  {| Servo.pitch_deg := deg;
     Servo.alpha_to_beta_map := Servo.alpha_to_beta_map s;
     Servo.beta_to_alpha_map := Servo.beta_to_alpha_map s |}.

Definition idle_world : Servo.world :=
  {| Servo.servo := {| Servo.pitch_deg := Config.PITCH_DEG_DOWN;
                       Servo.alpha_to_beta_map := ∅;
                       Servo.beta_to_alpha_map := ∅ |};
     Servo.reads := 0;
     Servo.trace := [] |}.

  (* A servo at the downward preset whose tables send beta 65 to the level
     aim and every alpha of 0..45 to a mechanical angle. *)
Definition level_servo : Servo.Servo :=
  {| Servo.pitch_deg := Config.PITCH_DEG_DOWN;
     Servo.alpha_to_beta_map := gset_to_gmap 134 (list_to_set (seqZ 0 46));
     Servo.beta_to_alpha_map := {[ 65 := [0%Q] ]} |}.

(** ** The ballistic correction *)

  (* The estimated distance and the ballistic parameter, as
     [real_alpha_calc_balistics] computes them from the apparent size. *)
Definition distance (OB : R) : R :=
  (Config.REAL_DOVE_HEIGHT * Config.HEIGHT_PIXEL
   / (2 * OB * tan (radians Config.FOV_deg / 2)))%R.

Definition ballistic_E (OB : R) : R :=
  (Config.GRAVITY_CONSTANT * distance OB / Config.INITIAL_V ^ 2)%R.

  (* The solved launch angle in degrees. *)
Definition solved_angle (E alpha : R) : R :=
  degrees (atan ((1 - sqrt (Servo.ballistic_dis E alpha)) / (E * cos alpha))%R).

(** ** The angle tables *)

  (* [beta] is the image of some alpha of the forward table. *)
Definition observed (a2b : gmap Z Z) (beta : Z) : Prop :=
  exists alpha, a2b !! alpha = Some beta.

  (* What the first loop of [alpha_beta_maps] maintains. *)
Definition populated (maps : gmap Z Z * gmap Z (list Q)) : Prop :=
  (forall alpha beta, maps.1 !! alpha = Some beta -> AnglesMap.ang_conv alpha = Ok beta) /\
  (forall beta, is_Some (maps.2 !! beta) <-> observed maps.1 beta) /\
  (forall alpha beta, maps.1 !! alpha = Some beta ->
     exists l, maps.2 !! beta = Some l /\ inject_Z alpha ∈ l) /\
  (forall beta l, maps.2 !! beta = Some l -> l <> []) /\
  (forall beta l q, maps.2 !! beta = Some l -> q ∈ l ->
     exists alpha, q = inject_Z alpha /\ maps.1 !! alpha = Some beta).

  (* The nearest keys with a direct alpha below and above [beta]. *)
Definition nearest_lower (real : Z -> Prop) (beta L : Z) : Prop :=
  real L /\ L < beta /\ forall k, L < k < beta -> ~ real k.

Definition nearest_higher (real : Z -> Prop) (beta H : Z) : Prop :=
  real H /\ beta < H /\ forall k, beta < k < H -> ~ real k.

  (* The linear weighted average of [a] at the key [L] and [b] at the key
     [H], for [beta] between them, written out. *)
Definition average (L H beta : Z) (a b : Q) : Q :=
  (inject_Z (H - beta) / inject_Z (H - L) * a
   + inject_Z (beta - L) / inject_Z (H - L) * b)%Q.

  (* The same formula in any arithmetic: [div] divides two ints, [mul] and
     [add] work on entries. *)
Definition average_in {num : Type} (div : Z -> Z -> num) (mul add : num -> num -> num)
    (L H beta : Z) (a b : num) : num :=
  add (mul (div (H - beta) (H - L)) a) (mul (div (beta - L) (H - L)) b).

  (* The linear weighted average of two alpha lists, index for index, for
     [beta] between the keys [L] and [H]. *)
Definition interpolated (L H beta : Z) (lL lH : list Q) : list Q :=
  zip_with (average L H beta) lL lH.

  (* The backward table [m0] left by the first loop: its keys are the
     betas with a direct alpha. *)
Definition real (m0 : gmap Z (list Q)) (k : Z) : Prop := is_Some (m0 !! k).

  (* The state of the second loop when it reaches [beta]. *)
Definition filled (m0 : gmap Z (list Q)) (lo beta : Z) (m : gmap Z (list Q)) : Prop :=
  (forall k l, m0 !! k = Some l -> m !! k = Some l) /\
  (forall k, is_Some (m !! k) <-> real m0 k \/ lo <= k < beta) /\
  (forall k l, m !! k = Some l -> l <> []) /\
  (forall k, lo <= k < beta -> m0 !! k = None ->
     exists L H lL lH l,
       nearest_lower (real m0) k L /\ nearest_higher (real m0) k H /\
       m0 !! L = Some lL /\ m0 !! H = Some lH /\ m !! k = Some l /\
       Forall2 Qeq l (interpolated L H k lL lH)).

  (* The state of the second loop when it reaches [beta], in any
     arithmetic: the entries of the first loop are kept, the keys are those
     and the betas passed, and every beta filled so far holds the average,
     index for index, of the list just below it and the list of the nearest
     higher key of the first loop. *)
Definition chained {num : Type} (avg : Z -> Z -> Z -> num -> num -> num)
    (m0 : gmap Z (list num)) (lo beta : Z) (m : gmap Z (list num)) : Prop :=
  (forall k l, m0 !! k = Some l -> m !! k = Some l) /\
  (forall k, is_Some (m !! k) <-> is_Some (m0 !! k) \/ lo <= k < beta) /\
  (forall k, lo <= k < beta -> m0 !! k = None ->
     exists H lB lH,
       nearest_higher (fun j => is_Some (m0 !! j)) k H /\
       m !! (k - 1) = Some lB /\ m0 !! H = Some lH /\
       m !! k = Some (zip_with (avg (k - 1) H k) lB lH)).

(** ** The tracker, continued *)

  (* What [update_dove] writes into the y and height histories. *)
Definition written_y (u : DoveObject.update) : DoveObject.sample :=
  if DoveObject.u_valid u then DoveObject.u_y u else DoveObject.NaN.

Definition written_h (u : DoveObject.update) : DoveObject.sample :=
  if DoveObject.u_valid u then DoveObject.u_h u else DoveObject.NaN.

  (* [lo <= q <= hi] *)
Definition within (lo hi q : Q) : bool := Qle_bool lo q && Qle_bool q hi.

  (* The x the tracker holds after a run of updates: that of the most
     recent valid frame, or the one it started with. *)
Definition last_valid_x (x0 : Z) (us : list DoveObject.update) : Z :=
  foldl (fun x u => if DoveObject.u_valid u then DoveObject.u_x u else x) x0 us.

  (* The flag the tracker holds after a run of updates. *)
Definition last_flag (v0 : bool) (us : list DoveObject.update) : bool :=
  foldl (fun _ u => DoveObject.u_valid u) v0 us.

  (* Ten frames without a detection, and ten frames of a steady target. *)
Definition dropout_frames : list DoveObject.update :=
  replicate Config.FRAME_TO_PITCH (DoveObject.mkUpdate false 0 DoveObject.NaN DoveObject.NaN).

Definition steady_frames : list DoveObject.update :=
  replicate Config.FRAME_TO_PITCH
            (DoveObject.mkUpdate true 50 (DoveObject.Num 100) (DoveObject.Num 5)).

(** ** The aim loops, continued *)

  (* The duty cycles sent to the roll servo and to the pitch servo, in
     order. *)
Definition roll_duties (tr : list Servo.event) : list Q :=
  omap (fun e => match e with Servo.RollDuty d => Some d | _ => None end) tr.

Definition pitch_duties (tr : list Servo.event) : list Q :=
  omap (fun e => match e with Servo.PitchDuty d => Some d | _ => None end) tr.

  (* The roll servo is at rest after a trace: it was not commanded, or the
     last command was the neutral duty. *)
Definition roll_idle (tr : list Servo.event) : Prop :=
  match last (roll_duties tr) with
  | None => True
  | Some d => d = Config.STATIC_DUTY
  end.

  (* A float budget after [n] ticks of [delta]. *)
Definition budget (t delta : float) (n : nat) : float :=
  Nat.iter n (fun t => PrimFloat.sub t delta) t.

  (* The servo tables are those of [s], whatever the pitch angle is. *)
Definition same_tables (s s' : Servo.Servo) : Prop :=
  Servo.alpha_to_beta_map s' = Servo.alpha_to_beta_map s /\
  Servo.beta_to_alpha_map s' = Servo.beta_to_alpha_map s.

  (* A tracker that holds a present target in the middle of the dead-band. *)
Definition present_centered : DoveObject.Dove :=
  {| DoveObject.is_valid := true;
     DoveObject.x_center := 320;
     DoveObject.y_center := replicate Config.FRAME_TO_PITCH (DoveObject.Num 180);
     DoveObject.height := replicate Config.FRAME_TO_PITCH (DoveObject.Num 50);
     DoveObject.index := 0 |}.

  (* A target seen far left for the first six tracker reads and centred
     from then on. *)
Definition drifting_in (k : nat) : DoveObject.Dove :=
  if (k <? 6)%nat then present_left else present_centered.

  (* Every pitch command of a trace is the duty of an angle within
     [lo, hi]. *)
Definition pitch_within (lo hi : Z) (tr : list Servo.event) : Prop :=
  Forall (fun q => exists deg, lo <= deg <= hi /\ q = Servo.deg_to_duty deg)
         (pitch_duties tr).

  (* A Boolean came back, or the comparison of a None median raised. *)
Definition bool_or_TypeError (o : Servo.outcome bool) : Prop :=
  (exists b, o = Servo.Returns b) \/ o = Servo.Raises TypeError.

  (* The tracker holds a median y at every read. *)
Definition always_median (env : nat -> DoveObject.Dove) : Prop :=
  forall k, snd (DoveObject.get_center (env k)) <> None.

  (* The one-degree move of [Aim_pitch] for a median [y]: up when the
     target is above the TOP_AIM line. *)
Definition pitch_move (y : Q) : Z :=
  if Servo.Qlt_bool y (inject_Z Config.TOP_AIM) then 1 else -1.

  (* The pitch angles of [n] steps from [p], steered by the medians
     [Y 0 .. Y (n - 1)]. *)
Fixpoint pitch_path (Y : nat -> Q) (p : Z) (n : nat) : list Z :=
  match n with
  | O => []
  | S n' => (p + pitch_move (Y 0%nat)) ::
            pitch_path (fun j => Y (S j)) (p + pitch_move (Y 0%nat)) n'
  end.

  (* A world whose servo is at the downward preset with a forward table
     that holds the two ends of the pitch range. *)
Definition ranged_world : Servo.world :=
  {| Servo.servo := {| Servo.pitch_deg := Config.PITCH_DEG_DOWN;
                       Servo.alpha_to_beta_map := {[ -16 := 20; 45 := 176 ]};
                       Servo.beta_to_alpha_map := ∅ |};
     Servo.reads := 0;
     Servo.trace := [] |}.

  (* A tracker that holds a present target well above the TOP_AIM line. *)
Definition present_high : DoveObject.Dove :=
  {| DoveObject.is_valid := true;
     DoveObject.x_center := 320;
     DoveObject.y_center := replicate Config.FRAME_TO_PITCH (DoveObject.Num 100);
     DoveObject.height := replicate Config.FRAME_TO_PITCH (DoveObject.Num 50);
     DoveObject.index := 0 |}.

  (* A target seen above the TOP_AIM line for the first four tracker reads
     and on target from then on, with the medians [Aim_pitch] reads (it
     looks at every other one). *)
Definition rising (k : nat) : DoveObject.Dove :=
  if (k <? 4)%nat then present_high else present_centered.

Definition rising_median (j : nat) : Q :=
  default 0%Q (snd (DoveObject.get_center (rising (2 * j)))).

(** ** main.py *)

  (* The two frame periods [Config.DELTA_FRAME] takes in main.py, each with
     the number of polls the 15 s budget of [wait_for_dove] allows. *)
Definition frame_polls (delta : float) (N : nat) : Prop :=
  (delta = Config.DELTA_FRAME /\ N = 300%nat) \/
  (delta = Config.DELTA_FRAME_dyn /\ N = 429%nat).

  (* The distance of a detection from the centre of a frame of the given
     width and height, and the height test of [find_closest_bird]. *)
Definition centre_distance (width height : R) (d : Main.detection) : R :=
  sqrt ((Main.Center_x d - width / 2) ^ 2 + (Main.Center_y d - height / 2) ^ 2)%R.

Definition tall_enough (d : Main.detection) : Prop :=
  (IZR Config.MIN_DOVE_HEIGHT <= Main.Height d)%R.

(** ** The angle tables, continued *)

  (* An aim angle of the backward table lies in the range of the forward
     table's keys. *)
Definition aim_in_range (q : Q) : Prop :=
  (inject_Z (-16) <= q <= inject_Z 45)%Q.

  (* The world [ranged_world] with the pitch at the upper end of its table
     range. *)
Definition ranged_top_world : Servo.world :=
  {| Servo.servo := with_pitch (Servo.servo ranged_world) 176;
     Servo.reads := 0;
     Servo.trace := [] |}.

End Vocabulary.

(** * Properties *)

(** ** The tracker *)

Section DoveFacts.
Import DoveObject.

Lemma Ok_inj {A : Type} (a b : A) : Ok a = Ok b -> a = b.
Proof. congruence. Qed.

Lemma Some_eq_inv {A : Type} (a b : A) : Some a = Some b -> a = b.
Proof. congruence. Qed.

Lemma wf_init (v : bool) (x : Z) : wf (init v x).
Proof.
  unfold wf. repeat split; simpl; try reflexivity.
  unfold Config.FRAME_TO_PITCH. lia.
Qed.

Lemma setitem_ok (arr : list sample) (i : nat) (v : sample) :
  (i < length arr)%nat -> setitem arr i v = Ok (<[i := v]> arr).
Proof.
  intros Hi. unfold setitem.
  destruct (Nat.ltb_spec i (length arr)); [reflexivity | lia].
Qed.

Lemma update_dove_ok (d : Dove) (v : bool) (x : Z) (y h : sample) :
  wf d ->
  update_dove d v x y h =
  Ok {| is_valid := v;
        x_center := if v then x else x_center d;
        y_center := <[index d := if v then y else NaN]> (y_center d);
        height := <[index d := if v then h else NaN]> (height d);
        index := (index d + 1) mod Config.FRAME_TO_PITCH |}.
Proof.
  intros (Hy & Hh & Hi). unfold update_dove.
  destruct v; simpl; rewrite !setitem_ok by lia; reflexivity.
Qed.

Lemma update_dove_wf (d d' : Dove) (v : bool) (x : Z) (y h : sample) :
  wf d -> update_dove d v x y h = Ok d' -> wf d'.
Proof.
  intros Hwf Hupd. rewrite (update_dove_ok _ _ _ _ _ Hwf) in Hupd.
  apply Ok_inj in Hupd. subst d'. destruct Hwf as (Hy & Hh & Hi).
  unfold wf; cbn [y_center height index]. rewrite !length_insert.
  repeat split; try assumption.
  apply Nat.mod_upper_bound. discriminate.
Qed.

Lemma filtered_data_Num (arr : list sample) (i : nat) (q : Q) :
  arr !! i = Some (Num q) -> filtered_data arr <> [].
Proof.
  revert i. induction arr as [|s arr IH]; intros i Hi; [discriminate |].
  destruct i as [|i]; simpl in Hi.
  - injection Hi as ->. discriminate.
  - destruct s; simpl; [eauto | discriminate].
Qed.

Lemma s_median_Some (arr : list sample) (i : nat) (q : Q) :
  arr !! i = Some (Num q) -> s_median arr <> None.
Proof.
  intros Hi. unfold s_median.
  pose proof (filtered_data_Num _ _ _ Hi) as Hne.
  destruct (filtered_data arr); [congruence | discriminate].
Qed.

Lemma update_dove_holds_sample (d d' : Dove) (u : update) :
  wf d -> finite_args u -> apply_update d u = Ok d' -> holds_sample d'.
Proof.
  intros Hwf Hfin Hupd. unfold apply_update in Hupd.
  rewrite (update_dove_ok _ _ _ _ _ Hwf) in Hupd. apply Ok_inj in Hupd. subst d'.
  destruct Hwf as (Hy & Hh & Hi).
  unfold holds_sample; cbn [is_valid y_center height]. intros Hv.
  rewrite Hv in *. destruct (Hfin Hv) as [Hyn Hhn].
  destruct (u_y u) as [|qy]; [congruence |].
  destruct (u_h u) as [|qh]; [congruence |].
  split; exists (index d); eexists; apply list_lookup_insert_eq; lia.
Qed.

Lemma run_updates_invariant (us : list update) (d : Dove) :
  wf d -> holds_sample d -> Forall finite_args us ->
  exists d', run_updates d us = Ok d' /\ wf d' /\ holds_sample d'.
Proof.
  revert d. induction us as [|u us IH]; intros d Hwf Hs Hall.
  - exists d. simpl. auto.
  - apply Forall_cons in Hall as [Hu Hall]. simpl.
    pose proof (update_dove_ok d (u_valid u) (u_x u) (u_y u) (u_h u) Hwf) as Hok.
    unfold apply_update at 1. rewrite Hok. simpl.
    apply IH; [| | assumption].
    + eapply update_dove_wf; [exact Hwf | exact Hok].
    + eapply update_dove_holds_sample; [exact Hwf | exact Hu | exact Hok].
Qed.

  (* Every tracker reached from [init] by [update_dove] calls is well formed,
     and no call raises. *)
Lemma run_updates_wf (us : list update) (d : Dove) :
  wf d -> exists d', run_updates d us = Ok d' /\ wf d'.
Proof.
  revert d. induction us as [|u us IH]; intros d Hwf.
  - exists d. split; [reflexivity | exact Hwf].
  - pose proof (update_dove_ok d (u_valid u) (u_x u) (u_y u) (u_h u) Hwf) as Hok.
    cbn [run_updates]. unfold apply_update. rewrite Hok. cbn [rbind].
    apply IH. eapply update_dove_wf; [exact Hwf | exact Hok].
Qed.

(** C6. On a well-formed tracker (both histories of the window size, write
    index inside the window) [update_dove] with [is_valid=False] keeps
    [x_center], writes NaN at the write index of both histories and
    advances the index by one modulo the window size; with [is_valid=True]
    it stores the given [x_center]. *)
Theorem update_dove_frame (d : Dove) (x : Z) (y h : sample) :
  wf d ->
  (exists d',
      update_dove d false x y h = Ok d' /\
      x_center d' = x_center d /\
      y_center d' !! index d = Some NaN /\
      height d' !! index d = Some NaN /\
      index d' = ((index d + 1) mod Config.FRAME_TO_PITCH)%nat) /\
  (exists d', update_dove d true x y h = Ok d' /\ x_center d' = x).
Proof.
  intros Hwf. split.
  - eexists. split; [apply update_dove_ok; exact Hwf |].
    destruct Hwf as (Hy & Hh & Hi). simpl.
    repeat split; try reflexivity; apply list_lookup_insert_eq; lia.
  - eexists. split; [apply update_dove_ok; exact Hwf | reflexivity].
Qed.

Lemma update_dove_frame_witness :
  wf (init false 0) /\
  (exists d',
      update_dove (init false 0) false 7 (Num 100) (Num 5) = Ok d' /\
      x_center d' = 0 /\
      y_center d' !! 0%nat = Some NaN /\
      height d' !! 0%nat = Some NaN /\
      index d' = 1%nat).
Proof.
  split; [apply wf_init |].
  exact (proj1 (update_dove_frame (init false 0) 7 (Num 100) (Num 5) (wf_init false 0))).
Defined.

(** C10. A tracker built with [is_valid=False] and updated by any finite
    sequence of [update_dove] calls whose valid frames carry non-NaN
    [y_center] and [height]: the calls raise nothing, and whenever
    [is_dove()] is true afterwards, the median of [get_center()] and
    [get_height()] are not None. *)
Theorem is_dove_median_present (x0 : Z) (us : list update) :
  Forall finite_args us ->
  exists d,
    run_updates (init false x0) us = Ok d /\
    (is_dove d = true -> snd (get_center d) <> None /\ get_height d <> None).
Proof.
  intros Hall.
  destruct (run_updates_invariant us (init false x0)) as (d & Hrun & _ & Hs).
  - apply wf_init.
  - unfold holds_sample; simpl. discriminate.
  - exact Hall.
  - exists d. split; [exact Hrun |]. intros Hv.
    destruct (Hs Hv) as [(i & q & Hy) (j & r & Hh)].
    split; [exact (s_median_Some _ _ _ Hy) | exact (s_median_Some _ _ _ Hh)].
Qed.

Lemma is_dove_median_present_witness :
  Forall finite_args [mkUpdate true 50 (Num 100) (Num 5); mkUpdate false 0 NaN NaN;
                      mkUpdate true 60 (Num 120) (Num 6)] /\
  exists d,
    run_updates (init false 0)
      [mkUpdate true 50 (Num 100) (Num 5); mkUpdate false 0 NaN NaN;
       mkUpdate true 60 (Num 120) (Num 6)] = Ok d /\
    (is_dove d = true -> snd (get_center d) <> None /\ get_height d <> None).
Proof.
  assert (H : Forall finite_args
                [mkUpdate true 50 (Num 100) (Num 5); mkUpdate false 0 NaN NaN;
                 mkUpdate true 60 (Num 120) (Num 6)]).
  { repeat constructor; unfold finite_args; simpl; intros; try discriminate;
      split; discriminate. }
  split; [exact H |].
  exact (is_dove_median_present 0 _ H).
Defined.

End DoveFacts.

(** ** The roll aim loop *)

Section AimSideFacts.
Import DoveObject Servo.

Lemma countdown_fuel (fuel fuel' : nat) (t : float) (n : nat) :
  countdown fuel t = Some n -> (fuel <= fuel')%nat -> countdown fuel' t = Some n.
Proof.
  revert fuel' t n. induction fuel as [|fuel IH]; intros fuel' t n Hc Hle.
  - destruct fuel'; simpl in *; destruct (PrimFloat.ltb 0 t); congruence.
  - destruct fuel' as [|fuel']; [lia |]. simpl in *.
    destruct (PrimFloat.ltb 0 t); [| exact Hc].
    destruct (countdown fuel (PrimFloat.sub t Config.ROLL_TIME_AIM)) as [k|] eqn:Hk;
      [| discriminate].
    rewrite (IH fuel' _ k Hk) by lia. exact Hc.
Qed.

Lemma countdown_TIMEOUT_S : countdown 151 Config.TIMEOUT_S = Some 151%nat.
Proof. vm_compute. reflexivity. Qed.

  (* The budget of the loop itself: 0.1 is not a binary64 number, and after
     150 subtractions of it from 15 the budget is still 0x1.494p-45, about
     3.7e-14, so the test [timeout > 0] would admit a 151st iteration. *)
Lemma timeout_after_150_pulses :
  Nat.iter 150 (fun t => PrimFloat.sub t Config.ROLL_TIME_AIM) Config.TIMEOUT_S
  = 0x1.494p-45%float.
Proof. vm_compute. reflexivity. Qed.

Lemma ticks_app (tr tr' : list event) : ticks (tr ++ tr') = (ticks tr + ticks tr')%nat.
Proof. unfold ticks. rewrite List.filter_app, length_app. reflexivity. Qed.

Variable env : nat -> Dove.

Lemma side_loop_exit (wfuel fuel : nat) (x : Z) (t u : float) (w : world) :
  out_of_band x && PrimFloat.ltb 0%float t = false ->
  side_loop env wfuel fuel x t u w =
  if PrimFloat.leb t 0%float
  then (Returns false,
        {| servo := servo w; reads := reads w; trace := trace w ++ [Said "Aim Failed!"] |})
  else (Returns true,
        {| servo := servo w; reads := reads w;
           trace := trace w ++ [Said "Roll Aim success!"] |}).
Proof.
  intros Hc. unfold out_of_band in Hc.
  destruct fuel; simpl; rewrite Hc; destruct (PrimFloat.leb t 0); reflexivity.
Qed.

(** C9. When the first [get_center()] of [Aim_side] reads an [x_center]
    inside [LEFT_AIM, RIGHT_AIM], the call returns True at once: the tracker is
    read once, the only effect is the success message, and no roll command
    or sleep is issued, whatever the presence flag and the y history are. *)
Theorem Aim_side_in_band (fuel : nat) (w : world) :
  Config.LEFT_AIM <= x_center (env (reads w)) <= Config.RIGHT_AIM ->
  Aim_side env fuel w =
  (Returns true,
   {| servo := servo w;
      reads := S (reads w);
      trace := trace w ++ [Said "Roll Aim success!"] |}).
Proof.
  intros [Hl Hr]. unfold Aim_side, get_center, read_dove, bind, ret.
  cbn [fst DoveObject.get_center servo reads trace].
  rewrite side_loop_exit.
  - reflexivity.
  - unfold out_of_band.
    destruct (Z.ltb_spec (x_center (env (reads w))) Config.LEFT_AIM); [lia |].
    destruct (Z.ltb_spec Config.RIGHT_AIM (x_center (env (reads w)))); [lia |].
    reflexivity.
Qed.

  (* Outside the dead-band the first iteration stops at its debug print. *)
Lemma Aim_side_first_print (fuel : nat) (w : world) :
  out_of_band (x_center (env (reads w))) = true ->
  (0 < fuel)%nat ->
  Aim_side env fuel w =
  (Raises AttributeError,
   {| servo := servo w;
      reads := S (S (reads w));
      trace := trace w ++ [Said "Dove status:"] |}).
Proof.
  intros Hx Hfuel. destruct fuel as [|fuel]; [lia |].
  unfold Aim_side, get_center, read_dove, bind, ret.
  cbn [fst DoveObject.get_center servo reads trace side_loop].
  unfold out_of_band in Hx. rewrite Hx.
  replace (PrimFloat.ltb 0 Config.TIMEOUT_S) with true by reflexivity.
  reflexivity.
Qed.

(** C3, where the code departs from it.  When the first [get_center()] of
    [Aim_side] reads an [x_center] outside [LEFT_AIM, RIGHT_AIM], the loop
    body starts with [dove.print_dove()], whose second [print] evaluates
    [Config.sys.stderr]; Config.py binds no [sys], so the call raises
    AttributeError in the first iteration, after the header line of the
    print: no pulse is issued, no time is consumed and no failure value is
    returned, whatever the tracker shows afterwards. *)
Theorem Aim_side_raises_at_print (fuel : nat) (w : world) :
  out_of_band (x_center (env (reads w))) = true ->
  (0 < fuel)%nat ->
  Aim_side env fuel w =
  (Raises AttributeError,
   {| servo := servo w;
      reads := S (S (reads w));
      trace := trace w ++ [Said "Dove status:"] |}).
Proof.
  intros Hx Hfuel. rewrite (Aim_side_first_print fuel w Hx Hfuel). reflexivity.
Qed.

End AimSideFacts.

Lemma Aim_side_raises_at_print_witness :
  Servo.Aim_side (fun _ => present_left) 1 idle_world =
  (Servo.Raises AttributeError,
   {| Servo.servo := Servo.servo idle_world;
      Servo.reads := 2;
      Servo.trace := [Servo.Said "Dove status:"] |}).
Proof.
  apply (Aim_side_raises_at_print (fun _ => present_left) 1 idle_world).
  - reflexivity.
  - lia.
Defined.

Lemma Aim_side_in_band_witness :
  DoveObject.is_dove absent_centered = false /\
  snd (DoveObject.get_center absent_centered) = None /\
  Servo.Aim_side (fun _ => absent_centered) 0 idle_world =
  (Servo.Returns true,
   {| Servo.servo := Servo.servo idle_world;
      Servo.reads := 1;
      Servo.trace := [Servo.Said "Roll Aim success!"] |}).
Proof.
  split; [reflexivity |]. split; [reflexivity |].
  apply (Aim_side_in_band (fun _ => absent_centered) 0 idle_world).
  simpl. unfold Config.LEFT_AIM, Config.RIGHT_AIM. lia.
Defined.

(** ** The pitch aim loop *)

Section AimPitchFacts.
Import DoveObject Servo PyMath.

  (* A step taken on a numeric median y: the angle moves by one degree, up
     when y is above the TOP_AIM line ([y < TOP_AIM]) and down otherwise; an
     angle outside [alpha_to_beta_map[-16], alpha_to_beta_map[45]] is
     reported with its own message and is not sent to the servo. *)
Lemma pitch_step_number (q : Q) (w : world) (lo hi : Z) :
  alpha_to_beta_map (servo w) !! (-16) = Some lo ->
  alpha_to_beta_map (servo w) !! 45 = Some hi ->
  pitch_step (Some q) w =
  let deg := pitch_deg (servo w) +
             (if Qlt_bool q (inject_Z Config.TOP_AIM) then 1 else -1) in
  if (deg <? lo) || (hi <? deg)
  then (Returns false,
        {| servo := with_pitch (servo w) deg;
           reads := reads w;
           trace := trace w ++ [Said "not in pitch range"] |})
  else (Returns true,
        {| servo := with_pitch (servo w) deg;
           reads := reads w;
           trace := trace w ++ [PitchDuty (deg_to_duty deg)] |}).
Proof.
  intros Hlo Hhi.
  unfold pitch_step, get_servo, py_lt, set_pitch_deg, lift, getitem, say, bind, ret, emit.
  cbn [servo reads trace pitch_deg alpha_to_beta_map beta_to_alpha_map].
  rewrite Hlo. cbn beta iota.
  destruct (_ <? lo) eqn:Hbelow; cbn beta iota.
  - reflexivity.
  - rewrite Hhi. cbn beta iota. destruct (hi <? _); reflexivity.
Qed.

Variable env : nat -> Dove.

(** C8, where the code departs from it.  When the median y read by
    [Aim_pitch] is None (every slot of the y history is NaN) and the target is
    present at the presence check that follows, the step
    [self.pitch_deg += 1 if y_center < Config.TOP_AIM else -1] compares None
    with a number: the call raises TypeError, the pitch angle is left as it
    was, nothing is commanded and no failure value is returned. *)
Theorem Aim_pitch_stale_None (fuel : nat) (w : world) :
  snd (DoveObject.get_center (env (reads w))) = None ->
  is_valid (env (S (reads w))) = true ->
  (0 < fuel)%nat ->
  Aim_pitch env fuel w =
  (Raises TypeError,
   {| servo := servo w; reads := S (S (reads w)); trace := trace w |}).
Proof.
  intros Hy Hv Hfuel. destruct fuel as [|fuel]; [lia |].
  unfold Aim_pitch, get_center, read_dove, bind, ret.
  cbn [servo reads trace]. rewrite Hy. cbn [pitch_loop off_target andb].
  replace (PrimFloat.ltb 0 Config.TIMEOUT_S) with true by reflexivity.
  unfold dove_gone, Servo.is_dove, read_dove, pitch_step, get_servo, py_lt, raise, bind,
    ret, DoveObject.is_dove.
  cbn [servo reads trace]. rewrite Hv. reflexivity.
Qed.

  (* The same through the grace period: the target is absent at the first
     presence check and back at the next two. *)
Lemma Aim_pitch_reacquired_None (fuel : nat) (w : world) :
  snd (DoveObject.get_center (env (reads w))) = None ->
  is_valid (env (S (reads w))) = false ->
  is_valid (env (S (S (reads w)))) = true ->
  is_valid (env (S (S (S (reads w))))) = true ->
  (0 < fuel)%nat ->
  Aim_pitch env fuel w =
  (Raises TypeError,
   {| servo := servo w; reads := S (S (S (S (reads w)))); trace := trace w |}).
Proof.
  intros Hy Hv1 Hv2 Hv3 Hfuel. destruct fuel as [|fuel]; [lia |].
  unfold Aim_pitch, get_center, read_dove, bind, ret.
  cbn [servo reads trace]. rewrite Hy. cbn [pitch_loop off_target andb].
  replace (PrimFloat.ltb 0 Config.TIMEOUT_S) with true by reflexivity.
  unfold dove_gone, Servo.is_dove, read_dove, bind, ret, DoveObject.is_dove.
  cbn [servo reads trace]. rewrite Hv1. cbn [negb reacquire].
  replace (PrimFloat.ltb 0 Config.UNDETECTED_TO) with true by reflexivity.
  unfold Servo.is_dove, read_dove, bind, ret, DoveObject.is_dove.
  cbn [servo reads trace]. rewrite Hv2. cbn [servo reads trace]. rewrite Hv3.
  reflexivity.
Qed.

End AimPitchFacts.

Lemma Aim_pitch_stale_None_witness :
  Servo.Aim_pitch (fun n => match n with O => absent_centered | S _ => present_left end)
                  1 idle_world =
  (Servo.Raises TypeError,
   {| Servo.servo := Servo.servo idle_world;
      Servo.reads := 2;
      Servo.trace := [] |}).
Proof.
  apply (Aim_pitch_stale_None
           (fun n => match n with O => absent_centered | S _ => present_left end)
           1 idle_world).
  - reflexivity.
  - reflexivity.
  - lia.
Defined.

(** ** The linkage solve *)

Section AngConvFacts.
Import PyMath AnglesMap.
Local Open Scope R_scope.

Lemma py_div_ok (a b : R) : b <> 0 -> py_div a b = Ok (a / b).
Proof. intros Hb. unfold py_div. destruct (Req_dec_T b 0); [contradiction | reflexivity]. Qed.


Lemma py_acos_ok (x : R) : -1 <= x <= 1 -> py_acos x = Ok (acos x).
Proof.
  intros [Hl Hu]. unfold py_acos.
  destruct (Rlt_dec x (-1)); [lra |]. destruct (Rlt_dec 1 x); [lra | reflexivity].
Qed.

  (* The aim angles of the table lie between -30 and 45 degrees. *)
Lemma radians_table_range (k : Z) :
  (-16 <= k <= 45)%Z -> - (PI / 6) <= radians (IZR k) <= PI / 4.
Proof.
  intros [Hl Hu]. apply IZR_le in Hl, Hu. unfold radians.
  pose proof PI_RGT_0 as Hpi. split; nra.
Qed.

Lemma table_trig_bounds (k : Z) :
  (-16 <= k <= 45)%Z ->
  0 <= cos (radians (IZR k)) <= 1 /\ -1 / 2 <= sin (radians (IZR k)) <= 1.
Proof.
  intros Hk. destruct (radians_table_range k Hk) as [Hl Hu].
  pose proof PI_RGT_0 as Hpi.
  pose proof (COS_bound (radians (IZR k))) as [_ Hc].
  pose proof (SIN_bound (radians (IZR k))) as [_ Hs].
  repeat split; try assumption.
  - apply cos_ge_0; lra.
  - replace (-1 / 2) with (sin (- (PI / 6))) by (rewrite sin_neg, sin_PI6; lra).
    apply sin_incr_1; lra.
Qed.

  (* A root of [x^2 + E x + F = 0] with the coefficients of [ang_conv] is a
     cosine: it lies in [-1, 1]. *)
Lemma quad_root_eq (E F sd r : R) :
  sd * sd = E ^ 2 - 4 * F -> r = (- E + sd) / 2 -> r ^ 2 + E * r + F = 0.
Proof. intros Hsd ->. field_simplify. nra. Qed.

Lemma quad_root_bound (A B C r : R) :
  B <> 0 ->
  r ^ 2 + A * (B ^ 2 - C) / (A ^ 2 + B ^ 2) * r
        + (25 / 100 * (B ^ 2 - C) ^ 2 - B ^ 2) / (A ^ 2 + B ^ 2) = 0 ->
  -1 <= r <= 1.
Proof.
  intros HB Hr. set (BS := B ^ 2) in *. set (D := A ^ 2 + BS) in *.
  assert (HBS : 0 < BS) by (unfold BS; nra).
  assert (HD : 0 < D) by (unfold D; nra).
  assert (Hk : D * r ^ 2 + A * (BS - C) * r + (25 / 100 * (BS - C) ^ 2 - BS) = 0).
  { transitivity (D * (r ^ 2 + A * (BS - C) / D * r
                        + (25 / 100 * (BS - C) ^ 2 - BS) / D)).
    - field. lra.
    - rewrite Hr. ring. }
  assert (Hsq : BS * (1 - r ^ 2) = (A * r + (BS - C) / 2) ^ 2) by (unfold D in Hk; nra).
  assert (Hpos : 0 <= (A * r + (BS - C) / 2) ^ 2) by apply pow2_ge_0.
  assert (Hr2 : r ^ 2 <= 1) by nra.
  nra.
Qed.

  (* The clamped case: with the discriminant replaced by 0 the root is
     [-E / 2], and [|E| <= 2] for the configured linkage. *)
Lemma clamped_root_bound (c s : R) :
  0 <= c <= 1 -> -1 / 2 <= s <= 1 ->
  let A := (Config.l2 - Config.l5 * c) / Config.l3 in
  let B := -1 * (Config.l1 + Config.l5 * s) / Config.l3 in
  let C := (Config.l4 / Config.l3) ^ 2 - 1 in
  -1 <= - (A * (B ^ 2 - C) / (A ^ 2 + B ^ 2)) / 2 <= 1.
Proof.
  intros Hc Hs A B C.
  assert (HA : -101 / 100 <= A <= 106 / 100).
  { unfold A, Config.l2, Config.l5, Config.l3. split.
    - apply Rmult_le_reg_r with (155 / 100); [lra |]. field_simplify. lra.
    - apply Rmult_le_reg_r with (155 / 100); [lra |]. field_simplify. lra. }
  assert (HB : B <= -37 / 10).
  { unfold B, Config.l1, Config.l5, Config.l3.
    apply Rmult_le_reg_r with (155 / 100); [lra |]. field_simplify. lra. }
  assert (HC : 2497 / 100 <= C <= 2498 / 100).
  { unfold C, Config.l4, Config.l3. split; field_simplify; lra. }
  assert (HBS : 1369 / 100 <= B ^ 2) by nra.
  set (BS := B ^ 2) in *.
  assert (HD : 0 < A ^ 2 + BS) by nra.
  assert (HE : -2 * (A ^ 2 + BS) <= A * (BS - C) <= 2 * (A ^ 2 + BS)).
  { destruct (Rle_dec C BS), (Rle_dec 0 A); split; nra. }
  split.
  - apply Rmult_le_reg_r with (2 * (A ^ 2 + BS)); [lra |]. field_simplify; lra.
  - apply Rmult_le_reg_r with (2 * (A ^ 2 + BS)); [lra |]. field_simplify; lra.
Qed.

Lemma acos_arg_in_range (k : Z) :
  (-16 <= k <= 45)%Z -> exists r, acos_arg k = Ok r /\ -1 <= r <= 1.
Proof.
  intros Hk. destruct (table_trig_bounds k Hk) as [Hc Hs].
  unfold acos_arg.
  set (c := cos (radians (IZR k))) in *. set (s := sin (radians (IZR k))) in *.
  assert (Hl3 : Config.l3 <> 0) by (unfold Config.l3; lra).
  rewrite !(py_div_ok _ Config.l3) by exact Hl3. cbn [rbind].
  set (A := (Config.l2 - Config.l5 * c) / Config.l3).
  set (B := -1 * (Config.l1 + Config.l5 * s) / Config.l3).
  set (C := (Config.l4 / Config.l3) ^ 2 - 1).
  assert (HB : B <> 0).
  { unfold B, Config.l1, Config.l5, Config.l3. intros H0.
    apply Rmult_eq_compat_r with (r := 155 / 100) in H0. field_simplify in H0. lra. }
  assert (HD : A ^ 2 + B ^ 2 <> 0) by nra.
  rewrite !(py_div_ok _ (A ^ 2 + B ^ 2)) by exact HD. cbn [rbind].
  rewrite py_div_ok by lra.
  eexists. split; [reflexivity |].
  set (E := A * (B ^ 2 - C) / (A ^ 2 + B ^ 2)).
  set (F := (25 / 100 * (B ^ 2 - C) ^ 2 - B ^ 2) / (A ^ 2 + B ^ 2)).
  destruct (Rlt_dec (E ^ 2 - 4 * F) 0) as [Hneg | Hpos].
  - rewrite sqrt_0. replace ((- E + 0) / 2) with (- E / 2) by lra.
    exact (clamped_root_bound c s Hc Hs).
  - apply (quad_root_bound A B C); [exact HB |].
    apply (quad_root_eq E F (sqrt (E ^ 2 - 4 * F))); [| reflexivity].
    apply sqrt_sqrt. lra.
Qed.

(** C5. For every integer alpha in [-16, 45] and the configured linkage
    constants, [ang_conv] raises nothing and returns an integer beta: a
    negative discriminant is replaced by 0 before the square root, the
    argument handed to [math.acos] lies in [-1, 1], and the result is the
    rounded angle plus the calibration offset.  As a function it is
    deterministic and has no effects. *)
Theorem ang_conv_total (k : Z) :
  (-16 <= k <= 45)%Z ->
  exists root,
    acos_arg k = Ok root /\ -1 <= root <= 1 /\
    ang_conv k =
    Ok (py_round (if (k <? Config.lim)%Z
                  then degrees (acos root) * -1 else degrees (acos root))
        + Config.s_cal)%Z.
Proof.
  intros Hk. destruct (acos_arg_in_range k Hk) as (r & Harg & Hr).
  exists r. split; [exact Harg |]. split; [exact Hr |].
  unfold ang_conv. rewrite Harg. cbn [rbind]. rewrite (py_acos_ok r Hr). reflexivity.
Qed.

Lemma ang_conv_total_witness :
  exists root,
    acos_arg 0 = Ok root /\ -1 <= root <= 1 /\
    ang_conv 0 = Ok (py_round (degrees (acos root) * -1) + Config.s_cal)%Z.
Proof.
  apply (ang_conv_total 0). lia.
Defined.

  (* What the table construction needs of [ang_conv]. *)
Lemma ang_conv_Ok (k : Z) : (-16 <= k <= 45)%Z -> exists beta, ang_conv k = Ok beta.
Proof.
  intros Hk. destruct (acos_arg_in_range k Hk) as (r & Harg & Hr).
  eexists. unfold ang_conv. rewrite Harg. cbn [rbind]. rewrite (py_acos_ok r Hr).
  reflexivity.
Qed.

End AngConvFacts.

(** ** The ballistic correction *)

Section BallisticFacts.
Import PyMath Servo.
Local Open Scope R_scope.

Lemma half_fov_range :
  139 / 1000 <= radians Config.FOV_deg / 2 <= 186 / 1000 /\
  radians Config.FOV_deg / 2 < PI / 2.
Proof.
  unfold radians, Config.FOV_deg.
  pose proof PI2_3_2 as Hlo. pose proof PI_4 as Hhi. repeat split; lra.
Qed.

Lemma tan_half_fov_pos : 0 < tan (radians Config.FOV_deg / 2).
Proof. destruct half_fov_range as [[Hl Hu] Hp]. apply tan_gt_0; lra. Qed.

Lemma ballistic_E_neq_0 (OB : R) : OB <> 0 -> ballistic_E OB <> 0.
Proof.
  intros HOB. pose proof tan_half_fov_pos as HT.
  assert (Hden : 2 * OB * tan (radians Config.FOV_deg / 2) <> 0)
    by (apply Rmult_integral_contrapositive_currified; nra).
  unfold ballistic_E, distance, Rdiv.
  repeat apply Rmult_integral_contrapositive_currified;
    try (apply Rinv_neq_0_compat; try exact Hden);
    unfold Config.GRAVITY_CONSTANT, Config.INITIAL_V, Config.REAL_DOVE_HEIGHT,
      Config.HEIGHT_PIXEL; nra.
Qed.

  (* The function on a non-empty candidate list, a non-zero apparent size
     and an aim angle that is not vertical: no exception, and the two tests
     of the source decide the result. *)
Lemma real_alpha_calc_balistics_eval (a0 : R) (rest : list R) (OB : R) :
  OB <> 0 ->
  cos (radians (foldr Rmin a0 rest)) <> 0 ->
  real_alpha_calc_balistics (a0 :: rest) OB =
  let alpha := radians (foldr Rmin a0 rest) in
  let E := ballistic_E OB in
  if Rlt_dec (ballistic_dis E alpha) 0 then Ok FNaN
  else if Rlt_dec 45 (solved_angle E alpha) then Ok FNaN
       else Ok (FNum (solved_angle E alpha)).
Proof.
  intros HOB Hcos. pose proof tan_half_fov_pos as HT.
  pose proof (ballistic_E_neq_0 OB HOB) as HE.
  unfold real_alpha_calc_balistics. cbn [py_min_R rbind].
  rewrite py_div_ok by (apply Rmult_integral_contrapositive_currified; nra).
  cbn [rbind]. rewrite py_div_ok by (unfold Config.INITIAL_V; nra).
  cbn [rbind]. fold (distance OB). fold (ballistic_E OB).
  cbn zeta. destruct (Rlt_dec _ 0) as [Hneg | Hpos]; [reflexivity |].
  rewrite py_div_ok by (apply Rmult_integral_contrapositive_currified; assumption).
  cbn [rbind]. reflexivity.
Qed.


End BallisticFacts.

(** ** The final ballistic commit *)

Section FinalPitchFacts.
Import PyMath Servo.
Local Open Scope R_scope.

Lemma py_round_bounds (x : R) (m n : Z) :
  IZR m <= x <= IZR n -> (m <= py_round x <= n)%Z.
Proof.
  intros [Hm Hn]. unfold py_round.
  destruct (base_Int_part x) as [Hf1 Hf2].
  set (f := Int_part x) in *.
  assert (Hfm : (m <= f)%Z).
  { apply Z.lt_succ_r, lt_IZR. rewrite succ_IZR. lra. }
  assert (Hfn : (f <= n)%Z) by (apply le_IZR; lra).
  assert (Hstep : 0 < x - IZR f -> (f + 1 <= n)%Z).
  { intros Hd. apply Z.le_succ_l, lt_IZR. lra. }
  destruct (Rlt_dec (x - IZR f) (1 / 2)); [lia |].
  destruct (Rlt_dec (1 / 2) (x - IZR f)); [split; [lia | apply Hstep; lra] |].
  destruct (Z.even f); [lia | split; [lia | apply Hstep; lra]].
Qed.

  (* A lower bound for [tan(FOV / 2)]: the half field of view is at least
     0.139 rad, and [tan x >= sin x >= x - x^3 / 6] there. *)
Lemma tan_half_fov_lower : 131 / 1000 <= tan (radians Config.FOV_deg / 2).
Proof.
  destruct half_fov_range as [[Hl Hu] Hp].
  set (x := radians Config.FOV_deg / 2) in *.
  pose proof PI_RGT_0 as Hpi.
  assert (Hsin : x - x ^ 3 / 6 <= sin x).
  { destruct (sin_bound x 0) as [Hlow _]; [lra | lra |].
    unfold sin_approx, sin_term in Hlow. simpl in Hlow. lra. }
  assert (Hcos : 0 < cos x <= 1).
  { split; [apply cos_gt_0; lra | apply COS_bound]. }
  assert (Hx3 : x ^ 3 <= 7 / 1000) by nra.
  assert (Hs : 131 / 1000 <= sin x) by lra.
  unfold tan. apply Rle_trans with (sin x); [exact Hs |].
  apply Rmult_le_reg_r with (cos x); [lra |].
  unfold Rdiv. rewrite Rmult_assoc, Rinv_l by lra. nra.
Qed.

  (* At 100 pixels the ballistic parameter is below 1. *)
Lemma ballistic_E_100 : 0 < ballistic_E 100 <= 1.
Proof.
  pose proof tan_half_fov_lower as HT.
  unfold ballistic_E, distance, Config.GRAVITY_CONSTANT, Config.INITIAL_V,
    Config.REAL_DOVE_HEIGHT, Config.HEIGHT_PIXEL.
  set (T := tan (radians Config.FOV_deg / 2)) in *.
  split.
  - apply Rdiv_lt_0_compat; [| nra]. apply Rmult_lt_0_compat; [lra |].
    apply Rdiv_lt_0_compat; nra.
  - apply Rmult_le_reg_r with (2 * 100 * T * (52 / 10) ^ 2); [nra |].
    field_simplify; [| nra]. nra.
Qed.

  (* The correction of a level aim at a target 100 pixels high succeeds. *)
Lemma level_shot_100 :
  exists a, real_alpha_calc_balistics (map Q2R [0%Q]) 100 = Ok (FNum a) /\ 0 <= a <= 45.
Proof.
  destruct ballistic_E_100 as [HE0 HE1].
  assert (H0 : Q2R 0 = 0) by (unfold Q2R; simpl; lra).
  cbn [map]. rewrite H0.
  assert (Hrad : radians (foldr Rmin 0 []) = 0) by (cbn [foldr]; unfold radians; lra).
  rewrite real_alpha_calc_balistics_eval; [| lra | rewrite Hrad, cos_0; lra].
  cbn zeta. rewrite Hrad. set (E := ballistic_E 100) in *.
  assert (Hdis : ballistic_dis E 0 = 1 - E ^ 2).
  { unfold ballistic_dis. rewrite sin_0, cos_0. ring. }
  assert (Hdpos : 0 <= 1 - E ^ 2) by nra.
  assert (Hsq : 0 <= sqrt (1 - E ^ 2) <= 1).
  { split; [apply sqrt_pos |]. rewrite <- sqrt_1 at 2. apply sqrt_le_1_alt. nra. }
  assert (Hsq2 : sqrt (1 - E ^ 2) * sqrt (1 - E ^ 2) = 1 - E ^ 2) by (apply sqrt_sqrt; lra).
  set (t := (1 - sqrt (1 - E ^ 2)) / (E * 1)).
  assert (Ht : 0 <= t <= 1).
  { unfold t. split.
    - apply Rmult_le_reg_r with (E * 1); [lra |]. field_simplify; lra.
    - apply Rmult_le_reg_r with (E * 1); [lra |]. field_simplify; [| lra]. nra. }
  assert (Hatan : 0 <= atan t <= PI / 4).
  { split.
    - rewrite <- atan_0. destruct (Req_dec t 0) as [-> | Hne]; [lra |].
      left. apply atan_increasing. lra.
    - rewrite <- atan_1. destruct (Req_dec t 1) as [-> | Hne]; [lra |].
      left. apply atan_increasing. lra. }
  assert (Hsolved : 0 <= solved_angle E 0 <= 45).
  { unfold solved_angle. rewrite Hdis, cos_0. fold t. unfold degrees.
    pose proof PI_RGT_0 as Hpi. split.
    - apply Rmult_le_reg_r with PI; [lra |]. field_simplify; lra.
    - apply Rmult_le_reg_r with PI; [lra |]. field_simplify; lra. }
  destruct (Rlt_dec (ballistic_dis E 0) 0); [lra |].
  destruct (Rlt_dec 45 (solved_angle E 0)); [lra |].
  eexists. split; [reflexivity | exact Hsolved].
Qed.

  (* [final_pitch_aim] hands back False or None, never True. *)
Lemma final_pitch_aim_never_True (height : R) (w : world) :
  fst (final_pitch_aim height w) <> Returns (PyBool true).
Proof.
  unfold final_pitch_aim, get_servo, lift, getitem, set_pitch_deg, emit, bind, ret, raise.
  destruct (beta_to_alpha_map (servo w) !! pitch_deg (servo w)); cbn; [| discriminate].
  destruct (real_alpha_calc_balistics _ height) as [[|a]|]; cbn; try discriminate.
  destruct (alpha_to_beta_map (servo w) !! py_round a); cbn; discriminate.
Qed.

  (* The failure path: a NaN correction is handed back as False, with the
     servo state untouched, nothing commanded and no second attempt. *)
Lemma final_pitch_aim_NaN (height : R) (w : world) (naive : list Q) :
  beta_to_alpha_map (servo w) !! pitch_deg (servo w) = Some naive ->
  real_alpha_calc_balistics (map Q2R naive) height = Ok FNaN ->
  final_pitch_aim height w = (Returns (PyBool false), w).
Proof.
  intros Hnaive Hcalc.
  unfold final_pitch_aim, get_servo, lift, getitem, bind, ret.
  rewrite Hnaive. cbn beta iota. rewrite Hcalc. reflexivity.
Qed.

(** C7, where the code departs from it.  When the table lookups succeed and
    the ballistic correction returns an angle, [final_pitch_aim] stores and
    commands the mechanical angle of the rounded correction and then falls
    off its end: the caller receives None, not a success indicator. *)
Theorem final_pitch_aim_success_None (height : R) (w : world)
    (naive : list Q) (a : R) (deg : Z) :
  beta_to_alpha_map (servo w) !! pitch_deg (servo w) = Some naive ->
  real_alpha_calc_balistics (map Q2R naive) height = Ok (FNum a) ->
  alpha_to_beta_map (servo w) !! py_round a = Some deg ->
  final_pitch_aim height w =
  (Returns PyNone,
   {| servo := with_pitch (servo w) deg;
      reads := reads w;
      trace := trace w ++ [PitchDuty (deg_to_duty deg)] |}).
Proof.
  intros Hnaive Hcalc Hdeg.
  unfold final_pitch_aim, get_servo, lift, getitem, set_pitch_deg, emit, bind, ret.
  rewrite Hnaive. cbn beta iota. rewrite Hcalc. cbn beta iota.
  rewrite Hdeg. reflexivity.
Qed.

End FinalPitchFacts.

Lemma final_pitch_aim_success_None_witness :
  exists w',
    Servo.final_pitch_aim 100%R
      {| Servo.servo := level_servo; Servo.reads := 0; Servo.trace := [] |}
    = (Servo.Returns Servo.PyNone, w').
Proof.
  destruct level_shot_100 as (a & Hcalc & Ha).
  assert (Hkey : Servo.alpha_to_beta_map level_servo !! PyMath.py_round a = Some 134).
  { apply lookup_gset_to_gmap_Some. split; [| reflexivity].
    apply elem_of_list_to_set, elem_of_seqZ.
    pose proof (py_round_bounds a 0 45 Ha). lia. }
  eexists.
  apply (final_pitch_aim_success_None 100%R
           {| Servo.servo := level_servo; Servo.reads := 0; Servo.trace := [] |}
           [0%Q] a 134).
  - reflexivity.
  - exact Hcalc.
  - exact Hkey.
Defined.

(** ** The angle tables *)

Section TableFacts.
Import PyMath AnglesMap.

Lemma foldr_max_spec (x : Z) (l : list Z) :
  foldr Z.max x l ∈ x :: l /\ (forall y, y ∈ x :: l -> y <= foldr Z.max x l).
Proof.
  induction l as [|h t [IHin IHub]]; simpl.
  - split; [left | intros y Hy; apply list_elem_of_singleton in Hy; lia].
  - split.
    + destruct (Z.max_spec h (foldr Z.max x t)) as [[_ ->] | [_ ->]].
      * apply elem_of_cons in IHin as [-> | Hin]; [left | right; right; exact Hin].
      * right; left.
    + intros y Hy. apply elem_of_cons in Hy as [-> | Hy].
      * specialize (IHub x ltac:(left)). lia.
      * apply elem_of_cons in Hy as [-> | Hy]; [lia |].
        specialize (IHub y ltac:(right; exact Hy)). lia.
Qed.

Lemma foldr_min_spec (x : Z) (l : list Z) :
  foldr Z.min x l ∈ x :: l /\ (forall y, y ∈ x :: l -> foldr Z.min x l <= y).
Proof.
  induction l as [|h t [IHin IHlb]]; simpl.
  - split; [left | intros y Hy; apply list_elem_of_singleton in Hy; lia].
  - split.
    + destruct (Z.min_spec h (foldr Z.min x t)) as [[_ ->] | [_ ->]].
      * right; left.
      * apply elem_of_cons in IHin as [-> | Hin]; [left | right; right; exact Hin].
    + intros y Hy. apply elem_of_cons in Hy as [-> | Hy].
      * specialize (IHlb x ltac:(left)). lia.
      * apply elem_of_cons in Hy as [-> | Hy]; [lia |].
        specialize (IHlb y ltac:(right; exact Hy)). lia.
Qed.

  (* [max(...)] returns the element that bounds the others. *)
Lemma py_max_greatest (l : list Z) (x : Z) :
  x ∈ l -> (forall y, y ∈ l -> y <= x) -> py_max l = Ok x.
Proof.
  intros Hin Hub. destruct l as [|h t]; [inversion Hin |]. simpl.
  destruct (foldr_max_spec h t) as [Hr Hr_ub].
  f_equal. apply Z.le_antisymm; [apply Hub, Hr | apply Hr_ub, Hin].
Qed.

Lemma py_min_least (l : list Z) (x : Z) :
  x ∈ l -> (forall y, y ∈ l -> x <= y) -> py_min l = Ok x.
Proof.
  intros Hin Hlb. destruct l as [|h t]; [inversion Hin |]. simpl.
  destruct (foldr_min_spec h t) as [Hr Hr_lb].
  f_equal. apply Z.le_antisymm; [apply Hr_lb, Hin | apply Hlb, Hr].
Qed.

Lemma py_min_total (l : list Z) :
  l <> [] -> exists x, py_min l = Ok x /\ x ∈ l /\ (forall y, y ∈ l -> x <= y).
Proof.
  intros Hne. destruct l as [|h t]; [congruence |].
  destruct (foldr_min_spec h t) as [Hr Hr_lb]. eexists. simpl. eauto.
Qed.

Lemma py_max_total (l : list Z) :
  l <> [] -> exists x, py_max l = Ok x /\ x ∈ l /\ (forall y, y ∈ l -> y <= x).
Proof.
  intros Hne. destruct l as [|h t]; [congruence |].
  destruct (foldr_max_spec h t) as [Hr Hr_ub]. eexists. simpl. eauto.
Qed.

Lemma elem_of_keys {V : Type} (m : gmap Z V) (k : Z) : k ∈ keys m <-> is_Some (m !! k).
Proof. unfold keys. rewrite elem_of_elements. apply elem_of_dom. Qed.

Lemma populated_empty : populated (∅, ∅).
Proof.
  unfold populated, observed; simpl. repeat split.
  - intros alpha beta H. rewrite lookup_empty in H. discriminate.
  - intros [l H]. rewrite lookup_empty in H. discriminate.
  - intros [alpha H]. rewrite lookup_empty in H. discriminate.
  - intros alpha beta H. rewrite lookup_empty in H. discriminate.
  - intros beta l H. rewrite lookup_empty in H. discriminate.
  - intros beta l q H. rewrite lookup_empty in H. discriminate.
Qed.

  (* The backward table after one more alpha. *)
Lemma add_alpha_backward (b2a : gmap Z (list Q)) (alpha beta : Z) :
  exists l,
    match b2a !! beta with
    | Some alphas => <[beta := alphas ++ [inject_Z alpha]]> b2a
    | None => <[beta := [inject_Z alpha]]> b2a
    end = <[beta := l]> b2a /\
    (forall q, q ∈ l <->
               q = inject_Z alpha \/ exists l0, b2a !! beta = Some l0 /\ q ∈ l0).
Proof.
  destruct (b2a !! beta) as [l0|] eqn:Hb.
  - exists (l0 ++ [inject_Z alpha]). split; [reflexivity |].
    intros q. rewrite elem_of_app, list_elem_of_singleton. split.
    + intros [Hq | Hq]; [right; eauto | left; exact Hq].
    + intros [Hq | (l1 & Hl1 & Hq)]; [right; exact Hq |].
      apply Some_eq_inv in Hl1. subst l1. left. exact Hq.
  - exists [inject_Z alpha]. split; [reflexivity |].
    intros q. rewrite list_elem_of_singleton. split.
    + intros Hq. left. exact Hq.
    + intros [Hq | (l1 & Hl1 & _)]; [exact Hq | discriminate].
Qed.

Lemma add_alpha_populated (maps : gmap Z Z * gmap Z (list Q)) (alpha beta : Z) :
  populated maps -> ang_conv alpha = Ok beta ->
  exists maps',
    add_alpha maps alpha = Ok maps' /\ populated maps' /\
    maps'.1 = <[alpha := beta]> maps.1.
Proof.
  intros (Hconv & Hdom & Hmem & Hne & Hold) Hab.
  unfold add_alpha. rewrite Hab. cbn [rbind].
  destruct (add_alpha_backward maps.2 alpha beta) as (l & -> & Hl).
  eexists. split; [reflexivity |]. split; [| reflexivity].
  unfold populated, observed; cbn [fst snd].
  split; [| split; [| split; [| split]]].
  - intros a b Hlk. destruct (decide (a = alpha)) as [-> | Hna].
    + rewrite lookup_insert_eq in Hlk. congruence.
    + rewrite lookup_insert_ne in Hlk by congruence. apply Hconv, Hlk.
  - intros b. split.
    + intros Hsome. destruct (decide (b = beta)) as [-> | Hnb].
      * exists alpha. apply lookup_insert_eq.
      * rewrite lookup_insert_ne in Hsome by congruence.
        apply Hdom in Hsome as [a Ha]. exists a.
        rewrite lookup_insert_ne; [exact Ha |].
        intros <-. apply Hconv in Ha. congruence.
    + intros [a Ha]. destruct (decide (b = beta)) as [-> | Hnb].
      * rewrite lookup_insert_eq. eauto.
      * rewrite lookup_insert_ne by congruence. apply Hdom.
        destruct (decide (a = alpha)) as [-> | Hna].
        -- rewrite lookup_insert_eq in Ha. congruence.
        -- rewrite lookup_insert_ne in Ha by congruence. exists a. exact Ha.
  - intros a b Hlk. destruct (decide (a = alpha)) as [-> | Hna].
    + rewrite lookup_insert_eq in Hlk. apply Some_eq_inv in Hlk. subst b.
      exists l. split; [apply lookup_insert_eq | apply Hl; left; reflexivity].
    + rewrite lookup_insert_ne in Hlk by congruence.
      destruct (Hmem a b Hlk) as (l0 & Hl0 & Hin0).
      destruct (decide (b = beta)) as [-> | Hnb].
      * exists l. split; [apply lookup_insert_eq | apply Hl; right; eauto].
      * exists l0. split; [rewrite lookup_insert_ne by congruence; exact Hl0 | exact Hin0].
  - intros b l1 Hlk. destruct (decide (b = beta)) as [-> | Hnb].
    + rewrite lookup_insert_eq in Hlk. apply Some_eq_inv in Hlk. subst l1.
      intros ->. assert (Hin : inject_Z alpha ∈ @nil Q) by (apply Hl; left; reflexivity).
      inversion Hin.
    + rewrite lookup_insert_ne in Hlk by congruence. exact (Hne b l1 Hlk).
  - intros b l1 q Hlk Hq. destruct (decide (b = beta)) as [-> | Hnb].
    + rewrite lookup_insert_eq in Hlk. apply Some_eq_inv in Hlk. subst l1.
      apply Hl in Hq as [-> | (l0 & Hl0 & Hq)].
      * exists alpha. split; [reflexivity | apply lookup_insert_eq].
      * destruct (Hold beta l0 q Hl0 Hq) as (a & -> & Ha). exists a.
        split; [reflexivity |].
        destruct (decide (a = alpha)) as [-> | Hna];
          [apply lookup_insert_eq | rewrite lookup_insert_ne by congruence; exact Ha].
    + rewrite lookup_insert_ne in Hlk by congruence.
      destruct (Hold b l1 q Hlk Hq) as (a & -> & Ha). exists a. split; [reflexivity |].
      rewrite lookup_insert_ne; [exact Ha |].
      intros <-. apply Hconv in Ha. congruence.
Qed.

Lemma populate_populated (alphas : list Z) (maps : gmap Z Z * gmap Z (list Q)) :
  populated maps ->
  (forall alpha, alpha ∈ alphas -> exists beta, ang_conv alpha = Ok beta) ->
  exists maps',
    populate alphas maps = Ok maps' /\ populated maps' /\
    (forall alpha, alpha ∈ alphas \/ is_Some (maps.1 !! alpha) ->
                   is_Some (maps'.1 !! alpha)).
Proof.
  revert maps. induction alphas as [|a rest IH]; intros maps Hpop Hconv.
  - exists maps. cbn [populate]. split; [reflexivity |]. split; [exact Hpop |].
    intros alpha [Hin | Hs]; [inversion Hin | exact Hs].
  - destruct (Hconv a ltac:(left)) as [b Hb].
    destruct (add_alpha_populated maps a b Hpop Hb) as (maps1 & Hadd & Hpop1 & Hfst).
    destruct (IH maps1 Hpop1) as (maps' & Hrun & Hpop' & Hkeys).
    { intros alpha Hin. apply Hconv. right. exact Hin. }
    exists maps'. cbn [populate]. rewrite Hadd. cbn [rbind].
    split; [exact Hrun |]. split; [exact Hpop' |].
    intros alpha Hor. apply Hkeys. rewrite Hfst.
    destruct (decide (alpha = a)) as [-> | Hna].
    + right. rewrite lookup_insert_eq. eauto.
    + destruct Hor as [Hin | Hs].
      * apply elem_of_cons in Hin as [-> | Hin]; [congruence | left; exact Hin].
      * right. rewrite lookup_insert_ne by congruence. exact Hs.
Qed.

  (* The first loop over [range(-16, 46)]. *)
Lemma table_populated :
  exists maps,
    populate (seqZ (-16) 62) (∅, ∅) = Ok maps /\ populated maps /\
    (forall alpha, -16 <= alpha <= 45 -> is_Some (maps.1 !! alpha)).
Proof.
  destruct (populate_populated (seqZ (-16) 62) (∅, ∅) populated_empty)
    as (maps & Hrun & Hpop & Hkeys).
  - intros alpha Hin. apply elem_of_seqZ in Hin. apply ang_conv_Ok. lia.
  - exists maps. split; [exact Hrun |]. split; [exact Hpop |].
    intros alpha Ha. apply Hkeys. left. apply elem_of_seqZ. lia.
Qed.

Lemma inject_Z_sub (x y : Z) : (inject_Z (x - y) == inject_Z x - inject_Z y)%Q.
Proof. unfold Z.sub. rewrite inject_Z_plus, inject_Z_opp. reflexivity. Qed.

Lemma inject_Z_nonzero (x : Z) : x <> 0 -> ~ (inject_Z x == 0)%Q.
Proof. intros Hx H. apply Hx. apply (inject_Z_injective x 0). exact H. Qed.

  (* Interpolating from the entry just below, itself interpolated between
     [L] and [H], gives the interpolation between [L] and [H]. *)
Lemma weighted_chain (L H beta : Z) (a b x : Q) :
  L < beta - 1 -> beta < H ->
  (x == weighted (inject_Z (H - (beta - 1)) / inject_Z (H - L))
                 (inject_Z (beta - 1 - L) / inject_Z (H - L)) a b)%Q ->
  (weighted (inject_Z (H - beta) / inject_Z (H - (beta - 1)))
            (inject_Z (beta - (beta - 1)) / inject_Z (H - (beta - 1))) x b
   == weighted (inject_Z (H - beta) / inject_Z (H - L))
               (inject_Z (beta - L) / inject_Z (H - L)) a b)%Q.
Proof.
  intros HL HH Hx. unfold weighted in *. rewrite Hx.
  pose proof (inject_Z_nonzero (H - L) ltac:(lia)) as H1.
  pose proof (inject_Z_nonzero (H - (beta - 1)) ltac:(lia)) as H2.
  replace (beta - (beta - 1)) with 1 by lia.
  replace (H - (beta - 1)) with (H - beta + 1) in * by lia.
  replace (beta - 1 - L) with (beta - L - 1) by lia.
  replace (H - L) with ((H - beta) + (beta - L)) in * by lia.
  rewrite !inject_Z_plus in *. rewrite !inject_Z_sub in *.
  set (p := inject_Z H) in *. set (q := inject_Z beta) in *. set (r := inject_Z L) in *.
  change (inject_Z 1) with 1%Q in *.
  field. split; assumption.
Qed.

Lemma interpolated_chain (L H beta : Z) (lL lH ll : list Q) :
  L < beta - 1 -> beta < H ->
  Forall2 Qeq ll (interpolated L H (beta - 1) lL lH) ->
  Forall2 Qeq
    (zip_with (weighted (inject_Z (H - beta) / inject_Z (H - (beta - 1)))
                        (inject_Z (beta - (beta - 1)) / inject_Z (H - (beta - 1))))
              ll lH)
    (interpolated L H beta lL lH).
Proof.
  intros HL HH. unfold interpolated. revert lH ll.
  induction lL as [|a lL IH]; intros lH ll Hll.
  - cbn in Hll. apply Forall2_nil_inv_r in Hll. subst ll. constructor.
  - destruct lH as [|b lH].
    + cbn in Hll. apply Forall2_nil_inv_r in Hll. subst ll. constructor.
    + cbn [zip_with] in Hll. apply Forall2_cons_inv_r in Hll as (x & ll' & Hx & Hll' & ->).
      cbn [zip_with]. constructor.
      * apply weighted_chain; assumption.
      * apply IH. exact Hll'.
Qed.

Lemma Forall2_Qeq_refl (l : list Q) : Forall2 Qeq l l.
Proof. induction l; constructor; [reflexivity | assumption]. Qed.

Lemma zip_with_nonempty {A B C : Type} (f : A -> B -> C) (l : list A) (k : list B) :
  l <> [] -> k <> [] -> zip_with f l k <> [].
Proof. destruct l, k; intros Hl Hk; try congruence. discriminate. Qed.

Lemma py_truediv_ok (a b : Z) :
  b <> 0 -> py_truediv a b = Ok (inject_Z a / inject_Z b)%Q.
Proof.
  intros Hb. unfold py_truediv. destruct (Z.eqb_spec b 0); [contradiction | reflexivity].
Qed.

Section Interpolation.

  (* The backward table after the first loop, with its least and greatest
     keys. *)
Variable m0 : gmap Z (list Q).
Variables lo hi : Z.
Hypothesis lo_key : is_Some (m0 !! lo).
Hypothesis hi_key : is_Some (m0 !! hi).
Hypothesis key_range : forall k, is_Some (m0 !! k) -> lo <= k <= hi.
Hypothesis m0_nonempty : forall k l, m0 !! k = Some l -> l <> [].

Lemma filled_start : filled m0 lo lo m0.
Proof.
  unfold filled, real. repeat split.
  - auto.
  - intros Hs. left. exact Hs.
  - intros [Hs | Hk]; [exact Hs | lia].
  - exact m0_nonempty.
  - intros k Hk. lia.
Qed.

Lemma fill_beta_present (beta : Z) (m : gmap Z (list Q)) :
  lo <= beta -> filled m0 lo beta m -> is_Some (m !! beta) ->
  fill_beta m beta = Ok m /\ filled m0 lo (beta + 1) m.
Proof.
  intros Hlo (Hkeep & Hkeys & Hne & Hint) [l Hl].
  split; [unfold fill_beta; rewrite Hl; reflexivity |].
  assert (Hreal : real m0 beta).
  { destruct (proj1 (Hkeys beta) ltac:(eauto)) as [Hr | Hr]; [exact Hr | lia]. }
  unfold filled. repeat split.
  - exact Hkeep.
  - intros Hs. apply Hkeys in Hs as [Hr | Hr]; [left; exact Hr | right; lia].
  - intros [Hr | Hr]; apply Hkeys; [left; exact Hr |].
    destruct (decide (k = beta)) as [-> | Hnk]; [left; exact Hreal | right; lia].
  - exact Hne.
  - intros k Hk Hnone. apply Hint; [| exact Hnone].
    destruct (decide (k = beta)) as [-> | Hnk]; [| lia].
    destruct Hreal as [l' Hl']. congruence.
Qed.

Lemma fill_beta_absent (beta : Z) (m : gmap Z (list Q)) :
  lo <= beta <= hi -> filled m0 lo beta m -> m !! beta = None ->
  exists m', fill_beta m beta = Ok m' /\ filled m0 lo (beta + 1) m'.
Proof.
  intros [Hlo Hhi] (Hkeep & Hkeys & Hne & Hint) Hnone.
  assert (Hnreal : m0 !! beta = None).
  { destruct (m0 !! beta) as [l|] eqn:Hl; [| reflexivity].
    rewrite (Hkeep _ _ Hl) in Hnone. discriminate. }
  assert (Hlt_lo : lo < beta).
  { destruct (decide (beta = lo)) as [-> | Hn]; [| lia].
    destruct lo_key as [l Hl]. congruence. }
  assert (Hlt_hi : beta < hi).
  { destruct (decide (beta = hi)) as [-> | Hn]; [| lia].
    destruct hi_key as [l Hl]. congruence. }
  (* lower_beta is the key just below *)
  destruct (proj2 (Hkeys (beta - 1)) ltac:(right; lia)) as [ll Hll].
  assert (Hlower : py_max (filter (fun k => k < beta) (keys m)) = Ok (beta - 1)).
  { apply py_max_greatest.
    - apply list_elem_of_filter. split; [lia | apply elem_of_keys; eauto].
    - intros y Hy. apply list_elem_of_filter in Hy as [Hy _]. lia. }
  (* higher_beta is the nearest key with a direct alpha above *)
  destruct (py_min_total (filter (fun k => beta < k) (keys m))) as (H & Hhigher & HinH & HleastH).
  { intros Hempty.
    assert (Hin : hi ∈ filter (fun k => beta < k) (keys m)).
    { apply list_elem_of_filter. split; [lia |]. apply elem_of_keys, Hkeys. left. exact hi_key. }
    rewrite Hempty in Hin. inversion Hin. }
  apply list_elem_of_filter in HinH as [HbH HkeyH]. apply elem_of_keys in HkeyH.
  assert (HrealH : real m0 H).
  { apply Hkeys in HkeyH as [Hr | Hr]; [exact Hr | lia]. }
  assert (HnearH : nearest_higher (real m0) beta H).
  { split; [exact HrealH |]. split; [exact HbH |]. intros k Hk Hrk.
    assert (H <= k); [| lia]. apply HleastH, list_elem_of_filter.
    split; [lia |]. apply elem_of_keys, Hkeys. left. exact Hrk. }
  destruct HrealH as [lH HlH]. pose proof (Hkeep _ _ HlH) as HmH.
  unfold fill_beta. rewrite Hnone, Hlower, Hhigher. cbn [rbind].
  rewrite !py_truediv_ok by lia. cbn [rbind].
  unfold getitem. rewrite Hll, HmH. cbn [rbind].
  eexists. split; [reflexivity |].
  unfold filled. repeat split.
  - intros k l Hl. rewrite lookup_insert_ne; [apply Hkeep, Hl | congruence].
  - intros Hs. destruct (decide (k = beta)) as [-> | Hnk]; [right; lia |].
    rewrite lookup_insert_ne in Hs by congruence.
    apply Hkeys in Hs as [Hr | Hr]; [left; exact Hr | right; lia].
  - intros Hor. destruct (decide (k = beta)) as [-> | Hnk].
    + rewrite lookup_insert_eq. eauto.
    + rewrite lookup_insert_ne by congruence. apply Hkeys.
      destruct Hor as [Hr | Hr]; [left; exact Hr | right; lia].
  - intros k l Hl. destruct (decide (k = beta)) as [-> | Hnk].
    + rewrite lookup_insert_eq in Hl. apply Some_eq_inv in Hl. subst l.
      apply zip_with_nonempty; [exact (Hne _ _ Hll) | exact (m0_nonempty _ _ HlH)].
    + rewrite lookup_insert_ne in Hl by congruence. exact (Hne _ _ Hl).
  - intros k Hk Hknone. destruct (decide (k = beta)) as [-> | Hnk].
    + rewrite lookup_insert_eq.
      destruct (m0 !! (beta - 1)) as [lL|] eqn:HlL.
      * (* the key just below has a direct alpha *)
        exists (beta - 1), H, lL, lH. eexists.
        split. { split; [unfold real; rewrite HlL; eauto |]. split; [lia |]. intros; lia. }
        split; [exact HnearH |]. split; [exact HlL |]. split; [exact HlH |].
        split; [reflexivity |].
        rewrite (Hkeep _ _ HlL) in Hll. apply Some_eq_inv in Hll. subst ll.
        apply Forall2_Qeq_refl.
      * (* the key just below was filled by this loop *)
        destruct (Hint (beta - 1) ltac:(lia) HlL)
          as (L & H' & lL & lH' & l' & HnL & HnH' & HL & HH' & Hl' & Hl'eq).
        rewrite Hll in Hl'. apply Some_eq_inv in Hl'. subst l'.
        destruct HnL as (HrL & HLlt & HLgap). destruct HnH' as (HrH' & HH'gt & HH'gap).
        assert (HH'b : beta < H').
        { destruct (decide (H' = beta)) as [-> | Hn]; [| lia].
          destruct HrH' as [x Hx]. congruence. }
        assert (H' = H).
        { apply Z.le_antisymm.
          - destruct (Z.le_gt_cases H' H) as [Hle | Hgt]; [exact Hle |].
            exfalso. apply (HH'gap H); [lia | unfold real; rewrite HlH; eauto].
          - apply HleastH, list_elem_of_filter. split; [lia |].
            apply elem_of_keys, Hkeys. left. exact HrH'. }
        subst H'. rewrite HlH in HH'. apply Some_eq_inv in HH'. subst lH'.
        exists L, H, lL, lH. eexists.
        split.
        { split; [exact HrL |]. split; [lia |]. intros k Hk' Hrk.
          destruct (decide (k = beta - 1)) as [-> | Hn].
          - destruct Hrk as [x Hx]. congruence.
          - apply (HLgap k); [lia | exact Hrk]. }
        split; [exact HnearH |]. split; [exact HL |]. split; [exact HlH |].
        split; [reflexivity |].
        apply interpolated_chain; [lia | lia | exact Hl'eq].
    + rewrite lookup_insert_ne by congruence. apply Hint; [lia | exact Hknone].
Qed.

Lemma fill_beta_filled (beta : Z) (m : gmap Z (list Q)) :
  lo <= beta <= hi -> filled m0 lo beta m ->
  exists m', fill_beta m beta = Ok m' /\ filled m0 lo (beta + 1) m'.
Proof.
  intros Hb Hf. destruct (m !! beta) as [l|] eqn:Hl.
  - exists m. apply fill_beta_present; [lia | exact Hf | eauto].
  - apply fill_beta_absent; assumption.
Qed.

Lemma interpolate_filled (n : nat) (beta : Z) (m : gmap Z (list Q)) :
  lo <= beta -> beta + Z.of_nat n <= hi + 1 -> filled m0 lo beta m ->
  exists m', interpolate (seqZ beta (Z.of_nat n)) m = Ok m' /\
             filled m0 lo (beta + Z.of_nat n) m'.
Proof.
  revert beta m. induction n as [|n IH]; intros beta m Hlo Hhi Hf.
  - exists m. rewrite seqZ_nil by lia. cbn [interpolate].
    split; [reflexivity |]. replace (beta + Z.of_nat 0) with beta by lia. exact Hf.
  - rewrite seqZ_cons by lia. cbn [interpolate].
    destruct (fill_beta_filled beta m ltac:(lia) Hf) as (m1 & Hstep & Hf1).
    rewrite Hstep. cbn [rbind].
    replace (Z.pred (Z.of_nat (S n))) with (Z.of_nat n) by lia.
    replace (Z.succ beta) with (beta + 1) by lia.
    destruct (IH (beta + 1) m1 ltac:(lia) ltac:(lia) Hf1) as (m' & Hrun & Hf').
    exists m'. split; [exact Hrun |].
    replace (beta + Z.of_nat (S n)) with (beta + 1 + Z.of_nat n) by lia. exact Hf'.
Qed.

End Interpolation.

Lemma nearest_lower_iff (P R : Z -> Prop) (beta L : Z) :
  (forall k, P k <-> R k) -> nearest_lower P beta L -> nearest_lower R beta L.
Proof.
  intros HPR (HL & Hlt & Hgap). split; [apply HPR, HL |]. split; [exact Hlt |].
  intros k Hk HRk. apply (Hgap k Hk), HPR, HRk.
Qed.

Lemma nearest_higher_iff (P R : Z -> Prop) (beta H : Z) :
  (forall k, P k <-> R k) -> nearest_higher P beta H -> nearest_higher R beta H.
Proof.
  intros HPR (HH & Hlt & Hgap). split; [apply HPR, HH |]. split; [exact Hlt |].
  intros k Hk HRk. apply (Hgap k Hk), HPR, HRk.
Qed.

  (* [alpha_beta_maps] runs to its end: the first loop leaves [(a2b, m0)],
     [lo] and [hi] are the least and greatest keys of [m0], and the second
     loop turns [m0] into [b2a], filling [lo .. hi]. *)
Lemma alpha_beta_maps_run :
  exists a2b m0 lo hi b2a,
    interpolate (seqZ lo (hi + 1 - lo)) m0 = Ok b2a /\
    alpha_beta_maps = Ok (a2b, b2a) /\
    populated (a2b, m0) /\
    (forall alpha, -16 <= alpha <= 45 -> is_Some (a2b !! alpha)) /\
    is_Some (m0 !! lo) /\ is_Some (m0 !! hi) /\
    (forall k, is_Some (m0 !! k) -> lo <= k <= hi) /\
    filled m0 lo (hi + 1) b2a.
Proof.
  destruct table_populated as ([a2b m0] & Hrun & Hpop & Hkeys).
  pose proof Hpop as (_ & _ & Hmem & Hne & _). cbn [fst snd] in *.
  assert (Hnonempty : keys m0 <> []).
  { destruct (Hkeys 0 ltac:(lia)) as [b Hb].
    destruct (Hmem 0 b Hb) as (l & Hl & _).
    intros Hempty. assert (Hin : b ∈ keys m0) by (apply elem_of_keys; eauto).
    rewrite Hempty in Hin. inversion Hin. }
  destruct (py_min_total (keys m0) Hnonempty) as (lo & Hmin & Hlo_in & Hlo_least).
  destruct (py_max_total (keys m0) Hnonempty) as (hi & Hmax & Hhi_in & Hhi_greatest).
  apply elem_of_keys in Hlo_in, Hhi_in.
  assert (Hrange : forall k, is_Some (m0 !! k) -> lo <= k <= hi).
  { intros k Hk. apply elem_of_keys in Hk. split; [apply Hlo_least | apply Hhi_greatest]; exact Hk. }
  pose proof (Hrange lo Hlo_in) as Hlohi.
  destruct (interpolate_filled m0 lo hi Hlo_in Hhi_in Hne
              (Z.to_nat (hi + 1 - lo)) lo m0)
    as (b2a & Hint & Hfilled).
  - lia.
  - lia.
  - apply filled_start; assumption.
  - exists a2b, m0, lo, hi, b2a.
    replace (hi + 1 - lo) with (Z.of_nat (Z.to_nat (hi + 1 - lo))) by lia.
    split; [exact Hint |].
    split.
    { unfold alpha_beta_maps. rewrite Hrun. cbn [rbind fst snd].
      rewrite Hmin, Hmax. cbn [rbind].
      replace (hi + 1 - lo) with (Z.of_nat (Z.to_nat (hi + 1 - lo))) by lia.
      rewrite Hint. reflexivity. }
    split; [exact Hpop |]. split; [exact Hkeys |].
    split; [exact Hlo_in |]. split; [exact Hhi_in |]. split; [exact Hrange |].
    replace (hi + 1) with (lo + Z.of_nat (Z.to_nat (hi + 1 - lo))) by lia.
    exact Hfilled.
Qed.

Lemma alpha_beta_maps_built :
  exists a2b m0 lo hi b2a,
    alpha_beta_maps = Ok (a2b, b2a) /\
    populated (a2b, m0) /\
    (forall alpha, -16 <= alpha <= 45 -> is_Some (a2b !! alpha)) /\
    is_Some (m0 !! lo) /\ is_Some (m0 !! hi) /\
    (forall k, is_Some (m0 !! k) -> lo <= k <= hi) /\
    filled m0 lo (hi + 1) b2a.
Proof.
  destruct alpha_beta_maps_run as (a2b & m0 & lo & hi & b2a & _ & Hrest).
  exists a2b, m0, lo, hi, b2a. exact Hrest.
Qed.

(** C1. [alpha_beta_maps()] returns its two tables, and for every integer
    alpha in [-16, 45] the forward table is defined at alpha and the list the
    backward table holds for that beta contains alpha. *)
Theorem alpha_round_trip :
  exists a2b b2a,
    alpha_beta_maps = Ok (a2b, b2a) /\
    forall alpha, -16 <= alpha <= 45 ->
      exists beta l,
        a2b !! alpha = Some beta /\ b2a !! beta = Some l /\ inject_Z alpha ∈ l.
Proof.
  destruct alpha_beta_maps_built
    as (a2b & m0 & lo & hi & b2a & Hrun & Hpop & Hkeys & _ & _ & _ & Hfilled).
  exists a2b, b2a. split; [exact Hrun |]. intros alpha Ha.
  destruct (Hkeys alpha Ha) as [beta Hbeta].
  destruct Hpop as (_ & _ & Hmem & _). cbn [fst snd] in Hmem.
  destruct (Hmem alpha beta Hbeta) as (l & Hl & Hin).
  destruct Hfilled as (Hkeep & _).
  exists beta, l. split; [exact Hbeta |]. split; [apply Hkeep, Hl | exact Hin].
Qed.

  (* In exact arithmetic the chain of the second loop collapses: with the
     entries as rationals, a beta no alpha maps to holds the linear weighted
     average, index for index, of the lists of the nearest lower and nearest
     higher betas that alphas do map to. *)
Lemma beta_table_linear_exact :
  exists a2b b2a lo hi,
    alpha_beta_maps = Ok (a2b, b2a) /\
    observed a2b lo /\ observed a2b hi /\
    (forall beta, observed a2b beta -> lo <= beta <= hi) /\
    forall beta, lo <= beta <= hi ->
      (exists l, b2a !! beta = Some l /\ l <> []) /\
      (~ observed a2b beta ->
       exists L H lL lH l,
         nearest_lower (observed a2b) beta L /\
         nearest_higher (observed a2b) beta H /\
         b2a !! L = Some lL /\ b2a !! H = Some lH /\
         (forall q, q ∈ lL -> exists alpha, q = inject_Z alpha /\ a2b !! alpha = Some L) /\
         (forall q, q ∈ lH -> exists alpha, q = inject_Z alpha /\ a2b !! alpha = Some H) /\
         b2a !! beta = Some l /\
         Forall2 Qeq l (interpolated L H beta lL lH)).
Proof.
  destruct alpha_beta_maps_built
    as (a2b & m0 & lo & hi & b2a & Hrun & Hpop & Hkeys & Hlo & Hhi & Hrange & Hfilled).
  destruct Hpop as (_ & Hdom & _ & _ & Hold). cbn [fst snd] in *.
  destruct Hfilled as (Hkeep & Hfkeys & Hne & Hint).
  exists a2b, b2a, lo, hi. split; [exact Hrun |].
  split; [apply Hdom, Hlo |]. split; [apply Hdom, Hhi |].
  split; [intros beta Hb; apply Hrange, Hdom, Hb |].
  intros beta Hb. split.
  - destruct (proj2 (Hfkeys beta) ltac:(right; lia)) as [l Hl].
    exists l. split; [exact Hl | exact (Hne _ _ Hl)].
  - intros Hnobs.
    assert (Hnone : m0 !! beta = None).
    { destruct (m0 !! beta) as [l|] eqn:Hl; [| reflexivity].
      exfalso. apply Hnobs, Hdom. eauto. }
    destruct (Hint beta ltac:(lia) Hnone)
      as (L & H & lL & lH & l & HnL & HnH & HL & HH & Hl & Heq).
    exists L, H, lL, lH, l.
    split; [exact (nearest_lower_iff _ _ _ _ Hdom HnL) |].
    split; [exact (nearest_higher_iff _ _ _ _ Hdom HnH) |].
    split; [apply Hkeep, HL |]. split; [apply Hkeep, HH |].
    split; [intros q Hq; exact (Hold L lL q HL Hq) |].
    split; [intros q Hq; exact (Hold H lH q HH Hq) |].
    split; [exact Hl | exact Heq].
Qed.

End TableFacts.

(** ** The second loop in any arithmetic *)

Section ChainFacts.
Import PyMath AnglesMap.

Variable num : Type.
Variable div : Z -> Z -> num.
Variables mul add : num -> num -> num.

  (* The backward table after the first loop, with its least and greatest
     keys. *)
Variable m0 : gmap Z (list num).
Variables lo hi : Z.
Hypothesis lo_key : is_Some (m0 !! lo).
Hypothesis hi_key : is_Some (m0 !! hi).

Lemma truediv_in_ok (a b : Z) : b <> 0 -> truediv_in num div a b = Ok (div a b).
Proof.
  intros Hb. unfold truediv_in. destruct (Z.eqb_spec b 0); [contradiction | reflexivity].
Qed.

Lemma chained_start : chained (average_in div mul add) m0 lo lo m0.
Proof.
  unfold chained. split; [auto |]. split.
  - intros k. split; [intros Hs; left; exact Hs | intros [Hs | Hk]; [exact Hs | lia]].
  - intros k Hk. lia.
Qed.

Lemma fill_beta_in_chained (beta : Z) (m : gmap Z (list num)) :
  lo <= beta <= hi -> chained (average_in div mul add) m0 lo beta m ->
  exists m', fill_beta_in num div mul add m beta = Ok m' /\
             chained (average_in div mul add) m0 lo (beta + 1) m'.
Proof.
  intros [Hlo Hhi] (Hkeep & Hkeys & Hstep).
  destruct (m !! beta) as [l|] eqn:Hl.
  - (* beta is a key of the first loop *)
    exists m. split; [unfold fill_beta_in; rewrite Hl; reflexivity |].
    assert (Hreal : is_Some (m0 !! beta)).
    { destruct (proj1 (Hkeys beta) ltac:(eauto)) as [Hr | Hr]; [exact Hr | lia]. }
    split; [exact Hkeep |]. split.
    + intros k. rewrite Hkeys. split.
      * intros [Hr | Hr]; [left; exact Hr | right; lia].
      * intros [Hr | Hr]; [left; exact Hr |].
        destruct (decide (k = beta)) as [-> | Hnk]; [left; exact Hreal | right; lia].
    + intros k Hk Hnone. apply Hstep; [| exact Hnone].
      destruct (decide (k = beta)) as [-> | Hnk]; [| lia].
      destruct Hreal as [l' Hl']. congruence.
  - (* beta is filled now *)
    assert (Hnreal : m0 !! beta = None).
    { destruct (m0 !! beta) as [l|] eqn:Hl0; [| reflexivity].
      rewrite (Hkeep _ _ Hl0) in Hl. discriminate. }
    assert (Hlt_lo : lo < beta).
    { destruct (decide (beta = lo)) as [-> | Hn]; [| lia].
      destruct lo_key as [l Hl']. congruence. }
    assert (Hlt_hi : beta < hi).
    { destruct (decide (beta = hi)) as [-> | Hn]; [| lia].
      destruct hi_key as [l Hl']. congruence. }
    destruct (proj2 (Hkeys (beta - 1)) ltac:(right; lia)) as [lB HlB].
    assert (Hlower : py_max (filter (fun k => k < beta) (keys m)) = Ok (beta - 1)).
    { apply py_max_greatest.
      - apply list_elem_of_filter. split; [lia | apply elem_of_keys; eauto].
      - intros y Hy. apply list_elem_of_filter in Hy as [Hy _]. lia. }
    destruct (py_min_total (filter (fun k => beta < k) (keys m)))
      as (H & Hhigher & HinH & HleastH).
    { intros Hempty.
      assert (Hin : hi ∈ filter (fun k => beta < k) (keys m)).
      { apply list_elem_of_filter. split; [lia |].
        apply elem_of_keys, Hkeys. left. exact hi_key. }
      rewrite Hempty in Hin. inversion Hin. }
    apply list_elem_of_filter in HinH as [HbH HkeyH]. apply elem_of_keys in HkeyH.
    assert (HrealH : is_Some (m0 !! H)).
    { apply Hkeys in HkeyH as [Hr | Hr]; [exact Hr | lia]. }
    assert (HnearH : nearest_higher (fun j => is_Some (m0 !! j)) beta H).
    { split; [exact HrealH |]. split; [exact HbH |]. intros k Hk Hrk.
      assert (H <= k); [| lia]. apply HleastH, list_elem_of_filter.
      split; [lia |]. apply elem_of_keys, Hkeys. left. exact Hrk. }
    destruct HrealH as [lH HlH]. pose proof (Hkeep _ _ HlH) as HmH.
    unfold fill_beta_in. rewrite Hl, Hlower, Hhigher. cbn [rbind].
    rewrite !truediv_in_ok by lia. cbn [rbind].
    unfold getitem. rewrite HlB, HmH. cbn [rbind].
    eexists. split; [reflexivity |].
    split; [| split].
    + intros k l Hkl. rewrite lookup_insert_ne; [apply Hkeep, Hkl | congruence].
    + intros k. destruct (decide (k = beta)) as [-> | Hnk].
      * rewrite lookup_insert_eq. split; [intros _; right; lia | eauto].
      * rewrite lookup_insert_ne by congruence. rewrite Hkeys. split.
        -- intros [Hr | Hr]; [left; exact Hr | right; lia].
        -- intros [Hr | Hr]; [left; exact Hr | right; lia].
    + intros k Hk Hknone. destruct (decide (k = beta)) as [-> | Hnk].
      * exists H, lB, lH. split; [exact HnearH |].
        rewrite lookup_insert_ne by lia. split; [exact HlB |]. split; [exact HlH |].
        rewrite lookup_insert_eq. reflexivity.
      * destruct (Hstep k ltac:(lia) Hknone) as (H' & lB' & lH' & Hn' & HB' & HH' & Hk').
        exists H', lB', lH'. split; [exact Hn' |].
        rewrite !lookup_insert_ne by lia. split; [exact HB' |]. split; [exact HH' |].
        exact Hk'.
Qed.

Lemma interpolate_in_chained (n : nat) (beta : Z) (m : gmap Z (list num)) :
  lo <= beta -> beta + Z.of_nat n <= hi + 1 ->
  chained (average_in div mul add) m0 lo beta m ->
  exists m', interpolate_in num div mul add (seqZ beta (Z.of_nat n)) m = Ok m' /\
             chained (average_in div mul add) m0 lo (beta + Z.of_nat n) m'.
Proof.
  revert beta m. induction n as [|n IH]; intros beta m Hlo Hhi Hc.
  - exists m. rewrite seqZ_nil by lia. cbn [interpolate_in].
    split; [reflexivity |]. replace (beta + Z.of_nat 0) with beta by lia. exact Hc.
  - rewrite seqZ_cons by lia. cbn [interpolate_in].
    destruct (fill_beta_in_chained beta m ltac:(lia) Hc) as (m1 & Hstep & Hc1).
    rewrite Hstep. cbn [rbind].
    replace (Z.pred (Z.of_nat (S n))) with (Z.of_nat n) by lia.
    replace (Z.succ beta) with (beta + 1) by lia.
    destruct (IH (beta + 1) m1 ltac:(lia) ltac:(lia) Hc1) as (m' & Hrun & Hc').
    exists m'. split; [exact Hrun |].
    replace (beta + Z.of_nat (S n)) with (beta + 1 + Z.of_nat n) by lia. exact Hc'.
Qed.

End ChainFacts.

(** ** The backward table as the second loop fills it *)

Section ChainedTableFacts.
Import PyMath AnglesMap.

  (* The chain in the arithmetic of the code: run with IEEE operations
     between two keys of the first loop, the second loop raises nothing and
     fills every gap with the binary64 value of the weighted average of the
     entry just below it and the nearest higher entry of the first loop. *)
Lemma interpolate_binary64_chained (m0 : gmap Z (list float)) (lo hi : Z) :
  is_Some (m0 !! lo) -> is_Some (m0 !! hi) -> lo <= hi ->
  exists m,
    interpolate_binary64 (seqZ lo (hi + 1 - lo)) m0 = Ok m /\
    chained (average_in float_truediv PrimFloat.mul PrimFloat.add) m0 lo (hi + 1) m.
Proof.
  intros Hlo Hhi Hle.
  destruct (interpolate_in_chained float float_truediv PrimFloat.mul PrimFloat.add
              m0 lo hi Hlo Hhi (Z.to_nat (hi + 1 - lo)) lo m0)
    as (m & Hrun & Hc).
  - lia.
  - lia.
  - apply chained_start.
  - exists m. rewrite Z2Nat.id in Hrun, Hc by lia.
    replace (lo + (hi + 1 - lo)) with (hi + 1) in Hc by lia.
    split; [exact Hrun | exact Hc].
Qed.




End ChainedTableFacts.

(** * Further properties *)

(** ** The median filter *)

Section MedianFacts.
Import DoveObject.

Lemma insert_sorted_perm (q : Q) (l : list Q) : insert_sorted q l ≡ₚ q :: l.
Proof.
  induction l as [|h t IH]; cbn [insert_sorted]; [reflexivity |].
  destruct (Qle_bool q h); [reflexivity |].
  rewrite IH. apply Permutation_swap.
Qed.

Lemma sort_Q_perm (l : list Q) : sort_Q l ≡ₚ l.
Proof.
  unfold sort_Q. induction l as [|h t IH]; cbn [foldr]; [reflexivity |].
  rewrite insert_sorted_perm, IH. reflexivity.
Qed.

Lemma length_sort_Q (l : list Q) : length (sort_Q l) = length l.
Proof. apply Permutation_length, sort_Q_perm. Qed.

Lemma insert_sorted_sorted (q : Q) (l : list Q) :
  StronglySorted Qle l -> StronglySorted Qle (insert_sorted q l).
Proof.
  induction l as [|h t IH]; intros Hs; cbn [insert_sorted].
  - repeat constructor.
  - apply StronglySorted_inv in Hs as [Ht Hh].
    destruct (Qle_bool q h) eqn:Hqh.
    + apply Qle_bool_iff in Hqh. constructor; [constructor; assumption |].
      constructor; [exact Hqh |].
      eapply Forall_impl; [exact Hh |]. intros x Hx. cbn. eapply Qle_trans; eassumption.
    + assert (Hhq : (h <= q)%Q).
      { apply Qlt_le_weak, Qnot_le_lt. intros Hle. apply Qle_bool_iff in Hle. congruence. }
      constructor; [apply IH, Ht |].
      rewrite insert_sorted_perm. constructor; assumption.
Qed.

Lemma sort_Q_sorted (l : list Q) : StronglySorted Qle (sort_Q l).
Proof.
  unfold sort_Q. induction l as [|h t IH]; cbn [foldr]; [constructor |].
  apply insert_sorted_sorted, IH.
Qed.

Lemma filtered_data_elem (arr : list sample) (q : Q) :
  q ∈ filtered_data arr <-> Num q ∈ arr.
Proof.
  induction arr as [|s arr IH]; cbn [filtered_data].
  - split; intros H; inversion H.
  - destruct s as [|r].
    + rewrite IH. rewrite elem_of_cons. split; [auto | intros [H | H]; [discriminate | exact H]].
    + rewrite !elem_of_cons, IH. split.
      * intros [-> | H]; auto.
      * intros [H | H]; [left; congruence | right; exact H].
Qed.

Lemma filtered_data_nil (arr : list sample) :
  filtered_data arr = [] <-> Forall (fun s => s = NaN) arr.
Proof.
  induction arr as [|s arr IH]; cbn [filtered_data].
  - split; [constructor | reflexivity].
  - destruct s as [|r].
    + rewrite IH. split; [intros H; constructor; [reflexivity | exact H] |].
      intros H. apply Forall_cons in H as [_ H]. exact H.
    + split; [discriminate |]. intros H. apply Forall_cons in H as [H _]. discriminate.
Qed.

Lemma s_median_None_nan (arr : list sample) :
  Forall (fun s => s = NaN) arr -> s_median arr = None.
Proof.
  intros Hall. apply filtered_data_nil in Hall. unfold s_median. rewrite Hall. reflexivity.
Qed.

(** X1. [s_median] returns None exactly when every slot of the array is
    NaN. *)
Theorem s_median_None_iff (arr : list sample) :
  s_median arr = None <-> Forall (fun s => s = NaN) arr.
Proof.
  rewrite <- filtered_data_nil. unfold s_median.
  destruct (filtered_data arr) as [|q l]; cbn; split; congruence.
Qed.

  (* An element of the sorted data, by position. *)
Lemma nth_sort_Q_elem (l : list Q) (i : nat) :
  (i < length l)%nat -> nth i (sort_Q l) 0%Q ∈ l.
Proof.
  intros Hi. rewrite <- (sort_Q_perm l) at 2.
  rewrite nth_lookup. rewrite <- length_sort_Q in Hi.
  destruct (lookup_lt_is_Some_2 _ _ Hi) as [x Hx]. rewrite Hx. cbn.
  eapply list_elem_of_lookup_2, Hx.
Qed.

Lemma half_lt (n : nat) : (0 < n)%nat -> (n / 2 < n)%nat.
Proof. intros Hn. apply Nat.div_lt; lia. Qed.

  (* The median is one sample or the mean of two samples. *)
Lemma np_median_cases (l : list Q) :
  l <> [] ->
  (exists a, a ∈ l /\ np_median l = a) \/
  (exists a b, a ∈ l /\ b ∈ l /\ np_median l = ((a + b) / 2)%Q).
Proof.
  intros Hne. assert (Hn : (0 < length l)%nat) by (destruct l; [congruence | cbn; lia]).
  unfold np_median. rewrite length_sort_Q. pose proof (half_lt _ Hn) as Hh.
  destruct (Nat.even (length l)).
  - right. eexists _, _. split; [| split; [| reflexivity]]; apply nth_sort_Q_elem; lia.
  - left. eexists. split; [| reflexivity]. apply nth_sort_Q_elem; lia.
Qed.

  (* When all samples agree, the median is their common value. *)
Lemma np_median_const (l : list Q) (v : Q) :
  l <> [] -> Forall (fun q => (q == v)%Q) l -> (np_median l == v)%Q.
Proof.
  intros Hne Hall. rewrite Forall_forall in Hall.
  destruct (np_median_cases l Hne) as [(a & Ha & ->) | (a & b & Ha & Hb & ->)].
  - apply Hall, Ha.
  - rewrite (Hall a Ha), (Hall b Hb). field.
Qed.

  (* An array whose every slot holds the same number. *)
Lemma s_median_same (arr : list sample) (v : Q) :
  (0 < length arr)%nat -> Forall (fun s => s = Num v) arr ->
  exists m, s_median arr = Some m /\ (m == v)%Q.
Proof.
  intros Hlen Hall. rewrite Forall_forall in Hall. unfold s_median.
  assert (Hin : forall q, q ∈ filtered_data arr -> q = v).
  { intros q Hq. apply filtered_data_elem, Hall in Hq. congruence. }
  assert (Hne : filtered_data arr <> []).
  { destruct arr as [|s arr]; [cbn in Hlen; lia |].
    rewrite (Hall s ltac:(left)). discriminate. }
  destruct (filtered_data arr) as [|q l] eqn:Hd; [congruence |]. cbn [length Nat.eqb].
  eexists. split; [reflexivity |]. apply np_median_const; [discriminate |].
  apply Forall_forall. intros x Hx. rewrite (Hin x Hx). reflexivity.
Qed.

(** X2. When every non-NaN slot of the array holds the same value [v], and
    there is at least one such slot, [s_median] returns [v]; in particular a
    history with exactly one valid slot has that slot's value as median. *)
Theorem s_median_const (arr : list sample) (v : Q) :
  (exists q, Num q ∈ arr) ->
  (forall q, Num q ∈ arr -> (q == v)%Q) ->
  exists m, s_median arr = Some m /\ (m == v)%Q.
Proof.
  intros [q0 Hq0] Hall. unfold s_median.
  assert (Hne : filtered_data arr <> []).
  { intros Hnil. apply filtered_data_elem in Hq0. rewrite Hnil in Hq0. inversion Hq0. }
  destruct (filtered_data arr) as [|q l] eqn:Hd; [congruence |]. cbn [length Nat.eqb].
  eexists. split; [reflexivity |]. apply np_median_const; [discriminate |].
  apply Forall_forall. intros x Hx. apply Hall, filtered_data_elem. rewrite Hd. exact Hx.
Qed.

Lemma s_median_const_witness :
  exists m,
    s_median [NaN; NaN; Num 100; NaN; NaN; NaN; NaN; NaN; NaN; NaN] = Some m /\
    (m == 100)%Q.
Proof.
  apply (s_median_const [NaN; NaN; Num 100; NaN; NaN; NaN; NaN; NaN; NaN; NaN] 100).
  - exists 100%Q. do 2 right. left.
  - intros q Hq. repeat (apply elem_of_cons in Hq as [Hq | Hq]; [try discriminate |]).
    + injection Hq as ->. reflexivity.
    + inversion Hq.
Defined.

Lemma count_filter_perm (f : Q -> bool) (l l' : list Q) :
  l ≡ₚ l' -> length (List.filter f l) = length (List.filter f l').
Proof.
  induction 1 as [|x l l' _ IH|x y l|l l' l'' _ IH1 _ IH2]; cbn [List.filter].
  - reflexivity.
  - destruct (f x); cbn [length]; congruence.
  - destruct (f x), (f y); reflexivity.
  - congruence.
Qed.

Lemma count_filter_none (f : Q -> bool) (l : list Q) :
  (forall x, x ∈ l -> f x = false) -> length (List.filter f l) = 0%nat.
Proof.
  induction l as [|h t IH]; intros Hall; cbn [List.filter]; [reflexivity |].
  rewrite (Hall h ltac:(left)). apply IH. intros x Hx. apply Hall. right. exact Hx.
Qed.

Lemma count_filter_le (f : Q -> bool) (l : list Q) :
  (length (List.filter f l) <= length l)%nat.
Proof.
  induction l as [|h t IH]; cbn [List.filter]; [lia |].
  destruct (f h); cbn [length]; lia.
Qed.

Lemma within_spec (lo hi q : Q) : within lo hi q = true <-> (lo <= q <= hi)%Q.
Proof. unfold within. rewrite andb_true_iff, !Qle_bool_iff. reflexivity. Qed.

Lemma within_false_below (lo hi q : Q) : (q < lo)%Q -> within lo hi q = false.
Proof.
  intros Hq. destruct (within lo hi q) eqn:Hw; [| reflexivity].
  apply within_spec in Hw as [Hw _]. exfalso. exact (Qlt_not_le _ _ Hq Hw).
Qed.

Lemma within_false_above (lo hi q : Q) : (hi < q)%Q -> within lo hi q = false.
Proof.
  intros Hq. destruct (within lo hi q) eqn:Hw; [| reflexivity].
  apply within_spec in Hw as [_ Hw]. exfalso. exact (Qlt_not_le _ _ Hq Hw).
Qed.

  (* In sorted data, a sample below the band has only samples below the band
     before it, and a sample above the band only such samples after it. *)
Lemma sorted_count_below (s : list Q) (p : nat) (x lo hi : Q) :
  StronglySorted Qle s -> s !! p = Some x -> (x < lo)%Q ->
  (length (List.filter (within lo hi) s) + p + 1 <= length s)%nat.
Proof.
  intros Hs Hp Hx. pose proof (take_drop_middle s p x Hp) as Hsplit.
  rewrite <- Hsplit in Hs |- *.
  rewrite List.filter_app, !length_app. cbn [List.filter length].
  rewrite (within_false_below lo hi x Hx).
  rewrite (count_filter_none (within lo hi) (take p s)).
  - pose proof (count_filter_le (within lo hi) (drop (S p) s)).
    rewrite length_take. apply lookup_lt_Some in Hp. lia.
  - intros y Hy. apply within_false_below. eapply Qle_lt_trans; [| exact Hx].
    eapply (StronglySorted_app_1_elem_of Qle); [exact Hs | exact Hy | left].
Qed.

Lemma sorted_count_above (s : list Q) (p : nat) (x lo hi : Q) :
  StronglySorted Qle s -> s !! p = Some x -> (hi < x)%Q ->
  (length (List.filter (within lo hi) s) <= p)%nat.
Proof.
  intros Hs Hp Hx. pose proof (take_drop_middle s p x Hp) as Hsplit.
  rewrite <- Hsplit in Hs |- *.
  rewrite List.filter_app, length_app.
  rewrite (count_filter_none (within lo hi) (x :: drop (S p) s)).
  - pose proof (count_filter_le (within lo hi) (take p s)).
    rewrite length_take in H. lia.
  - intros y Hy. apply within_false_above.
    apply elem_of_cons in Hy as [-> | Hy]; [exact Hx |].
    eapply Qlt_le_trans; [exact Hx |].
    apply StronglySorted_app_1_r in Hs. apply StronglySorted_inv in Hs as [_ Hall].
    rewrite Forall_forall in Hall. apply Hall, Hy.
Qed.

  (* A middle position of sorted data holds a sample of the band when the
     band holds more than half of the data. *)
Lemma middle_within (l : list Q) (lo hi : Q) (p : nat) :
  (length l < 2 * length (List.filter (within lo hi) l))%nat ->
  (length l <= 2 * p + 2)%nat -> (2 * p <= length l)%nat -> (p < length l)%nat ->
  (lo <= nth p (sort_Q l) 0 <= hi)%Q.
Proof.
  intros Hmaj Hp1 Hp2 Hp3.
  rewrite (count_filter_perm _ _ _ (symmetry (sort_Q_perm l))) in Hmaj.
  rewrite <- length_sort_Q in Hmaj, Hp1, Hp2, Hp3.
  pose proof (sort_Q_sorted l) as Hs. set (s := sort_Q l) in *.
  rewrite nth_lookup. destruct (lookup_lt_is_Some_2 _ _ Hp3) as [x Hx]. rewrite Hx. cbn.
  split.
  - apply Qnot_lt_le. intros Hlt.
    pose proof (sorted_count_below s p x lo hi Hs Hx Hlt). lia.
  - apply Qnot_lt_le. intros Hlt.
    pose proof (sorted_count_above s p x lo hi Hs Hx Hlt). lia.
Qed.

(** X3. Outlier rejection: when more than half of the non-NaN samples of
    the array lie in a band [lo, hi], the median that [s_median] returns
    lies in that band, whatever the other samples are. *)
Theorem s_median_majority (arr : list sample) (lo hi : Q) :
  (length (filtered_data arr)
   < 2 * length (List.filter (within lo hi) (filtered_data arr)))%nat ->
  exists m, s_median arr = Some m /\ (lo <= m <= hi)%Q.
Proof.
  intros Hmaj. unfold s_median. set (l := filtered_data arr) in *.
  pose proof (count_filter_le (within lo hi) l) as Hle.
  destruct (Nat.eqb_spec (length l) 0) as [H0 | Hn0]; [lia |].
  eexists. split; [reflexivity |].
  unfold np_median. rewrite length_sort_Q.
  destruct (Nat.even (length l)) eqn:Hev.
  - apply Nat.even_spec in Hev as [k Hk].
    assert (Hhalf : (length l / 2 = k)%nat).
    { rewrite Hk. rewrite Nat.mul_comm. apply Nat.div_mul. discriminate. }
    rewrite Hhalf.
    pose proof (middle_within l lo hi (k - 1) Hmaj ltac:(lia) ltac:(lia) ltac:(lia)) as [Ha1 Ha2].
    pose proof (middle_within l lo hi k Hmaj ltac:(lia) ltac:(lia) ltac:(lia)) as [Hb1 Hb2].
    set (a := nth (k - 1) (sort_Q l) 0%Q) in *. set (b := nth k (sort_Q l) 0%Q) in *.
    split.
    + apply Qle_shift_div_l; [reflexivity |].
      assert (H2 : (lo * 2 == lo + lo)%Q) by ring. rewrite H2.
      apply Qplus_le_compat; assumption.
    + apply Qle_shift_div_r; [reflexivity |].
      assert (H2 : (hi * 2 == hi + hi)%Q) by ring. rewrite H2.
      apply Qplus_le_compat; assumption.
  - assert (Hodd : Nat.odd (length l) = true) by (rewrite <- Nat.negb_even, Hev; reflexivity).
    apply Nat.odd_spec in Hodd as [k Hk].
    assert (Hhalf : (length l / 2 = k)%nat).
    { rewrite Hk. symmetry. apply (Nat.div_unique _ 2 k 1); lia. }
    rewrite Hhalf. apply middle_within; [exact Hmaj | lia | lia | lia].
Qed.

Lemma s_median_majority_witness :
  exists m,
    s_median [Num 100; Num 101; NaN; Num 99; Num 640; Num 100; NaN; Num 0; Num 100; Num 102]
    = Some m /\ (99 <= m <= 102)%Q.
Proof.
  apply (s_median_majority
           [Num 100; Num 101; NaN; Num 99; Num 640; Num 100; NaN; Num 0; Num 100; Num 102]
           99 102).
  vm_compute. lia.
Defined.

End MedianFacts.

(** ** The circular histories *)

Ltac mod_lia := zify; Z.to_euclidean_division_equations; lia.

Section WindowFacts.
Import DoveObject.

Lemma run_updates_app (us vs : list update) (d : Dove) :
  run_updates d (us ++ vs) = (d' <-r run_updates d us ; run_updates d' vs).
Proof.
  revert d. induction us as [|u us IH]; intros d; cbn [app run_updates rbind].
  - reflexivity.
  - destruct (apply_update d u) as [d1|e]; cbn [rbind]; [apply IH | reflexivity].
Qed.

  (* One update, field by field. *)
Lemma apply_update_fields (d : Dove) (u : update) :
  wf d ->
  exists d',
    apply_update d u = Ok d' /\ wf d' /\
    is_valid d' = u_valid u /\
    x_center d' = (if u_valid u then u_x u else x_center d) /\
    y_center d' = <[index d := written_y u]> (y_center d) /\
    height d' = <[index d := written_h u]> (height d) /\
    index d' = ((index d + 1) mod Config.FRAME_TO_PITCH)%nat.
Proof.
  intros Hwf. unfold apply_update.
  pose proof (update_dove_ok d (u_valid u) (u_x u) (u_y u) (u_h u) Hwf) as Hok.
  eexists. split; [exact Hok |].
  split; [eapply update_dove_wf; [exact Hwf | exact Hok] |].
  cbn [is_valid x_center y_center height index]. unfold written_y, written_h.
  repeat split; reflexivity.
Qed.

  (* Up to FRAME_TO_PITCH updates write consecutive slots, starting at the
     write index and wrapping around, and touch no other slot. *)
Lemma run_updates_slots (us : list update) (d : Dove) :
  wf d -> (length us <= Config.FRAME_TO_PITCH)%nat ->
  exists d',
    run_updates d us = Ok d' /\ wf d' /\
    index d' = ((index d + length us) mod Config.FRAME_TO_PITCH)%nat /\
    (forall j u, us !! j = Some u ->
       y_center d' !! ((index d + j) mod Config.FRAME_TO_PITCH)%nat = Some (written_y u) /\
       height d' !! ((index d + j) mod Config.FRAME_TO_PITCH)%nat = Some (written_h u)) /\
    (forall i,
       (forall j, (j < length us)%nat -> i <> ((index d + j) mod Config.FRAME_TO_PITCH)%nat) ->
       y_center d' !! i = y_center d !! i /\ height d' !! i = height d !! i).
Proof.
  revert d. induction us as [|u us IH]; intros d Hwf Hlen.
  - exists d. cbn [run_updates length]. split; [reflexivity |]. split; [exact Hwf |].
    destruct Hwf as (_ & _ & Hi). unfold Config.FRAME_TO_PITCH in *.
    split; [mod_lia |]. split; [intros j u Hu; discriminate | auto].
  - cbn [length] in Hlen.
    destruct (apply_update_fields d u Hwf) as (d1 & Hupd & Hwf1 & _ & _ & Hy1 & Hh1 & Hi1).
    destruct (IH d1 Hwf1 ltac:(lia)) as (d' & Hrun & Hwf' & Hi' & Hslots & Hrest).
    exists d'. cbn [run_updates]. rewrite Hupd. cbn [rbind].
    split; [exact Hrun |]. split; [exact Hwf' |].
    pose proof Hwf as (Hly & Hlh & Hi). rewrite Hi1 in *.
    unfold Config.FRAME_TO_PITCH in *. cbn [length].
    split; [rewrite Hi'; mod_lia |]. split.
    + intros [|j] w Hw; cbn in Hw.
      * apply Some_eq_inv in Hw. subst w.
        replace ((index d + 0) mod 10)%nat with (index d) by mod_lia.
        destruct (Hrest (index d)) as [Hy Hh].
        { intros j Hj. mod_lia. }
        rewrite Hy, Hh, Hy1, Hh1.
        split; apply list_lookup_insert_eq; lia.
      * replace ((index d + S j) mod 10)%nat with (((index d + 1) mod 10 + j) mod 10)%nat
          by mod_lia.
        apply Hslots, Hw.
    + intros i Hi_other.
      destruct (Hrest i) as [Hy Hh].
      { intros j Hj. specialize (Hi_other (S j) ltac:(lia)). mod_lia. }
      rewrite Hy, Hh, Hy1, Hh1.
      specialize (Hi_other 0%nat ltac:(lia)).
      assert (index d <> i) by mod_lia.
      split; apply list_lookup_insert_ne; assumption.
Qed.

  (* The scalar fields after any run of updates. *)
Lemma run_updates_scalars (us : list update) (d : Dove) :
  wf d ->
  exists d',
    run_updates d us = Ok d' /\ wf d' /\
    x_center d' = last_valid_x (x_center d) us /\
    is_valid d' = last_flag (is_valid d) us.
Proof.
  revert d. induction us as [|u us IH]; intros d Hwf.
  - exists d. repeat split; try reflexivity; apply Hwf.
  - destruct (apply_update_fields d u Hwf) as (d1 & Hupd & Hwf1 & Hv1 & Hx1 & _).
    destruct (IH d1 Hwf1) as (d' & Hrun & Hwf' & Hx' & Hv').
    exists d'. cbn [run_updates]. rewrite Hupd. cbn [rbind].
    split; [exact Hrun |]. split; [exact Hwf' |].
    unfold last_valid_x, last_flag in *. cbn [foldl]. rewrite Hx', Hv', Hx1, Hv1.
    split; reflexivity.
Qed.

(** X4. From the state that the assignments of [Dove.__init__] build
    (lines 53-67, before the debug print that ends the constructor), any
    sequence of [update_dove] calls runs without raising: both histories
    keep FRAME_TO_PITCH slots and the write index stays inside the window.
    The [x_center] is then the x of the most recent valid frame (the x given
    to the constructor when there was none), and [is_dove()] is the flag of
    the last call. *)
Theorem tracker_state_after_updates (v0 : bool) (x0 : Z) (us : list update) :
  exists d,
    run_updates (init v0 x0) us = Ok d /\
    length (y_center d) = Config.FRAME_TO_PITCH /\
    length (height d) = Config.FRAME_TO_PITCH /\
    (index d < Config.FRAME_TO_PITCH)%nat /\
    fst (get_center d) = last_valid_x x0 us /\
    is_dove d = last_flag v0 us.
Proof.
  destruct (run_updates_scalars us (init v0 x0) (wf_init v0 x0))
    as (d & Hrun & (Hy & Hh & Hi) & Hx & Hv).
  exists d. split; [exact Hrun |]. repeat split; assumption.
Qed.

(** X5. The histories are a sliding window of the last FRAME_TO_PITCH
    frames: after exactly FRAME_TO_PITCH updates of a well-formed tracker the
    write index is back where it was, and slot [(index + j) mod
    FRAME_TO_PITCH] of each history holds what the j-th of those updates
    wrote (its sample when valid, NaN when not), so nothing older is left. *)
Theorem history_is_last_window (us : list update) (d : Dove) :
  wf d -> length us = Config.FRAME_TO_PITCH ->
  exists d',
    run_updates d us = Ok d' /\
    index d' = index d /\
    forall j u, us !! j = Some u ->
      y_center d' !! ((index d + j) mod Config.FRAME_TO_PITCH)%nat = Some (written_y u) /\
      height d' !! ((index d + j) mod Config.FRAME_TO_PITCH)%nat = Some (written_h u).
Proof.
  intros Hwf Hlen.
  destruct (run_updates_slots us d Hwf ltac:(lia)) as (d' & Hrun & _ & Hi' & Hslots & _).
  exists d'. split; [exact Hrun |]. split; [| exact Hslots].
  rewrite Hi', Hlen. destruct Hwf as (_ & _ & Hi).
  unfold Config.FRAME_TO_PITCH in *. mod_lia.
Qed.

  (* After FRAME_TO_PITCH updates every slot holds what one of them wrote. *)
Lemma full_window_slots (us : list update) (d : Dove) :
  wf d -> length us = Config.FRAME_TO_PITCH ->
  exists d',
    run_updates d us = Ok d' /\ wf d' /\
    (forall i s, y_center d' !! i = Some s -> exists u, u ∈ us /\ s = written_y u) /\
    (forall i s, height d' !! i = Some s -> exists u, u ∈ us /\ s = written_h u).
Proof.
  intros Hwf Hlen.
  destruct (run_updates_slots us d Hwf ltac:(lia)) as (d' & Hrun & Hwf' & _ & Hslots & _).
  exists d'. split; [exact Hrun |]. split; [exact Hwf' |].
  destruct Hwf as (_ & _ & Hi). destruct Hwf' as (Hly & Hlh & _).
  assert (Hslot : forall i, (i < Config.FRAME_TO_PITCH)%nat ->
            exists j u, us !! j = Some u /\
                        i = ((index d + j) mod Config.FRAME_TO_PITCH)%nat).
  { intros i Hilt.
    set (j := ((i + Config.FRAME_TO_PITCH - index d) mod Config.FRAME_TO_PITCH)%nat).
    assert (Hj : (j < length us)%nat)
      by (rewrite Hlen; apply Nat.mod_upper_bound; discriminate).
    destruct (lookup_lt_is_Some_2 _ _ Hj) as [u Hu]. exists j, u. split; [exact Hu |].
    subst j. unfold Config.FRAME_TO_PITCH in *. mod_lia. }
  split.
  - intros i s Hs. pose proof (lookup_lt_Some _ _ _ Hs) as Hilt. rewrite Hly in Hilt.
    destruct (Hslot i Hilt) as (j & u & Hu & ->).
    destruct (Hslots j u Hu) as [Hy _]. rewrite Hy in Hs. apply Some_eq_inv in Hs.
    exists u. split; [eapply list_elem_of_lookup_2, Hu | congruence].
  - intros i s Hs. pose proof (lookup_lt_Some _ _ _ Hs) as Hilt. rewrite Hlh in Hilt.
    destruct (Hslot i Hilt) as (j & u & Hu & ->).
    destruct (Hslots j u Hu) as [_ Hh]. rewrite Hh in Hs. apply Some_eq_inv in Hs.
    exists u. split; [eapply list_elem_of_lookup_2, Hu | congruence].
Qed.

Lemma last_valid_x_invalid (x0 : Z) (us : list update) :
  Forall (fun u => u_valid u = false) us -> last_valid_x x0 us = x0.
Proof.
  unfold last_valid_x. revert x0. induction us as [|u us IH]; intros x0 Hall; [reflexivity |].
  apply Forall_cons in Hall as [Hu Hall]. cbn [foldl]. rewrite Hu. apply IH, Hall.
Qed.

Lemma last_flag_invalid (v0 : bool) (us : list update) :
  us <> [] -> Forall (fun u => u_valid u = false) us -> last_flag v0 us = false.
Proof.
  unfold last_flag. revert v0. induction us as [|u us IH]; intros v0 Hne Hall; [congruence |].
  apply Forall_cons in Hall as [Hu Hall]. cbn [foldl]. rewrite Hu.
  destruct us as [|u' us]; [reflexivity |]. apply IH; [discriminate | exact Hall].
Qed.

Lemma last_flag_valid (v0 : bool) (us : list update) :
  us <> [] -> Forall (fun u => u_valid u = true) us -> last_flag v0 us = true.
Proof.
  unfold last_flag. revert v0. induction us as [|u us IH]; intros v0 Hne Hall; [congruence |].
  apply Forall_cons in Hall as [Hu Hall]. cbn [foldl]. rewrite Hu.
  destruct us as [|u' us]; [reflexivity |]. apply IH; [discriminate | exact Hall].
Qed.

(** X6. A dropout of FRAME_TO_PITCH frames or more wipes the window: after
    that many consecutive [update_dove(False)] calls on a well-formed
    tracker, [is_dove()] is false, [get_center()] returns the x it had
    before the dropout with a None median, and [get_height()] is None. *)
Theorem dropout_empties_histories (us : list update) (d : Dove) :
  wf d -> (Config.FRAME_TO_PITCH <= length us)%nat ->
  Forall (fun u => u_valid u = false) us ->
  exists d',
    run_updates d us = Ok d' /\
    is_dove d' = false /\
    get_center d' = (x_center d, None) /\
    get_height d' = None.
Proof.
  intros Hwf Hlen Hall.
  set (k := (length us - Config.FRAME_TO_PITCH)%nat).
  rewrite <- (take_drop k us) in Hall |- *.
  apply Forall_app in Hall as [Hall1 Hall2].
  assert (Hlen2 : length (drop k us) = Config.FRAME_TO_PITCH)
    by (rewrite length_drop; subst k; lia).
  destruct (run_updates_scalars (take k us) d Hwf) as (d1 & Hrun1 & Hwf1 & Hx1 & _).
  destruct (full_window_slots (drop k us) d1 Hwf1 Hlen2) as (d' & Hrun2 & Hwf' & Hys & Hhs).
  destruct (run_updates_scalars (drop k us) d1 Hwf1) as (d2 & Hrun2' & _ & Hx2 & Hv2).
  rewrite Hrun2 in Hrun2'. apply Ok_inj in Hrun2'. subst d2.
  exists d'. rewrite run_updates_app, Hrun1. cbn [rbind]. split; [exact Hrun2 |].
  rewrite Forall_forall in Hall2.
  assert (Hy : s_median (y_center d') = None).
  { apply s_median_None_nan. apply Forall_lookup. intros i s Hs.
    destruct (Hys i s Hs) as (u & Hu & ->). unfold written_y. rewrite (Hall2 u Hu). reflexivity. }
  assert (Hh : s_median (height d') = None).
  { apply s_median_None_nan. apply Forall_lookup. intros i s Hs.
    destruct (Hhs i s Hs) as (u & Hu & ->). unfold written_h. rewrite (Hall2 u Hu). reflexivity. }
  split.
  - unfold is_dove. rewrite Hv2. apply last_flag_invalid.
    + intros Hnil. rewrite Hnil in Hlen2. cbn in Hlen2. discriminate.
    + apply Forall_forall, Hall2.
  - split; [| exact Hh]. unfold get_center. rewrite Hy, Hx2, Hx1.
    rewrite !last_valid_x_invalid; [reflexivity | exact Hall1 | apply Forall_forall, Hall2].
Qed.

(** X7. A steady target settles the filter: after FRAME_TO_PITCH valid
    updates of a well-formed tracker that all carry the vertical position
    [v] and the size [h], [get_center()] returns the x of the last update
    with median [v], and [get_height()] returns [h], whatever the histories
    held before. *)
Theorem steady_target_median (us : list update) (d : Dove) (v h : Q) :
  wf d -> length us = Config.FRAME_TO_PITCH ->
  Forall (fun u => u_valid u = true /\ u_y u = Num v /\ u_h u = Num h) us ->
  exists d' my mh,
    run_updates d us = Ok d' /\
    is_dove d' = true /\
    get_center d' = (last_valid_x (x_center d) us, Some my) /\ (my == v)%Q /\
    get_height d' = Some mh /\ (mh == h)%Q.
Proof.
  intros Hwf Hlen Hall. rewrite Forall_forall in Hall.
  destruct (full_window_slots us d Hwf Hlen) as (d' & Hrun & Hwf' & Hys & Hhs).
  destruct (run_updates_scalars us d Hwf) as (d2 & Hrun' & _ & Hx & Hv).
  rewrite Hrun in Hrun'. apply Ok_inj in Hrun'. subst d2.
  destruct Hwf' as (Hly & Hlh & _).
  assert (Hyall : Forall (fun s => s = Num v) (y_center d')).
  { apply Forall_lookup. intros i s Hs. destruct (Hys i s Hs) as (u & Hu & ->).
    destruct (Hall u Hu) as (Hvu & Hyu & _). unfold written_y. rewrite Hvu. exact Hyu. }
  assert (Hhall : Forall (fun s => s = Num h) (height d')).
  { apply Forall_lookup. intros i s Hs. destruct (Hhs i s Hs) as (u & Hu & ->).
    destruct (Hall u Hu) as (Hvu & _ & Hhu). unfold written_h. rewrite Hvu. exact Hhu. }
  destruct (s_median_same (y_center d') v) as (my & Hmy & Hmyv);
    [rewrite Hly; unfold Config.FRAME_TO_PITCH; lia | exact Hyall |].
  destruct (s_median_same (height d') h) as (mh & Hmh & Hmhh);
    [rewrite Hlh; unfold Config.FRAME_TO_PITCH; lia | exact Hhall |].
  exists d', my, mh. split; [exact Hrun |]. split.
  - unfold is_dove. rewrite Hv. apply last_flag_valid.
    + intros Hnil. rewrite Hnil in Hlen. discriminate.
    + apply Forall_forall. intros u Hu. apply (Hall u Hu).
  - unfold get_center, get_height. rewrite Hmy, Hmh, Hx. repeat split; assumption.
Qed.

End WindowFacts.

Lemma history_is_last_window_witness :
  exists d',
    DoveObject.run_updates present_left steady_frames = Ok d' /\
    DoveObject.index d' = 0%nat /\
    forall j u, steady_frames !! j = Some u ->
      DoveObject.y_center d' !! ((0 + j) mod Config.FRAME_TO_PITCH)%nat
      = Some (written_y u) /\
      DoveObject.height d' !! ((0 + j) mod Config.FRAME_TO_PITCH)%nat
      = Some (written_h u).
Proof.
  apply (history_is_last_window steady_frames present_left).
  - repeat split; cbn; unfold Config.FRAME_TO_PITCH; lia.
  - reflexivity.
Defined.

Lemma dropout_empties_histories_witness :
  exists d',
    DoveObject.run_updates present_left dropout_frames = Ok d' /\
    DoveObject.is_dove d' = false /\
    DoveObject.get_center d' = (0, None) /\
    DoveObject.get_height d' = None.
Proof.
  apply (dropout_empties_histories dropout_frames present_left).
  - repeat split; cbn; unfold Config.FRAME_TO_PITCH; lia.
  - unfold dropout_frames. rewrite length_replicate. lia.
  - repeat constructor.
Defined.

Lemma steady_target_median_witness :
  exists d' my mh,
    DoveObject.run_updates absent_centered steady_frames = Ok d' /\
    DoveObject.is_dove d' = true /\
    DoveObject.get_center d' = (50, Some my) /\ (my == 100)%Q /\
    DoveObject.get_height d' = Some mh /\ (mh == 5)%Q.
Proof.
  apply (steady_target_median steady_frames absent_centered 100 5).
  - apply wf_init.
  - reflexivity.
  - repeat constructor.
Defined.

(** ** The roll aim loop under any tracker behaviour *)

Section AimSideAnyFacts.
Import DoveObject Servo.

Lemma run_bind {A B : Type} (m : M A) (k : A -> M B) (w w' : world) (a : A) :
  m w = (Returns a, w') -> bind m k w = k a w'.
Proof. intros H. unfold bind. rewrite H. reflexivity. Qed.

Lemma run_bind_raise {A B : Type} (m : M A) (k : A -> M B) (w w' : world) (e : exn) :
  m w = (Raises e, w') -> bind m k w = (Raises e, w').
Proof. intros H. unfold bind. rewrite H. reflexivity. Qed.

Lemma roll_duties_app (tr tr' : list event) :
  roll_duties (tr ++ tr') = roll_duties tr ++ roll_duties tr'.
Proof. apply omap_app. Qed.

Lemma pitch_duties_app (tr tr' : list event) :
  pitch_duties (tr ++ tr') = pitch_duties tr ++ pitch_duties tr'.
Proof. apply omap_app. Qed.

Variable env : nat -> Dove.

Lemma is_dove_eq (w : world) :
  Servo.is_dove env w =
  (Returns (is_valid (env (reads w))),
   {| servo := servo w; reads := S (reads w); trace := trace w |}).
Proof. reflexivity. Qed.

Lemma get_center_eq (w : world) :
  Servo.get_center env w =
  (Returns (DoveObject.get_center (env (reads w))),
   {| servo := servo w; reads := S (reads w); trace := trace w |}).
Proof. reflexivity. Qed.

Lemma print_dove_eq (w : world) :
  print_dove env w =
  (Raises AttributeError,
   {| servo := servo w; reads := S (reads w);
      trace := trace w ++ [Said "Dove status:"] |}).
Proof. reflexivity. Qed.

Lemma emit_eq (e : event) (w : world) :
  emit e w =
  (Returns tt, {| servo := servo w; reads := reads w; trace := trace w ++ [e] |}).
Proof. reflexivity. Qed.

  (* The grace-period loop returns, touches no servo and sleeps at most as
     often as its budget allows. *)
Lemma reacquire_quiet (wfuel : nat) (u : float) (w : world) (m : nat) :
  countdown wfuel u = Some m ->
  exists w' tr,
    reacquire env wfuel u w = (Returns tt, w') /\
    servo w' = servo w /\ trace w' = trace w ++ tr /\
    roll_duties tr = [] /\ pitch_duties tr = [] /\ (ticks tr <= m)%nat.
Proof.
  revert u w m. induction wfuel as [|wfuel IH]; intros u w m Hc; cbn [countdown] in Hc.
  - destruct (PrimFloat.ltb 0 u) eqn:Hu; [discriminate |].
    exists w, []. cbn [reacquire]. rewrite Hu. rewrite app_nil_r.
    repeat split; try reflexivity. cbn. lia.
  - cbn [reacquire]. destruct (PrimFloat.ltb 0 u) eqn:Hu.
    + destruct (countdown wfuel (PrimFloat.sub u Config.ROLL_TIME_AIM)) as [m'|] eqn:Hm';
        [| discriminate].
      apply Some_eq_inv in Hc. subst m.
      rewrite (run_bind _ _ _ _ _ (is_dove_eq w)).
      destruct (is_valid (env (reads w))).
      * eexists _, []. split; [reflexivity |]. cbn [servo trace]. rewrite app_nil_r.
        repeat split; try reflexivity. cbn. lia.
      * unfold sleep. rewrite (run_bind _ _ _ _ _ (emit_eq _ _)).
        edestruct (IH _ {| servo := servo w; reads := S (reads w);
                           trace := trace w ++ [Slept Config.ROLL_TIME_AIM] |} m' Hm')
          as (w' & tr & Hrun & Hs & Ht & Hr & Hp & Hk).
        exists w', (Slept Config.ROLL_TIME_AIM :: tr). split; [exact Hrun |].
        cbn [servo trace] in Hs, Ht. split; [exact Hs |].
        split; [rewrite Ht, <- app_assoc; reflexivity |].
        split; [exact Hr |]. split; [exact Hp |].
        change (S (ticks tr) <= S m')%nat. lia.
    + exists w, []. rewrite app_nil_r. repeat split; try reflexivity. cbn. lia.
Qed.

  (* The presence check at the head of a loop body. *)
Lemma dove_gone_quiet (wfuel : nat) (u : float) (w : world) (m : nat) :
  countdown wfuel u = Some m ->
  exists g w' tr,
    dove_gone env wfuel u w = (Returns g, w') /\
    servo w' = servo w /\ trace w' = trace w ++ tr /\
    roll_duties tr = [] /\ pitch_duties tr = [] /\ (ticks tr <= m)%nat.
Proof.
  intros Hc. unfold dove_gone. rewrite (run_bind _ _ _ _ _ (is_dove_eq w)).
  destruct (is_valid (env (reads w))); cbn [negb].
  - eexists _, _, []. split; [reflexivity |]. cbn [servo trace]. rewrite app_nil_r.
    repeat split; try reflexivity. cbn. lia.
  - edestruct (reacquire_quiet wfuel u
                 {| servo := servo w; reads := S (reads w); trace := trace w |} m Hc)
      as (w1 & tr & Hrun & Hs & Ht & Hr & Hp & Hk).
    rewrite (run_bind _ _ _ _ _ Hrun). rewrite (run_bind _ _ _ _ _ (is_dove_eq w1)).
    cbn [servo trace] in Hs, Ht.
    destruct (is_valid (env (reads w1))); cbn [negb].
    + eexists _, _, tr. split; [reflexivity |]. cbn [servo trace].
      repeat split; assumption.
    + unfold say. rewrite (run_bind _ _ _ _ _ (emit_eq _ _)).
      eexists _, _, (tr ++ [Said "Dove gone!"]). split; [reflexivity |]. cbn [servo trace].
      split; [exact Hs |]. split; [rewrite Ht, app_assoc; reflexivity |].
      rewrite roll_duties_app, pitch_duties_app, ticks_app, Hr, Hp.
      repeat split; try reflexivity. cbn. lia.
Qed.

Lemma countdown_UNDETECTED_TO : countdown 51 Config.UNDETECTED_TO = Some 51%nat.
Proof. vm_compute. reflexivity. Qed.

(** X9. As shipped, [Aim_side] never moves a servo, whatever the tracker
    shows: with fuel for one iteration it either returns True at once (the
    target already inside the dead-band) or raises AttributeError at the
    debug print of its first iteration.  In both cases the servo record is
    as it was, nothing was sent to the roll or to the pitch servo, and no
    time was slept. *)
Theorem Aim_side_moves_nothing (fuel : nat) (w : world) :
  (0 < fuel)%nat ->
  exists o w' tr,
    Aim_side env fuel w = (o, w') /\
    (o = Returns true \/ o = Raises AttributeError) /\
    servo w' = servo w /\
    trace w' = trace w ++ tr /\
    roll_duties tr = [] /\ pitch_duties tr = [] /\ ticks tr = 0%nat.
Proof.
  intros Hfuel. destruct (out_of_band (x_center (env (reads w)))) eqn:Hx.
  - eexists _, _, [_]. split; [exact (Aim_side_first_print env fuel w Hx Hfuel) |].
    split; [right; reflexivity |]. cbn [servo trace]. repeat split; reflexivity.
  - eexists _, _, [_]. split.
    + unfold Aim_side. rewrite (run_bind _ _ _ _ _ (get_center_eq w)).
      cbn [fst DoveObject.get_center]. rewrite (side_loop_exit env) by (rewrite Hx; reflexivity).
      replace (PrimFloat.leb Config.TIMEOUT_S 0) with false by reflexivity. reflexivity.
    + split; [left; reflexivity |]. cbn [servo trace]. repeat split; reflexivity.
Qed.

End AimSideAnyFacts.

Lemma Aim_side_moves_nothing_witness :
  exists o w' tr,
    Servo.Aim_side (fun _ => present_left) 1 idle_world = (o, w') /\
    (o = Servo.Returns true \/ o = Servo.Raises AttributeError) /\
    Servo.servo w' = Servo.servo idle_world /\
    Servo.trace w' = Servo.trace idle_world ++ tr /\
    roll_duties tr = [] /\ pitch_duties tr = [] /\ ticks tr = 0%nat.
Proof. apply (Aim_side_moves_nothing (fun _ => present_left) 1 idle_world). lia. Defined.

(** ** The grace period and the float budgets *)

Lemma budget_step (t delta : float) (j : nat) :
  budget (PrimFloat.sub t delta) delta j = budget t delta (S j).
Proof. unfold budget. rewrite Nat.iter_succ_r. reflexivity. Qed.

Lemma budget_TIMEOUT_S_positive (j : nat) :
  (j <= 150)%nat ->
  PrimFloat.ltb 0 (budget Config.TIMEOUT_S Config.ROLL_TIME_AIM j) = true /\
  PrimFloat.leb (budget Config.TIMEOUT_S Config.ROLL_TIME_AIM j) 0 = false.
Proof.
  intros Hj.
  assert (Hall : forallb (fun j =>
                   PrimFloat.ltb 0 (budget Config.TIMEOUT_S Config.ROLL_TIME_AIM j)
                   && negb (PrimFloat.leb (budget Config.TIMEOUT_S Config.ROLL_TIME_AIM j) 0))
                   (List.seq 0 151) = true) by (vm_compute; reflexivity).
  rewrite forallb_forall in Hall. specialize (Hall j).
  rewrite andb_true_iff, negb_true_iff in Hall. apply Hall, in_seq. lia.
Qed.

Section GraceFacts.
Import DoveObject Servo.

Variable env : nat -> Dove.

  (* With the target absent at every check the grace period runs out. *)
Lemma reacquire_absent (wfuel : nat) (u : float) (w : world) (m : nat) :
  (forall k, is_valid (env k) = false) ->
  countdown wfuel u = Some m ->
  reacquire env wfuel u w =
  (Returns tt,
   {| servo := servo w;
      reads := (reads w + m)%nat;
      trace := trace w ++ replicate m (Slept Config.ROLL_TIME_AIM) |}).
Proof.
  intros Habs. revert u w m.
  induction wfuel as [|wfuel IH]; intros u w m Hc; cbn [countdown] in Hc.
  - destruct (PrimFloat.ltb 0 u) eqn:Hu; [discriminate |].
    destruct (PrimFloat.leb u 0); [| discriminate]. apply Some_eq_inv in Hc. subst m.
    cbn [reacquire]. rewrite Hu. unfold ret. cbn [replicate].
    rewrite app_nil_r, Nat.add_0_r. destruct w; reflexivity.
  - cbn [reacquire]. destruct (PrimFloat.ltb 0 u) eqn:Hu.
    + destruct (countdown wfuel (PrimFloat.sub u Config.ROLL_TIME_AIM)) as [m'|] eqn:Hm';
        [| discriminate].
      apply Some_eq_inv in Hc. subst m.
      rewrite (run_bind _ _ _ _ _ (is_dove_eq env w)). rewrite Habs.
      unfold sleep. rewrite (run_bind _ _ _ _ _ (emit_eq _ _)).
      rewrite (IH _ _ m' Hm'). cbn [servo reads trace replicate].
      rewrite <- app_assoc.
      replace (S (reads w) + m')%nat with (reads w + S m')%nat by lia. reflexivity.
    + destruct (PrimFloat.leb u 0); [| discriminate]. apply Some_eq_inv in Hc. subst m.
      unfold ret. cbn [replicate]. rewrite app_nil_r, Nat.add_0_r. destruct w; reflexivity.
Qed.

Lemma dove_gone_absent (wfuel : nat) (u : float) (w : world) (m : nat) :
  (forall k, is_valid (env k) = false) ->
  countdown wfuel u = Some m ->
  dove_gone env wfuel u w =
  (Returns true,
   {| servo := servo w;
      reads := (reads w + m + 2)%nat;
      trace := trace w ++ replicate m (Slept Config.ROLL_TIME_AIM)
                       ++ [Said "Dove gone!"] |}).
Proof.
  intros Habs Hc. unfold dove_gone.
  rewrite (run_bind _ _ _ _ _ (is_dove_eq env w)). rewrite Habs. cbn [negb].
  rewrite (run_bind _ _ _ _ _ (reacquire_absent wfuel u _ m Habs Hc)).
  rewrite (run_bind _ _ _ _ _ (is_dove_eq env _)). cbn [servo reads trace].
  rewrite Habs. cbn [negb].
  unfold say. rewrite (run_bind _ _ _ _ _ (emit_eq _ _)). cbn [servo reads trace].
  unfold ret. rewrite <- app_assoc.
  replace (S (S (reads w) + m))%nat with (reads w + m + 2)%nat by lia. reflexivity.
Qed.

End GraceFacts.

(** ** The pitch aim loop under any tracker *)

Section AimPitchAnyFacts.
Import DoveObject Servo PyMath.

Variable env : nat -> Dove.

Lemma pitch_loop_exit (wfuel fuel : nat) (y : option Q) (t u : float) (w : world) :
  off_target y && PrimFloat.ltb 0 t = false ->
  pitch_loop env wfuel fuel y t u w =
  if PrimFloat.leb t 0
  then (Returns false,
        {| servo := servo w; reads := reads w; trace := trace w ++ [Said "Aim Failed!"] |})
  else (Returns true,
        {| servo := servo w; reads := reads w;
           trace := trace w ++ [Said "Pitch Aim success!"] |}).
Proof.
  intros H. destruct fuel; cbn [pitch_loop]; rewrite H;
    destruct (PrimFloat.leb t 0); reflexivity.
Qed.

Lemma pitch_step_None (w : world) : pitch_step None w = (Raises TypeError, w).
Proof. reflexivity. Qed.

Lemma pitch_within_app (lo hi : Z) (tr tr' : list event) :
  pitch_within lo hi tr -> pitch_within lo hi tr' -> pitch_within lo hi (tr ++ tr').
Proof. unfold pitch_within. rewrite pitch_duties_app. apply Forall_app_2. Qed.

Lemma pitch_within_quiet (lo hi : Z) (tr : list event) :
  pitch_duties tr = [] -> pitch_within lo hi tr.
Proof. unfold pitch_within. intros ->. constructor. Qed.

  (* The pitch loop, whatever the tracker shows.  [n] bounds the steps and
     [m] the waits before each step. *)
Lemma pitch_loop_any (wfuel : nat) (lo hi : Z) (m : nat) :
  countdown wfuel Config.UNDETECTED_TO = Some m ->
  forall (fuel : nat) (y : option Q) (t : float) (w : world) (n : nat),
    alpha_to_beta_map (servo w) !! (-16) = Some lo ->
    alpha_to_beta_map (servo w) !! 45 = Some hi ->
    countdown fuel t = Some n ->
    exists o w' tr,
      pitch_loop env wfuel fuel y t Config.UNDETECTED_TO w = (o, w') /\
      ((exists b, o = Returns b) \/
       (o = Raises TypeError /\
        (y = None \/ exists k, snd (DoveObject.get_center (env k)) = None))) /\
      same_tables (servo w) (servo w') /\
      trace w' = trace w ++ tr /\
      roll_duties tr = [] /\
      pitch_within lo hi tr /\
      (length (pitch_duties tr) <= n)%nat /\
      Z.abs (pitch_deg (servo w') - pitch_deg (servo w)) <= Z.of_nat n /\
      (ticks tr <= n * (m + 1))%nat.
Proof.
  intros Hm. induction fuel as [|fuel IH]; intros y t w n Hlo Hhi Hn.
  - cbn [countdown] in Hn. destruct (PrimFloat.ltb 0 t) eqn:Ht; [discriminate |].
    rewrite pitch_loop_exit by (rewrite Ht; apply andb_false_r).
    destruct (PrimFloat.leb t 0); eexists _, _, [_]; (split; [reflexivity |]);
      cbn [servo trace]; (split; [left; eauto |]);
      repeat split; try reflexivity; try constructor; cbn; lia.
  - destruct (off_target y && PrimFloat.ltb 0 t) eqn:Hcond.
    + apply andb_true_iff in Hcond as [Hy Ht].
      cbn [countdown] in Hn. rewrite Ht in Hn.
      destruct (countdown fuel (PrimFloat.sub t Config.ROLL_TIME_AIM)) as [n'|] eqn:Hn';
        [| discriminate].
      apply Some_eq_inv in Hn. subst n.
      cbn [pitch_loop]. rewrite Hy, Ht. cbn [andb].
      edestruct (dove_gone_quiet env wfuel Config.UNDETECTED_TO w m Hm)
        as (g & w2 & tr2 & Hrun2 & Hs2 & Ht2 & Hr2 & Hp2 & Hk2).
      rewrite (run_bind _ _ _ _ _ Hrun2). destruct g.
      * exists (Returns false), w2, tr2. split; [reflexivity |].
        split; [left; eauto |]. rewrite Hs2.
        split; [split; reflexivity |]. split; [exact Ht2 |]. split; [exact Hr2 |].
        split; [apply pitch_within_quiet, Hp2 |]. rewrite Hp2.
        split; [cbn; lia |]. split; lia.
      * destruct y as [q|].
        2:{ rewrite (run_bind_raise _ _ _ _ _ (pitch_step_None w2)).
            exists (Raises TypeError), w2, tr2. split; [reflexivity |].
            split; [right; split; [reflexivity | left; reflexivity] |]. rewrite Hs2.
            split; [split; reflexivity |]. split; [exact Ht2 |]. split; [exact Hr2 |].
            split; [apply pitch_within_quiet, Hp2 |]. rewrite Hp2.
            split; [cbn; lia |]. split; lia. }
        assert (Hlo2 : alpha_to_beta_map (servo w2) !! (-16) = Some lo)
          by (rewrite Hs2; exact Hlo).
        assert (Hhi2 : alpha_to_beta_map (servo w2) !! 45 = Some hi)
          by (rewrite Hs2; exact Hhi).
        pose proof (pitch_step_number q w2 lo hi Hlo2 Hhi2) as Hstep.
        cbv zeta in Hstep. fold (pitch_move q) in Hstep. rewrite Hs2 in Hstep.
        set (deg := pitch_deg (servo w) + pitch_move q) in *.
        assert (Hmove : Z.abs (deg - pitch_deg (servo w)) <= 1).
        { unfold deg, pitch_move. destruct (Qlt_bool _ _); lia. }
        destruct ((deg <? lo) || (hi <? deg)) eqn:Hout.
        -- rewrite (run_bind _ _ _ _ _ Hstep).
           eexists (Returns false), _, (tr2 ++ [Said "not in pitch range"]).
           split; [reflexivity |]. split; [left; eauto |]. cbn [servo trace].
           split; [split; reflexivity |].
           split; [rewrite Ht2, app_assoc; reflexivity |].
           rewrite roll_duties_app, pitch_duties_app, ticks_app, Hr2, Hp2.
           split; [reflexivity |].
           split; [apply pitch_within_app; apply pitch_within_quiet;
                   [exact Hp2 | reflexivity] |].
           cbn [with_pitch pitch_deg]. split; [cbn; lia |]. split; [lia |]. cbn. lia.
        -- rewrite (run_bind _ _ _ _ _ Hstep).
           unfold sleep. rewrite (run_bind _ _ _ _ _ (emit_eq _ _)).
           rewrite (run_bind _ _ _ _ _ (get_center_eq env _)). cbn [servo reads trace snd].
           apply orb_false_iff in Hout as [Hge Hle].
           apply Z.ltb_ge in Hge, Hle.
           edestruct (IH (snd (DoveObject.get_center (env (reads w2))))
                         (PrimFloat.sub t Config.ROLL_TIME_AIM)
                         {| servo := with_pitch (servo w) deg;
                            reads := S (reads w2);
                            trace := (trace w2 ++ [PitchDuty (deg_to_duty deg)])
                                     ++ [Slept Config.ROLL_TIME_AIM] |} n')
             as (o & w' & tr & Hrun & Ho & [Hta Htb] & Ht' & Hr & Hp & Hlen & Habs & Hk).
           { exact Hlo. }
           { exact Hhi. }
           { exact Hn'. }
           cbn [servo trace with_pitch pitch_deg alpha_to_beta_map beta_to_alpha_map]
             in Hta, Htb, Ht', Habs.
           exists o, w',
             ((tr2 ++ [PitchDuty (deg_to_duty deg); Slept Config.ROLL_TIME_AIM]) ++ tr).
           split; [exact Hrun |].
           split.
           { destruct Ho as [Hb | [He [Hnone | Hk']]]; [left; exact Hb | |].
             - right. split; [exact He |]. right. eauto.
             - right. split; [exact He |]. right. exact Hk'. }
           split; [split; assumption |].
           split; [rewrite Ht', Ht2, <- !app_assoc; reflexivity |].
           rewrite !roll_duties_app, !pitch_duties_app, !ticks_app, Hr2, Hp2, Hr.
           split; [reflexivity |].
           split.
           { unfold pitch_within. rewrite !pitch_duties_app, Hp2.
             cbn [app pitch_duties omap]. constructor; [| exact Hp].
             exists deg. split; [lia | reflexivity]. }
           cbn [app pitch_duties omap length ticks].
           split; [cbn; lia |]. split; [lia |]. cbn. lia.
    + rewrite pitch_loop_exit by exact Hcond.
      destruct (PrimFloat.leb t 0); eexists _, _, [_]; (split; [reflexivity |]);
        cbn [servo trace]; (split; [left; eauto |]);
        repeat split; try reflexivity; try constructor; cbn; lia.
Qed.

  (* [Aim_pitch] under any tracker behaviour. *)
Lemma Aim_pitch_any (fuel : nat) (w : world) (lo hi : Z) :
  alpha_to_beta_map (servo w) !! (-16) = Some lo ->
  alpha_to_beta_map (servo w) !! 45 = Some hi ->
  (151 <= fuel)%nat ->
  exists o w' tr,
    Aim_pitch env fuel w = (o, w') /\
    ((exists b, o = Returns b) \/
     (o = Raises TypeError /\ exists k, snd (DoveObject.get_center (env k)) = None)) /\
    same_tables (servo w) (servo w') /\
    trace w' = trace w ++ tr /\
    roll_duties tr = [] /\
    pitch_within lo hi tr /\
    (length (pitch_duties tr) <= 151)%nat /\
    Z.abs (pitch_deg (servo w') - pitch_deg (servo w)) <= 151 /\
    (ticks tr <= 151 * 52)%nat.
Proof.
  intros Hlo Hhi Hfuel. unfold Aim_pitch.
  rewrite (run_bind _ _ _ _ _ (get_center_eq env w)).
  edestruct (pitch_loop_any fuel lo hi 51
               (countdown_fuel 51 fuel _ _ countdown_UNDETECTED_TO ltac:(lia))
               fuel (snd (DoveObject.get_center (env (reads w)))) Config.TIMEOUT_S
               {| servo := servo w; reads := S (reads w); trace := trace w |} 151)
    as (o & w' & tr & Hrun & Ho & Htab & Ht & Hr & Hp & Hlen & Habs & Hk).
  - exact Hlo.
  - exact Hhi.
  - apply (countdown_fuel 151); [exact countdown_TIMEOUT_S | exact Hfuel].
  - cbn [servo trace] in Htab, Ht, Habs. exists o, w', tr.
    split; [exact Hrun |].
    split.
    { destruct Ho as [Hb | [He [Hnone | Hk']]]; [left; exact Hb | |];
        right; (split; [exact He |]); eauto. }
    repeat split; try assumption; try apply Htab; lia.
Qed.

(** X12. [Aim_pitch] is safe for the servos under any tracker behaviour.
    On a servo whose forward table holds the keys -16 and 45, and with fuel
    for 151 iterations, the call ends with a Boolean or with the TypeError
    of a None median; it never touches the roll servo or the tables; every
    duty it sends to the pitch servo is [deg_to_duty] of an angle between
    [alpha_to_beta_map[-16]] and [alpha_to_beta_map[45]]; and it sends at
    most 151 of them, so the recorded pitch angle moves by at most 151
    degrees. *)
Theorem Aim_pitch_safe (fuel : nat) (w : world) (lo hi : Z) :
  alpha_to_beta_map (servo w) !! (-16) = Some lo ->
  alpha_to_beta_map (servo w) !! 45 = Some hi ->
  (151 <= fuel)%nat ->
  exists o w' tr,
    Aim_pitch env fuel w = (o, w') /\
    bool_or_TypeError o /\
    same_tables (servo w) (servo w') /\
    trace w' = trace w ++ tr /\
    roll_duties tr = [] /\
    pitch_within lo hi tr /\
    (length (pitch_duties tr) <= 151)%nat /\
    Z.abs (pitch_deg (servo w') - pitch_deg (servo w)) <= 151.
Proof.
  intros Hlo Hhi Hfuel.
  destruct (Aim_pitch_any fuel w lo hi Hlo Hhi Hfuel)
    as (o & w' & tr & Hrun & Ho & Htab & Ht & Hr & Hp & Hlen & Habs & _).
  exists o, w', tr. split; [exact Hrun |].
  split; [destruct Ho as [Hb | [He _]]; [left; exact Hb | right; exact He] |].
  repeat split; try assumption; apply Htab.
Qed.

(** X13. [Aim_pitch] comes back with a Boolean whenever the tracker holds a
    median y at every read (and the forward table holds the keys -16 and
    45): with fuel for 151 iterations it neither raises nor runs on, and it
    sleeps at most 151 * 52 times. *)
Theorem Aim_pitch_terminates (fuel : nat) (w : world) (lo hi : Z) :
  always_median env ->
  alpha_to_beta_map (servo w) !! (-16) = Some lo ->
  alpha_to_beta_map (servo w) !! 45 = Some hi ->
  (151 <= fuel)%nat ->
  exists b w',
    Aim_pitch env fuel w = (Returns b, w') /\
    (ticks (trace w') <= ticks (trace w) + 151 * 52)%nat.
Proof.
  intros Hmed Hlo Hhi Hfuel.
  destruct (Aim_pitch_any fuel w lo hi Hlo Hhi Hfuel)
    as (o & w' & tr & Hrun & Ho & _ & Ht & _ & _ & _ & _ & Hk).
  destruct Ho as [[b Hb] | [_ [k Hnone]]].
  - subst o. exists b, w'. split; [exact Hrun |]. rewrite Ht, ticks_app. lia.
  - exfalso. exact (Hmed k Hnone).
Qed.

End AimPitchAnyFacts.

Lemma Aim_pitch_safe_witness :
  exists o w' tr,
    Servo.Aim_pitch (fun _ => present_high) 151 ranged_world = (o, w') /\
    bool_or_TypeError o /\
    same_tables (Servo.servo ranged_world) (Servo.servo w') /\
    Servo.trace w' = Servo.trace ranged_world ++ tr /\
    roll_duties tr = [] /\
    pitch_within 20 176 tr /\
    (length (pitch_duties tr) <= 151)%nat /\
    Z.abs (Servo.pitch_deg (Servo.servo w') - Servo.pitch_deg (Servo.servo ranged_world))
      <= 151.
Proof.
  apply (Aim_pitch_safe (fun _ => present_high) 151 ranged_world 20 176).
  - reflexivity.
  - reflexivity.
  - lia.
Defined.

Lemma Aim_pitch_terminates_witness :
  exists b w',
    Servo.Aim_pitch (fun _ => present_high) 151 ranged_world = (Servo.Returns b, w') /\
    (ticks (Servo.trace w') <= ticks (Servo.trace ranged_world) + 151 * 52)%nat.
Proof.
  apply (Aim_pitch_terminates (fun _ => present_high) 151 ranged_world 20 176).
  - intros k. vm_compute. discriminate.
  - reflexivity.
  - reflexivity.
  - lia.
Defined.

(** ** The pitch aim loop: target lost, target tracked *)

Section AimPitchRunsFacts.
Import DoveObject Servo PyMath.

Variable env : nat -> Dove.

(** X14. Target lost: when [Aim_pitch] starts with the median y off target
    (or None) and the tracker reports no target at any check, it waits out
    the grace period of 51 ticks, prints "Dove gone!" and returns False; the
    pitch servo is not commanded, the recorded angle is unchanged, and a
    None median raises nothing on this path. *)
Theorem Aim_pitch_target_lost (fuel : nat) (w : world) :
  (forall k, is_valid (env k) = false) ->
  off_target (snd (DoveObject.get_center (env (reads w)))) = true ->
  (51 <= fuel)%nat ->
  Aim_pitch env fuel w =
  (Returns false,
   {| servo := servo w;
      reads := (reads w + 54)%nat;
      trace := trace w ++ replicate 51 (Slept Config.ROLL_TIME_AIM)
                       ++ [Said "Dove gone!"] |}).
Proof.
  intros Habs Hy Hfuel. destruct fuel as [|fuel]; [lia |].
  unfold Aim_pitch. rewrite (run_bind _ _ _ _ _ (get_center_eq env w)).
  cbn [pitch_loop]. rewrite Hy.
  replace (PrimFloat.ltb 0 Config.TIMEOUT_S) with true by reflexivity. cbn [andb].
  rewrite (run_bind _ _ _ _ _
             (dove_gone_absent env (S fuel) Config.UNDETECTED_TO _ 51 Habs
                (countdown_fuel 51 (S fuel) _ _ countdown_UNDETECTED_TO Hfuel))).
  cbn [servo reads trace]. unfold ret.
  replace (S (reads w) + 51 + 2)%nat with (reads w + 54)%nat by lia. reflexivity.
Qed.

Lemma dove_gone_present (wfuel : nat) (u : float) (w : world) :
  is_valid (env (reads w)) = true ->
  dove_gone env wfuel u w =
  (Returns false, {| servo := servo w; reads := S (reads w); trace := trace w |}).
Proof.
  intros Hv. unfold dove_gone. rewrite (run_bind _ _ _ _ _ (is_dove_eq env w)).
  rewrite Hv. reflexivity.
Qed.

  (* One step, when the target is present at the presence check and the
     new angle is in range. *)
Lemma pitch_loop_step (wfuel fuel : nat) (q : Q) (t u : float) (w : world) (lo hi : Z) :
  off_target (Some q) && PrimFloat.ltb 0 t = true ->
  is_valid (env (reads w)) = true ->
  alpha_to_beta_map (servo w) !! (-16) = Some lo ->
  alpha_to_beta_map (servo w) !! 45 = Some hi ->
  lo <= pitch_deg (servo w) + pitch_move q <= hi ->
  pitch_loop env wfuel (S fuel) (Some q) t u w =
  pitch_loop env wfuel fuel (snd (DoveObject.get_center (env (S (reads w)))))
    (PrimFloat.sub t Config.ROLL_TIME_AIM) Config.UNDETECTED_TO
    {| servo := with_pitch (servo w) (pitch_deg (servo w) + pitch_move q);
       reads := S (S (reads w));
       trace := trace w ++ [PitchDuty (deg_to_duty (pitch_deg (servo w) + pitch_move q));
                            Slept Config.ROLL_TIME_AIM] |}.
Proof.
  intros Hc Hv Hlo Hhi Hrange. cbn [pitch_loop]. rewrite Hc.
  rewrite (run_bind _ _ _ _ _ (dove_gone_present wfuel u w Hv)).
  pose proof (pitch_step_number q
                {| servo := servo w; reads := S (reads w); trace := trace w |}
                lo hi Hlo Hhi) as Hstep.
  cbv zeta in Hstep. cbn [servo reads trace] in Hstep. fold (pitch_move q) in Hstep.
  replace ((pitch_deg (servo w) + pitch_move q <? lo)
           || (hi <? pitch_deg (servo w) + pitch_move q)) with false in Hstep
    by (symmetry; apply orb_false_iff; split; apply Z.ltb_ge; lia).
  rewrite (run_bind _ _ _ _ _ Hstep).
  unfold sleep. rewrite (run_bind _ _ _ _ _ (emit_eq _ _)).
  rewrite (run_bind _ _ _ _ _ (get_center_eq env _)). cbn [servo reads trace].
  rewrite <- app_assoc. reflexivity.
Qed.

Lemma last_pitch_path (p p' : Z) (l : list Z) :
  default p (last (p' :: l)) = default p' (last l).
Proof. rewrite last_cons. destruct (last l); reflexivity. Qed.

  (* [n] steps with the target in view and off target, then a re-read that
     ends the loop. *)
Lemma pitch_loop_tracks (n : nat) :
  forall (wfuel fuel : nat) (Y : nat -> Q) (t u : float) (w : world) (lo hi : Z),
    (forall k, is_valid (env k) = true) ->
    (n <= fuel)%nat ->
    alpha_to_beta_map (servo w) !! (-16) = Some lo ->
    alpha_to_beta_map (servo w) !! 45 = Some hi ->
    (forall j, (j < n)%nat ->
       snd (DoveObject.get_center (env (reads w + 2 * j + 1)%nat)) = Some (Y (S j))) ->
    (forall j, (j < n)%nat ->
       off_target (Some (Y j)) = true /\
       PrimFloat.ltb 0 (budget t Config.ROLL_TIME_AIM j) = true) ->
    off_target (Some (Y n)) && PrimFloat.ltb 0 (budget t Config.ROLL_TIME_AIM n) = false ->
    Forall (fun p => lo <= p <= hi) (pitch_path Y (pitch_deg (servo w)) n) ->
    exists w' tr,
      pitch_loop env wfuel fuel (Some (Y 0%nat)) t u w =
      (Returns (negb (PrimFloat.leb (budget t Config.ROLL_TIME_AIM n) 0)), w') /\
      same_tables (servo w) (servo w') /\
      pitch_deg (servo w') =
        default (pitch_deg (servo w)) (last (pitch_path Y (pitch_deg (servo w)) n)) /\
      trace w' = trace w ++ tr /\
      roll_duties tr = [] /\
      pitch_duties tr = map deg_to_duty (pitch_path Y (pitch_deg (servo w)) n) /\
      ticks tr = n.
Proof.
  induction n as [|n IH]; intros wfuel fuel Y t u w lo hi Hv Hfuel Hlo Hhi HY Hgo Hstop Hpath.
  - rewrite pitch_loop_exit by exact Hstop.
    change (budget t Config.ROLL_TIME_AIM 0) with t.
    destruct (PrimFloat.leb t 0); eexists _, [_]; (split; [reflexivity |]);
      cbn [servo trace]; repeat split; reflexivity.
  - destruct fuel as [|fuel]; [lia |].
    destruct (Hgo 0%nat ltac:(lia)) as [Hy0 Ht0].
    change (budget t Config.ROLL_TIME_AIM 0) with t in Ht0.
    cbn [pitch_path] in Hpath |- *. apply Forall_cons in Hpath as [Hrange Hpath].
    rewrite (pitch_loop_step wfuel fuel (Y 0%nat) t u w lo hi)
      by (try rewrite Hy0, Ht0; auto).
    assert (Hy1 : snd (DoveObject.get_center (env (S (reads w)))) = Some (Y 1%nat))
      by (rewrite <- (HY 0%nat) by lia; do 3 f_equal; lia).
    rewrite Hy1.
    set (p' := pitch_deg (servo w) + pitch_move (Y 0%nat)) in *.
    edestruct (IH wfuel fuel (fun j => Y (S j))
                  (PrimFloat.sub t Config.ROLL_TIME_AIM) Config.UNDETECTED_TO
                  {| servo := with_pitch (servo w) p';
                     reads := S (S (reads w));
                     trace := trace w ++ [PitchDuty (deg_to_duty p');
                                          Slept Config.ROLL_TIME_AIM] |} lo hi)
      as (w' & tr & Hrun & [Hta Htb] & Hdeg & Ht & Hr & Hp & Hk).
    + exact Hv.
    + lia.
    + exact Hlo.
    + exact Hhi.
    + intros j Hj. cbn [reads]. rewrite <- (HY (S j)) by lia. do 3 f_equal. lia.
    + intros j Hj. rewrite budget_step. apply (Hgo (S j)). lia.
    + rewrite budget_step. exact Hstop.
    + exact Hpath.
    + rewrite budget_step in Hrun.
      cbn [servo trace with_pitch pitch_deg alpha_to_beta_map beta_to_alpha_map]
        in Hta, Htb, Hdeg, Ht.
      exists w', ([PitchDuty (deg_to_duty p'); Slept Config.ROLL_TIME_AIM] ++ tr).
      split; [exact Hrun |]. split; [split; assumption |].
      split; [rewrite last_pitch_path; exact Hdeg |].
      split; [rewrite Ht, <- !app_assoc; reflexivity |].
      rewrite roll_duties_app, pitch_duties_app, ticks_app, Hr, Hp, Hk.
      repeat split; reflexivity.
Qed.

(** X15. Step-wise tracking: with the target in view throughout, its median
    y off target at the first [n] reads of [Aim_pitch] and on target at the
    next, for any [n] up to 150, and every angle on the way inside the
    table range, [Aim_pitch] returns True after exactly [n] one-degree
    steps: each step moves the pitch up when the median is above the
    TOP_AIM line and down otherwise, the servo is sent the duty of each new
    angle in turn, and the recorded angle ends at the last of them. *)
Theorem Aim_pitch_tracks (n fuel : nat) (w : world) (Y : nat -> Q) (lo hi : Z) :
  (forall k, is_valid (env k) = true) ->
  alpha_to_beta_map (servo w) !! (-16) = Some lo ->
  alpha_to_beta_map (servo w) !! 45 = Some hi ->
  (n <= 150)%nat -> (n <= fuel)%nat ->
  (forall j, (j <= n)%nat ->
     snd (DoveObject.get_center (env (reads w + 2 * j)%nat)) = Some (Y j)) ->
  (forall j, (j < n)%nat -> off_target (Some (Y j)) = true) ->
  off_target (Some (Y n)) = false ->
  Forall (fun p => lo <= p <= hi) (pitch_path Y (pitch_deg (servo w)) n) ->
  exists w' tr,
    Aim_pitch env fuel w = (Returns true, w') /\
    same_tables (servo w) (servo w') /\
    pitch_deg (servo w') =
      default (pitch_deg (servo w)) (last (pitch_path Y (pitch_deg (servo w)) n)) /\
    trace w' = trace w ++ tr /\
    roll_duties tr = [] /\
    pitch_duties tr = map deg_to_duty (pitch_path Y (pitch_deg (servo w)) n) /\
    ticks tr = n.
Proof.
  intros Hv Hlo Hhi Hn Hfuel HY Hoff Hon Hpath. unfold Aim_pitch.
  rewrite (run_bind _ _ _ _ _ (get_center_eq env w)).
  assert (Hy0 : snd (DoveObject.get_center (env (reads w))) = Some (Y 0%nat))
    by (rewrite <- (HY 0%nat) by lia; do 3 f_equal; lia).
  rewrite Hy0.
  edestruct (pitch_loop_tracks n fuel fuel Y Config.TIMEOUT_S Config.UNDETECTED_TO
               {| servo := servo w; reads := S (reads w); trace := trace w |} lo hi)
    as (w' & tr & Hrun & Htab & Hdeg & Ht & Hr & Hp & Hk).
  - exact Hv.
  - exact Hfuel.
  - exact Hlo.
  - exact Hhi.
  - intros j Hj. cbn [reads]. rewrite <- (HY (S j)) by lia. do 3 f_equal. lia.
  - intros j Hj. split; [apply Hoff, Hj | apply budget_TIMEOUT_S_positive; lia].
  - rewrite Hon. reflexivity.
  - exact Hpath.
  - destruct (budget_TIMEOUT_S_positive n Hn) as [_ Hleb]. rewrite Hleb in Hrun.
    exists w', tr. split; [exact Hrun |]. cbn [servo trace] in Htab, Hdeg, Ht.
    repeat split; try assumption; apply Htab.
Qed.

End AimPitchRunsFacts.

Lemma Aim_pitch_target_lost_witness :
  Servo.Aim_pitch (fun _ => absent_centered) 51 idle_world =
  (Servo.Returns false,
   {| Servo.servo := Servo.servo idle_world;
      Servo.reads := 54;
      Servo.trace := replicate 51 (Servo.Slept Config.ROLL_TIME_AIM)
                       ++ [Servo.Said "Dove gone!"] |}).
Proof.
  apply (Aim_pitch_target_lost (fun _ => absent_centered) 51 idle_world).
  - intros k. reflexivity.
  - reflexivity.
  - lia.
Defined.

Lemma Aim_pitch_tracks_witness :
  exists w' tr,
    Servo.Aim_pitch rising 2 ranged_world = (Servo.Returns true, w') /\
    same_tables (Servo.servo ranged_world) (Servo.servo w') /\
    Servo.pitch_deg (Servo.servo w') =
      default (Servo.pitch_deg (Servo.servo ranged_world))
              (last (pitch_path rising_median
                                (Servo.pitch_deg (Servo.servo ranged_world)) 2)) /\
    Servo.trace w' = Servo.trace ranged_world ++ tr /\
    roll_duties tr = [] /\
    pitch_duties tr =
      map Servo.deg_to_duty
          (pitch_path rising_median (Servo.pitch_deg (Servo.servo ranged_world)) 2) /\
    ticks tr = 2%nat.
Proof.
  apply (Aim_pitch_tracks rising 2 2 ranged_world rising_median 20 176).
  - intros k. unfold rising. destruct (k <? 4)%nat; reflexivity.
  - reflexivity.
  - reflexivity.
  - lia.
  - lia.
  - intros j Hj. destruct j as [|[|[|j]]]; [reflexivity | reflexivity | reflexivity | lia].
  - intros j Hj. destruct j as [|[|j]]; [reflexivity | reflexivity | lia].
  - reflexivity.
  - repeat constructor; vm_compute; discriminate.
Defined.

(** ** Waiting for a target *)

Lemma frame_polls_budget (delta : float) (N : nat) :
  frame_polls delta N ->
  (forall j, (j < N)%nat -> PrimFloat.ltb 0 (budget Config.TIMEOUT_S delta j) = true) /\
  PrimFloat.ltb 0 (budget Config.TIMEOUT_S delta N) = false.
Proof.
  intros [[-> ->] | [-> ->]].
  - assert (Hall : forallb (fun j =>
                     PrimFloat.ltb 0 (budget Config.TIMEOUT_S Config.DELTA_FRAME j))
                     (List.seq 0 300) = true) by (vm_compute; reflexivity).
    rewrite forallb_forall in Hall.
    split; [intros j Hj; apply Hall, in_seq; lia | vm_compute; reflexivity].
  - assert (Hall : forallb (fun j =>
                     PrimFloat.ltb 0 (budget Config.TIMEOUT_S Config.DELTA_FRAME_dyn j))
                     (List.seq 0 429) = true) by (vm_compute; reflexivity).
    rewrite forallb_forall in Hall.
    split; [intros j Hj; apply Hall, in_seq; lia | vm_compute; reflexivity].
Qed.

Section WaitFacts.
Import DoveObject Servo Main.

Variable env : nat -> Dove.

  (* [k] polls that see no target. *)
Lemma wait_loop_absent (delta : float) (k : nat) :
  forall (fuel : nat) (t : float) (w : world),
    (forall j, (j < k)%nat -> is_valid (env (reads w + j)%nat) = false) ->
    (forall j, (j < k)%nat -> PrimFloat.ltb 0 (budget t delta j) = true) ->
    wait_loop env (k + fuel) delta t w =
    wait_loop env fuel delta (budget t delta k)
      {| servo := servo w;
         reads := (reads w + k)%nat;
         trace := trace w ++ replicate k (Slept delta) |}.
Proof.
  induction k as [|k IH]; intros fuel t w Habs Hpos.
  - cbn [Nat.add replicate]. change (budget t delta 0) with t.
    rewrite Nat.add_0_r, app_nil_r. destruct w; reflexivity.
  - cbn [Nat.add wait_loop].
    pose proof (Hpos 0%nat ltac:(lia)) as Ht. change (budget t delta 0) with t in Ht.
    rewrite Ht. rewrite (run_bind _ _ _ _ _ (is_dove_eq env w)).
    pose proof (Habs 0%nat ltac:(lia)) as Hv. rewrite Nat.add_0_r in Hv. rewrite Hv.
    unfold sleep. rewrite (run_bind _ _ _ _ _ (emit_eq _ _)).
    rewrite IH.
    + cbn [servo reads trace replicate]. rewrite budget_step, <- app_assoc.
      replace (S (reads w) + k)%nat with (reads w + S k)%nat by lia. reflexivity.
    + intros j Hj. cbn [reads]. rewrite <- (Habs (S j)) by lia. do 2 f_equal. lia.
    + intros j Hj. rewrite budget_step. apply Hpos. lia.
Qed.

(** X16. [wait_for_dove] returns True at the first poll that sees the
    target: when the tracker shows no target at the first [k] polls and a
    target at the next, with [k] below the number of polls the budget allows
    (300 at the frame period of 0.05 s, 429 at 0.035 s), the call sleeps
    exactly [k] frame periods, prints "Dove detected!" and returns True. *)
Theorem wait_for_dove_detects (delta : float) (N k fuel : nat) (w : world) :
  frame_polls delta N ->
  (k < N)%nat -> (k < fuel)%nat ->
  (forall j, (j < k)%nat -> is_valid (env (reads w + j)%nat) = false) ->
  is_valid (env (reads w + k)%nat) = true ->
  wait_for_dove env fuel delta w =
  (Returns true,
   {| servo := servo w;
      reads := (reads w + k + 1)%nat;
      trace := trace w ++ [Said "Waiting for a dove..."]
                       ++ replicate k (Slept delta)
                       ++ [Said "Dove detected!"] |}).
Proof.
  intros Hpolls HkN Hfuel Habs Hv.
  destruct (frame_polls_budget delta N Hpolls) as [Hpos _].
  unfold wait_for_dove. cbn [Config.DEBUG]. unfold say.
  rewrite (run_bind _ _ _ _ _ (emit_eq _ _)).
  replace fuel with (k + S (fuel - S k))%nat by lia.
  rewrite wait_loop_absent; [| exact Habs | intros j Hj; apply Hpos; lia].
  cbn [wait_loop servo reads trace]. rewrite (Hpos k HkN).
  rewrite (run_bind _ _ _ _ _ (is_dove_eq env _)). cbn [servo reads trace]. rewrite Hv.
  unfold say. rewrite (run_bind _ _ _ _ _ (emit_eq _ _)). cbn [servo reads trace]. unfold ret.
  rewrite <- !app_assoc. replace (S (reads w + k)) with (reads w + k + 1)%nat by lia.
  reflexivity.
Qed.

(** X17. [wait_for_dove] gives up after exactly 300 polls at the frame
    period of 0.05 s, and after 429 at 0.035 s: when the tracker shows no
    target at any of them, the call sleeps that many frame periods, prints
    "No dove detected within timeout." and returns False. *)
Theorem wait_for_dove_times_out (delta : float) (N fuel : nat) (w : world) :
  frame_polls delta N ->
  (N <= fuel)%nat ->
  (forall j, (j < N)%nat -> is_valid (env (reads w + j)%nat) = false) ->
  wait_for_dove env fuel delta w =
  (Returns false,
   {| servo := servo w;
      reads := (reads w + N)%nat;
      trace := trace w ++ [Said "Waiting for a dove..."]
                       ++ replicate N (Slept delta)
                       ++ [Said "No dove detected within timeout."] |}).
Proof.
  intros Hpolls Hfuel Habs.
  destruct (frame_polls_budget delta N Hpolls) as [Hpos Hend].
  unfold wait_for_dove. cbn [Config.DEBUG]. unfold say.
  rewrite (run_bind _ _ _ _ _ (emit_eq _ _)).
  replace fuel with (N + (fuel - N))%nat by lia.
  rewrite wait_loop_absent; [| exact Habs | exact Hpos].
  cbn [servo reads trace].
  destruct (fuel - N)%nat; cbn [wait_loop]; rewrite Hend; unfold say;
    rewrite (run_bind _ _ _ _ _ (emit_eq _ _)); cbn [servo reads trace]; unfold ret;
    rewrite <- !app_assoc; reflexivity.
Qed.

End WaitFacts.

Lemma wait_for_dove_detects_witness :
  Main.wait_for_dove drifting_in 300 Config.DELTA_FRAME idle_world =
  (Servo.Returns true,
   {| Servo.servo := Servo.servo idle_world;
      Servo.reads := 1;
      Servo.trace := [Servo.Said "Waiting for a dove..."; Servo.Said "Dove detected!"] |}).
Proof.
  apply (wait_for_dove_detects drifting_in Config.DELTA_FRAME 300 0 300 idle_world).
  - left. split; reflexivity.
  - lia.
  - lia.
  - intros j Hj. lia.
  - reflexivity.
Defined.

Lemma wait_for_dove_times_out_witness :
  Main.wait_for_dove (fun _ => absent_centered) 429 Config.DELTA_FRAME_dyn idle_world =
  (Servo.Returns false,
   {| Servo.servo := Servo.servo idle_world;
      Servo.reads := 429;
      Servo.trace := [Servo.Said "Waiting for a dove..."]
                       ++ replicate 429 (Servo.Slept Config.DELTA_FRAME_dyn)
                       ++ [Servo.Said "No dove detected within timeout."] |}).
Proof.
  apply (wait_for_dove_times_out (fun _ => absent_centered) Config.DELTA_FRAME_dyn 429 429
           idle_world).
  - right. split; reflexivity.
  - lia.
  - intros j Hj. reflexivity.
Defined.

(** ** Choosing a detection *)

Section ClosestFacts.
Import Main.
Open Scope R_scope.

  (* What the loop of [find_closest_bird] holds after the detections
     [seen]. *)
Lemma closest_invariant (cx cy : R) (seen : list detection) :
  match foldl (closer cx cy) None seen with
  | None => forall d, d ∈ seen -> ~ tall_enough d
  | Some (d, r) =>
      d ∈ seen /\ tall_enough d /\
      r = sqrt ((Center_x d - cx) ^ 2 + (Center_y d - cy) ^ 2) /\
      forall d', d' ∈ seen -> tall_enough d' ->
        r <= sqrt ((Center_x d' - cx) ^ 2 + (Center_y d' - cy) ^ 2)
  end.
Proof.
  induction seen as [|x seen IH] using rev_ind.
  - cbn. intros d Hd. inversion Hd.
  - rewrite foldl_app. cbn [foldl]. unfold closer at 1.
    destruct (Rle_dec (IZR Config.MIN_DOVE_HEIGHT) (Height x)) as [Htall | Hshort].
    + destruct (foldl (closer cx cy) None seen) as [[d r]|].
      * destruct IH as (Hin & Hd & Hr & Hmin).
        destruct (Rlt_dec _ r) as [Hlt | Hge].
        -- split; [set_solver |]. split; [exact Htall |]. split; [reflexivity |].
           intros d' Hd' Htall'. apply elem_of_app in Hd' as [Hd' | Hd'].
           ++ specialize (Hmin d' Hd' Htall'). lra.
           ++ apply list_elem_of_singleton in Hd'. subst d'. lra.
        -- split; [set_solver |]. split; [exact Hd |]. split; [exact Hr |].
           intros d' Hd' Htall'. apply elem_of_app in Hd' as [Hd' | Hd'].
           ++ exact (Hmin d' Hd' Htall').
           ++ apply list_elem_of_singleton in Hd'. subst d'. lra.
      * split; [set_solver |]. split; [exact Htall |]. split; [reflexivity |].
        intros d' Hd' Htall'. apply elem_of_app in Hd' as [Hd' | Hd'].
        -- exfalso. exact (IH d' Hd' Htall').
        -- apply list_elem_of_singleton in Hd'. subst d'. lra.
    + destruct (foldl (closer cx cy) None seen) as [[d r]|].
      * destruct IH as (Hin & Hd & Hr & Hmin).
        split; [set_solver |]. split; [exact Hd |]. split; [exact Hr |].
        intros d' Hd' Htall'. apply elem_of_app in Hd' as [Hd' | Hd'].
        -- exact (Hmin d' Hd' Htall').
        -- apply list_elem_of_singleton in Hd'. subst d'. contradiction.
      * intros d' Hd'. apply elem_of_app in Hd' as [Hd' | Hd'].
        -- exact (IH d' Hd').
        -- apply list_elem_of_singleton in Hd'. subst d'. exact Hshort.
Qed.

(** X18. [find_closest_bird] picks a nearest valid detection: it returns
    None exactly when no detection is at least MIN_DOVE_HEIGHT tall, and
    otherwise a detection of the list that is tall enough and at least as
    close to the centre of the frame as every other detection that is tall
    enough. *)
Theorem find_closest_bird_nearest (ds : list detection) (width height : R) :
  match find_closest_bird ds width height with
  | None => forall d, d ∈ ds -> ~ tall_enough d
  | Some d =>
      d ∈ ds /\ tall_enough d /\
      forall d', d' ∈ ds -> tall_enough d' ->
        centre_distance width height d <= centre_distance width height d'
  end.
Proof.
  unfold find_closest_bird. cbv zeta.
  pose proof (closest_invariant (width / 2) (height / 2) ds) as Hinv.
  destruct (foldl (closer (width / 2) (height / 2)) None ds) as [[d r]|]; cbn [fmap option_fmap option_map fst].
  - destruct Hinv as (Hin & Hd & Hr & Hmin). split; [exact Hin |]. split; [exact Hd |].
    intros d' Hd' Htall'. unfold centre_distance. rewrite <- Hr. exact (Hmin d' Hd' Htall').
  - exact Hinv.
Qed.

End ClosestFacts.

(** ** The ballistic correction aims higher *)

Section CorrectionFacts.
Import PyMath Servo.
Local Open Scope R_scope.

Lemma ballistic_E_pos (OB : R) : 0 < OB -> 0 < ballistic_E OB.
Proof.
  intros HOB. pose proof tan_half_fov_pos as HT.
  unfold ballistic_E, distance, Config.GRAVITY_CONSTANT, Config.INITIAL_V,
    Config.REAL_DOVE_HEIGHT, Config.HEIGHT_PIXEL.
  apply Rdiv_lt_0_compat; [| nra]. apply Rmult_lt_0_compat; [lra |].
  apply Rdiv_lt_0_compat; nra.
Qed.

Lemma degrees_radians (x : R) : degrees (radians x) = x.
Proof. unfold degrees, radians. pose proof PI_RGT_0. field. lra. Qed.

Lemma degrees_lt (x y : R) : x < y -> degrees x < degrees y.
Proof.
  intros H. unfold degrees. pose proof PI_RGT_0 as Hpi.
  apply Rmult_lt_compat_r; [apply Rinv_0_lt_compat; exact Hpi | lra].
Qed.

Lemma radians_quadrant (x : R) : -90 < x < 90 -> - (PI / 2) < radians x < PI / 2.
Proof. intros [Hl Hu]. unfold radians. pose proof PI_RGT_0. split; nra. Qed.

  (* With gravity pulling the jet down ([0 < E]) the solved launch angle
     lies strictly above the line of sight. *)
Lemma solved_above_sight (E a : R) :
  0 < E -> - (PI / 2) < a < PI / 2 -> 0 <= ballistic_dis E a ->
  a < atan ((1 - sqrt (ballistic_dis E a)) / (E * cos a)).
Proof.
  intros HE Ha Hdis.
  assert (Hc : 0 < cos a) by (apply cos_gt_0; lra).
  pose proof (sin2_cos2 a) as Hsc. unfold Rsqr in Hsc.
  unfold ballistic_dis in *.
  set (s := sin a) in *. set (c := cos a) in *.
  set (dis := 1 - 2 * E * s - (E * c) ^ 2) in *.
  assert (Hes : E * s <= 1 / 2) by (unfold dis in Hdis; nra).
  assert (Hroot : sqrt dis < 1 - E * s).
  { rewrite <- (sqrt_pow2 (1 - E * s)) by lra.
    apply sqrt_lt_1_alt. split; [exact Hdis |]. unfold dis. nra. }
  rewrite <- (atan_tan a Ha) at 1. apply atan_increasing.
  unfold tan. fold s c.
  apply Rmult_lt_reg_r with (E * c); [nra |].
  replace ((1 - sqrt dis) / (E * c) * (E * c)) with (1 - sqrt dis)
    by (field; split; lra).
  replace (s / c * (E * c)) with (E * s) by (field; lra).
  lra.
Qed.

  (* Over the reals: the correction on a target of positive size seen
     under an angle short of vertical. *)
Lemma real_alpha_above_sight (a0 : R) (rest : list R) (OB : R) :
  0 < OB ->
  -90 < foldr Rmin a0 rest < 90 ->
  real_alpha_calc_balistics (a0 :: rest) OB = Ok FNaN \/
  exists r,
    real_alpha_calc_balistics (a0 :: rest) OB = Ok (FNum r) /\
    foldr Rmin a0 rest < r <= 45.
Proof.
  intros HOB Hm. pose proof (radians_quadrant _ Hm) as Ha.
  assert (Hc : 0 < cos (radians (foldr Rmin a0 rest))) by (apply cos_gt_0; lra).
  rewrite real_alpha_calc_balistics_eval by lra. cbv zeta.
  destruct (Rlt_dec _ 0) as [Hneg | Hpos]; [left; reflexivity |].
  destruct (Rlt_dec 45 _) as [Hbig | Hok]; [left; reflexivity |].
  right. eexists. split; [reflexivity |]. split; [| lra].
  rewrite <- (degrees_radians (foldr Rmin a0 rest)) at 1.
  unfold solved_angle. apply degrees_lt.
  apply solved_above_sight; [apply ballistic_E_pos, HOB | exact Ha | lra].
Qed.

(** X19. The ballistic correction never lowers the aim.  Read over the
    reals, for an apparent size between MIN_DOVE_HEIGHT and HEIGHT_PIXEL
    pixels (what the detector can report of a frame) and a line of sight
    between -16 and 45 degrees (the angles of the aim table),
    [real_alpha_calc_balistics] raises nothing and returns either NaN or an
    angle strictly above the line of sight (the least candidate) and at most
    45 degrees. *)
Theorem ballistics_aims_higher (a0 : R) (rest : list R) (OB : R) :
  IZR Config.MIN_DOVE_HEIGHT <= OB <= Config.HEIGHT_PIXEL ->
  -16 <= foldr Rmin a0 rest <= 45 ->
  real_alpha_calc_balistics (a0 :: rest) OB = Ok FNaN \/
  exists r,
    real_alpha_calc_balistics (a0 :: rest) OB = Ok (FNum r) /\
    foldr Rmin a0 rest < r <= 45.
Proof.
  intros HOB Hm. unfold Config.MIN_DOVE_HEIGHT, Config.HEIGHT_PIXEL in HOB.
  destruct (real_alpha_above_sight a0 rest OB ltac:(lra) ltac:(lra))
    as [Hnan | (r & Hr & Hb)].
  - left. exact Hnan.
  - right. exists r. split; [exact Hr | exact Hb].
Qed.

End CorrectionFacts.

Lemma ballistics_aims_higher_witness :
  Servo.real_alpha_calc_balistics [0%R] 100 = Ok Servo.FNaN \/
  exists r,
    Servo.real_alpha_calc_balistics [0%R] 100 = Ok (Servo.FNum r) /\
    (foldr Rmin 0 [] < r <= 45)%R.
Proof.
  apply (ballistics_aims_higher 0 [] 100).
  - unfold Config.MIN_DOVE_HEIGHT, Config.HEIGHT_PIXEL. lra.
  - cbn [foldr]. lra.
Defined.

(** ** The linkage solve stays in the servo range *)

Section LinkageRangeFacts.
Import PyMath AnglesMap.
Local Open Scope R_scope.

Lemma PI_upper : PI <= 52 / 15.
Proof.
  destruct (PI_ineq 1) as [_ H]. unfold tg_alt, PI_tg in H. simpl in H. lra.
Qed.

  (* Sharper bounds on the sine and cosine of the table's aim angles than
     [table_trig_bounds]: the angles reach down to -16 degrees only. *)
Lemma table_trig_sharp (k : Z) :
  (-16 <= k <= 45)%Z ->
  7 / 10 <= cos (radians (IZR k)) <= 1 /\ -309 / 1000 <= sin (radians (IZR k)) <= 1.
Proof.
  intros Hk. destruct (table_trig_bounds k Hk) as [[Hc0 Hc1] [Hs0 Hs1]].
  destruct (radians_table_range k Hk) as [Hl Hu].
  pose proof PI_RGT_0 as Hpi. pose proof PI_upper as Hpi'.
  set (x := radians (IZR k)) in *.
  assert (Hs4 : sin x <= 1 / sqrt 2).
  { rewrite <- sin_PI4. apply sin_incr_1; lra. }
  assert (Hsq : (1 / sqrt 2) ^ 2 = 1 / 2).
  { pose proof (sqrt_sqrt 2 ltac:(lra)) as H2.
    assert (Hs2 : 0 < sqrt 2) by (apply sqrt_lt_R0; lra).
    field_simplify; [| lra]. replace (sqrt 2 ^ 2) with (sqrt 2 * sqrt 2) by ring.
    rewrite H2. lra. }
  assert (Hr2 : 0 < 1 / sqrt 2).
  { apply Rdiv_lt_0_compat; [lra | apply sqrt_lt_R0; lra]. }
  pose proof (sin2_cos2 x) as Hsc. unfold Rsqr in Hsc.
  assert (Hs2 : sin x * sin x <= 1 / 2).
  { destruct (Rle_dec 0 (sin x)) as [Hs | Hs]; [| nra].
    assert (0 <= (1 / sqrt 2 - sin x) * (1 / sqrt 2 + sin x))
      by (apply Rmult_le_pos; lra).
    nra. }
  split; [split; [nra | exact Hc1] | split; [| exact Hs1]].
  destruct (Rle_dec 0 x) as [Hpos | Hneg].
  - assert (0 <= sin x) by (apply sin_ge_0; lra). lra.
  - assert (Hx : -16 * PI / 180 <= x).
    { unfold x, radians. destruct Hk as [Hk _]. apply IZR_le in Hk. nra. }
    pose proof (sin_lt_x (- x) ltac:(lra)) as Hlt. rewrite sin_neg in Hlt. lra.
Qed.

  (* The argument of [math.acos] is a cosine of the first quadrant. *)
Lemma acos_arg_nonneg (k : Z) :
  (-16 <= k <= 45)%Z -> exists r, acos_arg k = Ok r /\ 0 <= r <= 1.
Proof.
  intros Hk. destruct (acos_arg_in_range k Hk) as (r & Harg & Hr).
  exists r. split; [exact Harg |]. split; [| apply Hr].
  destruct (table_trig_sharp k Hk) as [Hc Hs].
  unfold acos_arg in Harg.
  set (c := cos (radians (IZR k))) in *. set (s := sin (radians (IZR k))) in *.
  assert (Hl3 : Config.l3 <> 0) by (unfold Config.l3; lra).
  rewrite !(py_div_ok _ Config.l3) in Harg by exact Hl3. cbn [rbind] in Harg.
  set (A := (Config.l2 - Config.l5 * c) / Config.l3) in *.
  set (B := -1 * (Config.l1 + Config.l5 * s) / Config.l3) in *.
  set (C := (Config.l4 / Config.l3) ^ 2 - 1) in *.
  assert (HA : A < 0).
  { unfold A, Config.l2, Config.l5, Config.l3.
    apply Rmult_lt_reg_r with (155 / 100); [lra |]. field_simplify. lra. }
  assert (HB : B <= -413 / 100).
  { unfold B, Config.l1, Config.l5, Config.l3.
    apply Rmult_le_reg_r with (155 / 100); [lra |]. field_simplify. lra. }
  assert (HC : C <= 2498 / 100).
  { unfold C, Config.l4, Config.l3. field_simplify. lra. }
  assert (HD : 0 < A ^ 2 + B ^ 2) by nra.
  rewrite !(py_div_ok _ (A ^ 2 + B ^ 2)) in Harg by lra. cbn [rbind] in Harg.
  rewrite py_div_ok in Harg by lra. apply Ok_inj in Harg. subst r.
  set (D := A ^ 2 + B ^ 2) in *.
  set (E := A * (B ^ 2 - C) / D).
  set (F := (25 / 100 * (B ^ 2 - C) ^ 2 - B ^ 2) / D).
  assert (HE : E * D = A * (B ^ 2 - C)) by (unfold E; field; lra).
  assert (HF : F * D = 25 / 100 * (B ^ 2 - C) ^ 2 - B ^ 2) by (unfold F; field; lra).
  destruct (Rle_dec C (B ^ 2)) as [Hfar | Hnear].
  - assert (HE0 : E <= 0) by nra.
    pose proof (sqrt_pos (if Rlt_dec (E ^ 2 - 4 * F) 0 then 0 else E ^ 2 - 4 * F)).
    lra.
  - assert (HE0 : 0 <= E) by nra.
    assert (HF0 : F <= 0).
    { assert (Hgap : C - B ^ 2 <= 2 * - B) by nra.
      assert (Hnum : 25 / 100 * (B ^ 2 - C) ^ 2 - B ^ 2 <= 0) by nra.
      nra. }
    destruct (Rlt_dec (E ^ 2 - 4 * F) 0) as [Hneg | Hpos]; [nra |].
    assert (Hroot : E <= sqrt (E ^ 2 - 4 * F)).
    { rewrite <- (sqrt_pow2 E HE0) at 1. apply sqrt_le_1_alt. nra. }
    lra.
Qed.

Lemma acos_first_quadrant (x : R) : 0 <= x <= 1 -> 0 <= acos x <= PI / 2.
Proof.
  intros Hx. destruct (acos_bound x) as [H0 Hpi]. split; [exact H0 |].
  destruct (Rle_dec (acos x) (PI / 2)) as [Hle | Hgt]; [exact Hle |].
  exfalso. pose proof (cos_acos x ltac:(lra)) as Hcos.
  pose proof (cos_lt_0 (acos x) ltac:(lra) ltac:(lra)) as Hneg. lra.
Qed.

Lemma degrees_first_quadrant (y : R) : 0 <= y <= PI / 2 -> 0 <= degrees y <= 90.
Proof.
  intros [H0 H1]. unfold degrees. pose proof PI_RGT_0 as Hpi. split.
  - apply Rmult_le_pos; [lra | left; apply Rinv_0_lt_compat; exact Hpi].
  - apply Rmult_le_reg_r with PI; [exact Hpi |]. field_simplify; lra.
Qed.

  (* The mechanical angle of every aim angle of the table is one the servo
     can take: below 90 degrees for the aims under [lim], above for the
     others. *)
Lemma ang_conv_range (k : Z) :
  (-16 <= k <= 45)%Z ->
  exists beta,
    ang_conv k = Ok beta /\
    (if (k <? Config.lim)%Z then 0 <= beta <= 90 else 90 <= beta <= 180)%Z.
Proof.
  intros Hk. destruct (acos_arg_nonneg k Hk) as (r & Harg & Hr).
  pose proof (degrees_first_quadrant _ (acos_first_quadrant r Hr)) as Hdeg.
  eexists. unfold ang_conv. rewrite Harg. cbn [rbind].
  rewrite (py_acos_ok r) by lra. cbn [rbind]. split; [reflexivity |].
  unfold Config.s_cal. destruct (k <? Config.lim)%Z.
  - pose proof (py_round_bounds (degrees (acos r) * -1) (-90) 0) as Hround.
    destruct Hround as [Hlo Hhi]; [lra | lia].
  - pose proof (py_round_bounds (degrees (acos r)) 0 90) as Hround.
    destruct Hround as [Hlo Hhi]; [lra | lia].
Qed.

End LinkageRangeFacts.

(** ** The tables stay in range *)

Section TableRangeFacts.
Import PyMath AnglesMap.

Lemma populate_dom (alphas : list Z) :
  forall maps maps' : gmap Z Z * gmap Z (list Q),
    populate alphas maps = Ok maps' ->
    forall a, is_Some (maps'.1 !! a) -> is_Some (maps.1 !! a) \/ a ∈ alphas.
Proof.
  induction alphas as [|x rest IH]; intros maps maps' Hrun a Ha; cbn [populate] in Hrun.
  - apply Ok_inj in Hrun. subst maps'. left. exact Ha.
  - destruct (add_alpha maps x) as [maps1|e] eqn:Hadd; cbn [rbind] in Hrun; [| discriminate].
    destruct (IH maps1 maps' Hrun a Ha) as [H1 | Hin]; [| right; right; exact Hin].
    unfold add_alpha in Hadd.
    destruct (ang_conv x) as [b|e]; cbn [rbind] in Hadd; [| discriminate].
    apply Ok_inj in Hadd. subst maps1. cbn [fst] in H1.
    destruct (decide (a = x)) as [-> | Hne]; [right; left |].
    left. rewrite lookup_insert_ne in H1 by congruence. exact H1.
Qed.

Lemma forward_dom (a2b : gmap Z Z) (b2a : gmap Z (list Q)) :
  alpha_beta_maps = Ok (a2b, b2a) ->
  forall a, is_Some (a2b !! a) -> -16 <= a <= 45.
Proof.
  unfold alpha_beta_maps.
  destruct (populate (seqZ (-16) 62) (∅, ∅)) as [maps|e] eqn:Hp; cbn [rbind];
    [| discriminate].
  destruct (py_min _) as [lo|e]; cbn [rbind]; [| discriminate].
  destruct (py_max _) as [hi|e]; cbn [rbind]; [| discriminate].
  destruct (interpolate _ _) as [m|e]; cbn [rbind]; [| discriminate].
  intros Heq a Ha. apply Ok_inj in Heq. inversion Heq; subst.
  destruct (populate_dom _ _ _ Hp a Ha) as [H0 | Hin].
  - cbn [fst] in H0. rewrite lookup_empty in H0. destruct H0; discriminate.
  - apply elem_of_seqZ in Hin. lia.
Qed.

Lemma Q2R_inject_Z (z : Z) : Q2R (inject_Z z) = IZR z.
Proof. unfold Q2R, inject_Z. cbn [Qnum Qden]. rewrite Rinv_1. ring. Qed.

  (* A weighted average with the weights of [alpha_beta_maps] stays between
     the bounds of its two arguments. *)
Lemma weighted_between (L H beta m M : Z) (a b : Q) :
  L < beta < H ->
  (inject_Z m <= a <= inject_Z M)%Q -> (inject_Z m <= b <= inject_Z M)%Q ->
  (inject_Z m
   <= weighted (inject_Z (H - beta) / inject_Z (H - L))
               (inject_Z (beta - L) / inject_Z (H - L)) a b
   <= inject_Z M)%Q.
Proof.
  intros Hb [Ha1 Ha2] [Hb1 Hb2].
  apply Qle_Rle in Ha1, Ha2, Hb1, Hb2. rewrite Q2R_inject_Z in Ha1, Ha2, Hb1, Hb2.
  assert (Hd : ~ (inject_Z (H - L) == 0)%Q) by (apply inject_Z_nonzero; lia).
  assert (Hu : (0 < IZR (H - beta))%R) by (apply IZR_lt; lia).
  assert (Hv : (0 < IZR (beta - L))%R) by (apply IZR_lt; lia).
  assert (Hsum : (IZR (H - L) = IZR (H - beta) + IZR (beta - L))%R).
  { rewrite <- plus_IZR. f_equal. lia. }
  assert (Hval : Q2R (weighted (inject_Z (H - beta) / inject_Z (H - L))
                               (inject_Z (beta - L) / inject_Z (H - L)) a b)
                 = ((IZR (H - beta) * Q2R a + IZR (beta - L) * Q2R b) / IZR (H - L))%R).
  { unfold weighted. rewrite Q2R_plus, !Q2R_mult, !Q2R_div by exact Hd.
    rewrite !Q2R_inject_Z. field. lra. }
  split; apply Rle_Qle; rewrite Hval, Q2R_inject_Z.
  - apply Rmult_le_reg_r with (IZR (H - L)); [lra |].
    unfold Rdiv. rewrite Rmult_assoc, Rinv_l by lra. nra.
  - apply Rmult_le_reg_r with (IZR (H - L)); [lra |].
    unfold Rdiv. rewrite Rmult_assoc, Rinv_l by lra. nra.
Qed.

Lemma aim_in_range_Qeq (l l' : list Q) :
  Forall2 Qeq l l' -> Forall aim_in_range l' -> Forall aim_in_range l.
Proof.
  induction 1 as [|q q' l l' Hq _ IH]; intros Hall; [constructor |].
  apply Forall_cons in Hall as [Hq' Hall]. constructor; [| exact (IH Hall)].
  unfold aim_in_range in *. rewrite Hq. exact Hq'.
Qed.

Lemma aim_in_range_interpolated (L H beta : Z) (lL lH : list Q) :
  L < beta < H -> Forall aim_in_range lL -> Forall aim_in_range lH ->
  Forall aim_in_range (interpolated L H beta lL lH).
Proof.
  intros Hb HL HH. apply Forall_forall. intros q Hq.
  apply elem_of_zip_with in Hq as (a & b & -> & Ha & Hb').
  rewrite Forall_forall in HL, HH.
  apply weighted_between; [exact Hb | apply HL, Ha | apply HH, Hb'].
Qed.

  (* The two tables of [alpha_beta_maps] with their ranges. *)
Lemma tables_in_range :
  exists a2b b2a lo hi,
    alpha_beta_maps = Ok (a2b, b2a) /\
    (forall alpha, is_Some (a2b !! alpha) <-> -16 <= alpha <= 45) /\
    (forall alpha beta, a2b !! alpha = Some beta ->
       if alpha <? Config.lim then 0 <= beta <= 90 else 90 <= beta <= 180) /\
    0 <= lo /\ lo <= hi /\ hi <= 180 /\
    (forall beta, is_Some (b2a !! beta) <-> lo <= beta <= hi) /\
    (forall beta l, b2a !! beta = Some l -> l <> [] /\ Forall aim_in_range l) /\
    (forall alpha beta, a2b !! alpha = Some beta -> lo <= beta <= hi).
Proof.
  destruct alpha_beta_maps_built
    as (a2b & m0 & lo & hi & b2a & Hrun & Hpop & Hkeys & Hlo & Hhi & Hrange & Hfilled).
  pose proof (forward_dom a2b b2a Hrun) as Hdom.
  destruct Hpop as (Hconv & Hobs & Hmem & Hne & Hold). cbn [fst snd] in *.
  destruct Hfilled as (Hkeep & Hfkeys & Hne' & Hint).
  assert (Hval : forall alpha beta, a2b !! alpha = Some beta ->
            if alpha <? Config.lim then 0 <= beta <= 90 else 90 <= beta <= 180).
  { intros alpha beta Hab.
    destruct (ang_conv_range alpha (Hdom alpha (ex_intro _ beta Hab))) as (b' & Hb' & Hr).
    rewrite (Hconv _ _ Hab) in Hb'. apply Ok_inj in Hb'. subst b'. exact Hr. }
  assert (Hval' : forall beta, observed a2b beta -> 0 <= beta <= 180).
  { intros beta [alpha Hab]. specialize (Hval alpha beta Hab).
    destruct (alpha <? Config.lim); lia. }
  assert (Hreal : forall beta l, m0 !! beta = Some l -> Forall aim_in_range l).
  { intros beta l Hl. apply Forall_forall. intros q Hq.
    destruct (Hold beta l q Hl Hq) as (alpha & -> & Hab).
    pose proof (Hdom alpha (ex_intro _ beta Hab)) as Ha.
    unfold aim_in_range. rewrite <- !Zle_Qle. exact Ha. }
  exists a2b, b2a, lo, hi. split; [exact Hrun |].
  split; [intros alpha; split; [apply Hdom | apply Hkeys] |].
  split; [exact Hval |].
  split; [apply (Hval' lo), Hobs, Hlo |].
  split; [apply (Hrange lo Hlo) |].
  split; [apply (Hval' hi), Hobs, Hhi |].
  split; [| split].
  - intros beta. rewrite Hfkeys. split.
    + intros [Hr | Hr]; [apply Hrange, Hr | lia].
    + intros Hr. right. lia.
  - intros beta l Hl. split; [exact (Hne' beta l Hl) |].
    destruct (m0 !! beta) as [l0|] eqn:Hl0.
    + rewrite (Hkeep beta l0 Hl0) in Hl. apply Some_eq_inv in Hl. subst l0.
      exact (Hreal beta l Hl0).
    + assert (Hin : lo <= beta < hi + 1).
      { destruct (proj1 (Hfkeys beta) (ex_intro _ l Hl)) as [[l' Hreal'] | Hr];
          [congruence | exact Hr]. }
      destruct (Hint beta Hin Hl0)
        as (L & H & lL & lH & l' & (_ & HLb & _) & (_ & HbH & _) & HL & HH & Hl' & Heq).
      rewrite Hl' in Hl. apply Some_eq_inv in Hl. subst l'.
      apply (aim_in_range_Qeq _ _ Heq).
      apply aim_in_range_interpolated;
        [lia | exact (Hreal L lL HL) | exact (Hreal H lH HH)].
  - intros alpha beta Hab. apply Hrange, Hobs. exists alpha. exact Hab.
Qed.

(** X20. The forward table built by [alpha_beta_maps()] has exactly the
    keys -16..45, and each of its mechanical angles is one the servo can
    take: between 0 and 90 degrees for the aims below [lim] (12 degrees),
    between 90 and 180 for the others. *)
Theorem forward_table_range :
  exists a2b b2a,
    alpha_beta_maps = Ok (a2b, b2a) /\
    (forall alpha, is_Some (a2b !! alpha) <-> -16 <= alpha <= 45) /\
    (forall alpha beta, a2b !! alpha = Some beta ->
       if alpha <? Config.lim then 0 <= beta <= 90 else 90 <= beta <= 180).
Proof.
  destruct tables_in_range as (a2b & b2a & lo & hi & Hrun & Hdom & Hval & _).
  exists a2b, b2a. split; [exact Hrun |]. split; [exact Hdom | exact Hval].
Qed.

(** X21. The backward table built by [alpha_beta_maps()] has exactly the
    keys of one interval [lo, hi] inside [0, 180], and every aim angle in
    every one of its lists, interpolated ones included, lies between -16 and
    45 degrees, so that rounding it gives a key of the forward table. *)
Theorem backward_table_range :
  exists a2b b2a lo hi,
    alpha_beta_maps = Ok (a2b, b2a) /\
    0 <= lo /\ lo <= hi /\ hi <= 180 /\
    (forall beta, is_Some (b2a !! beta) <-> lo <= beta <= hi) /\
    (forall beta l, b2a !! beta = Some l -> l <> [] /\ Forall aim_in_range l).
Proof.
  destruct tables_in_range
    as (a2b & b2a & lo & hi & Hrun & _ & _ & Hlo & Hlohi & Hhi & Hdom & Hent & _).
  exists a2b, b2a, lo, hi. split; [exact Hrun |].
  split; [exact Hlo |]. split; [exact Hlohi |]. split; [exact Hhi |].
  split; [exact Hdom | exact Hent].
Qed.

End TableRangeFacts.

(** ** The servo as [Servo()] builds it *)

Section ServoInitFacts.
Import DoveObject PyMath Servo.

Lemma deg_to_duty_range (deg : Z) :
  0 <= deg <= 180 -> (Config.MIN_DUTY <= deg_to_duty deg <= Config.MAX_DUTY)%Q.
Proof.
  intros Hdeg. unfold deg_to_duty, Config.MIN_DUTY, Config.MAX_DUTY, Qle.
  cbn. lia.
Qed.

Lemma foldr_Rmin_between (lo hi a : R) (l : list R) :
  (lo <= a <= hi)%R -> Forall (fun r => lo <= r <= hi)%R l ->
  (lo <= foldr Rmin a l <= hi)%R.
Proof.
  intros Ha. induction 1 as [|r l Hr _ IH]; cbn [foldr]; [exact Ha |].
  apply (Rmin_case r (foldr Rmin a l) (fun x => lo <= x <= hi)%R); [exact Hr | exact IH].
Qed.

Lemma aim_in_range_Q2R (l : list Q) :
  Forall aim_in_range l -> Forall (fun r => -16 <= r <= 45)%R (map Q2R l).
Proof.
  intros Hl. apply Forall_forall. intros r Hr.
  apply list_elem_of_fmap in Hr as (q & -> & Hq).
  rewrite Forall_forall in Hl. destruct (Hl q Hq) as [H1 H2].
  apply Qle_Rle in H1, H2. rewrite Q2R_inject_Z in H1, H2. split; assumption.
Qed.

  (* [Servo()] succeeds, and leaves tables with the ranges of
     [tables_in_range]. *)
Lemma init_in_range :
  exists s blo bhi lo hi,
    Servo.init = Ok s /\ pitch_deg s = Config.PITCH_DEG_DOWN /\
    alpha_to_beta_map s !! (-16) = Some blo /\ 0 <= blo <= 90 /\
    alpha_to_beta_map s !! 45 = Some bhi /\ 90 <= bhi <= 180 /\
    (forall alpha, -16 <= alpha <= 45 ->
       exists beta, alpha_to_beta_map s !! alpha = Some beta /\ 0 <= beta <= 180) /\
    0 <= lo /\ lo <= hi /\ hi <= 180 /\
    (forall beta, lo <= beta <= hi ->
       exists l, beta_to_alpha_map s !! beta = Some l /\ l <> [] /\ Forall aim_in_range l) /\
    (forall alpha beta, alpha_to_beta_map s !! alpha = Some beta -> lo <= beta <= hi).
Proof.
  destruct tables_in_range
    as (a2b & b2a & lo & hi & Hrun & Hdom & Hval & Hlo & Hlohi & Hhi & Hbdom & Hent & Hkey).
  destruct (proj2 (Hdom (-16)) ltac:(lia)) as [blo Hblo].
  destruct (proj2 (Hdom 45) ltac:(lia)) as [bhi Hbhi].
  pose proof (Hval _ _ Hblo) as Hrlo. pose proof (Hval _ _ Hbhi) as Hrhi.
  cbn in Hrlo, Hrhi.
  eexists _, blo, bhi, lo, hi. unfold Servo.init. rewrite Hrun. cbn [rbind fst snd].
  split; [reflexivity |]. cbn [pitch_deg alpha_to_beta_map beta_to_alpha_map].
  split; [reflexivity |]. split; [exact Hblo |]. split; [exact Hrlo |].
  split; [exact Hbhi |]. split; [exact Hrhi |].
  split.
  { intros alpha Ha. destruct (proj2 (Hdom alpha) Ha) as [beta Hb].
    exists beta. split; [exact Hb |]. specialize (Hval _ _ Hb).
    destruct (alpha <? Config.lim); lia. }
  split; [exact Hlo |]. split; [exact Hlohi |]. split; [exact Hhi |].
  split; [| exact Hkey].
  intros beta Hb. destruct (proj2 (Hbdom beta) Hb) as [l Hl].
  exists l. split; [exact Hl |]. exact (Hent beta l Hl).
Qed.

(** X22. On the servo that [Servo()] builds (pitch at the downward preset,
    tables from [alpha_beta_maps()]), whatever the pitch angle has become,
    every duty cycle that [Aim_pitch] sends to the pitch servo lies between
    MIN_DUTY and MAX_DUTY, under any tracker behaviour; the call ends with a
    Boolean or with the TypeError of a None median. *)
Theorem init_Aim_pitch_duties :
  exists s,
    Servo.init = Ok s /\ pitch_deg s = Config.PITCH_DEG_DOWN /\
    forall (env : nat -> Dove) (fuel : nat) (w : world),
      same_tables s (servo w) -> (151 <= fuel)%nat ->
      exists o w' tr,
        Aim_pitch env fuel w = (o, w') /\
        bool_or_TypeError o /\
        trace w' = trace w ++ tr /\
        Forall (fun q => (Config.MIN_DUTY <= q <= Config.MAX_DUTY)%Q) (pitch_duties tr).
Proof.
  destruct init_in_range
    as (s & blo & bhi & lo & hi & Hinit & Hdeg & Hblo & Hrlo & Hbhi & Hrhi & _).
  exists s. split; [exact Hinit |]. split; [exact Hdeg |].
  intros env fuel w [Ha2b _] Hfuel.
  destruct (Aim_pitch_any env fuel w blo bhi) as
    (o & w' & tr & Hrun & Ho & _ & Ht & _ & Hp & _).
  - rewrite Ha2b. exact Hblo.
  - rewrite Ha2b. exact Hbhi.
  - exact Hfuel.
  - exists o, w', tr. split; [exact Hrun |].
    split; [destruct Ho as [Hb | [He _]]; [left; exact Hb | right; exact He] |].
    split; [exact Ht |].
    unfold pitch_within in Hp. eapply Forall_impl; [exact Hp |].
    intros q (deg & Hd & ->). apply deg_to_duty_range. lia.
Qed.

(** X23. On the tables that [Servo()] builds, and with the ballistic
    correction read over the reals, [final_pitch_aim] never raises for a
    target whose apparent size is between MIN_DOVE_HEIGHT and HEIGHT_PIXEL
    pixels and a pitch angle inside the backward table's key range
    [lo, hi], which holds every angle of the forward table and so both ends
    of the range [Aim_pitch] keeps to: it
    returns False with nothing changed (the NaN of the ballistic
    correction), or it falls off its end after storing and commanding a
    mechanical angle between 0 and 180 degrees, which it took from the
    forward table at the key of the rounded correction. *)
Theorem init_final_pitch_aim_total :
  exists s lo hi,
    Servo.init = Ok s /\ 0 <= lo /\ lo <= hi /\ hi <= 180 /\
    (forall alpha beta, alpha_to_beta_map s !! alpha = Some beta -> lo <= beta <= hi) /\
    forall (height : R) (w : world),
      same_tables s (servo w) -> lo <= pitch_deg (servo w) <= hi ->
      (IZR Config.MIN_DOVE_HEIGHT <= height <= Config.HEIGHT_PIXEL)%R ->
      final_pitch_aim height w = (Returns (PyBool false), w) \/
      exists deg,
        0 <= deg <= 180 /\
        final_pitch_aim height w =
        (Returns PyNone,
         {| servo := with_pitch (servo w) deg;
            reads := reads w;
            trace := trace w ++ [PitchDuty (deg_to_duty deg)] |}).
Proof.
  destruct init_in_range
    as (s & blo & bhi & lo & hi & Hinit & _ & _ & _ & _ & _ & Hfwd & Hlo & Hlohi & Hhi
        & Hbwd & Hkey).
  exists s, lo, hi. split; [exact Hinit |].
  split; [exact Hlo |]. split; [exact Hlohi |]. split; [exact Hhi |].
  split; [exact Hkey |].
  intros height w [Ha2b Hb2a] Hpitch Hheight.
  destruct (Hbwd _ Hpitch) as (l & Hl & Hne & Hrange). rewrite <- Hb2a in Hl.
  destruct l as [|q0 rest]; [congruence |].
  pose proof (aim_in_range_Q2R _ Hrange) as HR. cbn [map] in HR.
  apply Forall_cons in HR as [Hq0 Hrest].
  pose proof (foldr_Rmin_between _ _ _ _ Hq0 Hrest) as Hmin.
  unfold Config.MIN_DOVE_HEIGHT, Config.HEIGHT_PIXEL in Hheight.
  destruct (real_alpha_above_sight (Q2R q0) (map Q2R rest) height ltac:(lra) ltac:(lra))
    as [Hnan | (r & Hr & Hrb)].
  - left. exact (final_pitch_aim_NaN height w (q0 :: rest) Hl Hnan).
  - right.
    assert (Hround : -16 <= py_round r <= 45) by (apply py_round_bounds; lra).
    destruct (Hfwd _ Hround) as (deg & Hdeg & Hdb). rewrite <- Ha2b in Hdeg.
    exists deg. split; [exact Hdb |].
    unfold final_pitch_aim, get_servo, lift, getitem, set_pitch_deg, emit, bind, ret.
    rewrite Hl. cbn beta iota. cbn [map]. rewrite Hr. cbn beta iota.
    rewrite Hdeg. reflexivity.
Qed.

End ServoInitFacts.

(** ** Changing the pose *)

Section PoseFacts.
Import Servo.

Lemma pose_change_eq (w : world) :
  pose_change w =
  let deg := if pitch_deg (servo w) =? Config.PITCH_DEG_DOWN
             then Config.PITCH_DEG_UP else Config.PITCH_DEG_DOWN in
  (Returns tt,
   {| servo := with_pitch (servo w) deg;
      reads := reads w;
      trace := trace w ++ [RollDuty Config.RIGHT_DUTY;
                           Slept (seconds Config.ROLL_TIME_STATIC);
                           RollDuty Config.STATIC_DUTY;
                           Slept 0.5%float;
                           Said "Rotate right - static";
                           PitchDuty (deg_to_duty deg)] |}).
Proof.
  unfold pose_change, sleep, say, emit, get_servo, set_pitch_deg, bind, ret.
  cbn [Config.DEBUG servo reads trace]. rewrite <- !app_assoc. reflexivity.
Qed.

(** X24. [pose_change] swaps the two pitch presets: called on a servo at
    PITCH_DEG_DOWN or PITCH_DEG_UP it moves the pitch to the other preset,
    and a second call brings the servo record back to what it was.  Each
    call sweeps the roll servo right for ROLL_TIME_STATIC and leaves it at
    the neutral duty, and sends the pitch servo the duty of the new
    preset. *)
Theorem pose_change_round_trip (w : world) :
  pitch_deg (servo w) = Config.PITCH_DEG_DOWN \/
  pitch_deg (servo w) = Config.PITCH_DEG_UP ->
  exists w1 w2 tr,
    pose_change w = (Returns tt, w1) /\
    pose_change w1 = (Returns tt, w2) /\
    pitch_deg (servo w1) <> pitch_deg (servo w) /\
    (pitch_deg (servo w1) = Config.PITCH_DEG_DOWN \/
     pitch_deg (servo w1) = Config.PITCH_DEG_UP) /\
    servo w2 = servo w /\
    trace w2 = trace w ++ tr /\
    roll_duties tr = [Config.RIGHT_DUTY; Config.STATIC_DUTY;
                      Config.RIGHT_DUTY; Config.STATIC_DUTY] /\
    roll_idle tr /\
    pitch_duties tr = [deg_to_duty (pitch_deg (servo w1));
                       deg_to_duty (pitch_deg (servo w))].
Proof.
  intros Hp. destruct w as [[p a2b b2a] r tr]. cbn [servo pitch_deg] in Hp.
  destruct Hp as [-> | ->]; eexists _, _, _;
    (split; [apply pose_change_eq |]); (split; [apply pose_change_eq |]);
    cbv zeta;
    cbn [servo reads trace with_pitch pitch_deg Z.eqb Pos.eqb Config.PITCH_DEG_DOWN
         Config.PITCH_DEG_UP alpha_to_beta_map beta_to_alpha_map].
  - split; [discriminate |]. split; [right; reflexivity |].
    split; [reflexivity |]. split; [rewrite <- app_assoc; reflexivity |].
    split; [reflexivity |]. split; reflexivity.
  - split; [discriminate |]. split; [left; reflexivity |].
    split; [reflexivity |]. split; [rewrite <- app_assoc; reflexivity |].
    split; [reflexivity |]. split; reflexivity.
Qed.

End PoseFacts.

Lemma pose_change_round_trip_witness :
  exists w1 w2 tr,
    Servo.pose_change idle_world = (Servo.Returns tt, w1) /\
    Servo.pose_change w1 = (Servo.Returns tt, w2) /\
    Servo.pitch_deg (Servo.servo w1) <> Servo.pitch_deg (Servo.servo idle_world) /\
    (Servo.pitch_deg (Servo.servo w1) = Config.PITCH_DEG_DOWN \/
     Servo.pitch_deg (Servo.servo w1) = Config.PITCH_DEG_UP) /\
    Servo.servo w2 = Servo.servo idle_world /\
    Servo.trace w2 = Servo.trace idle_world ++ tr /\
    roll_duties tr = [Config.RIGHT_DUTY; Config.STATIC_DUTY;
                      Config.RIGHT_DUTY; Config.STATIC_DUTY] /\
    roll_idle tr /\
    pitch_duties tr = [Servo.deg_to_duty (Servo.pitch_deg (Servo.servo w1));
                       Servo.deg_to_duty (Servo.pitch_deg (Servo.servo idle_world))].
Proof.
  apply (pose_change_round_trip idle_world). left. reflexivity.
Defined.

(** ** The pitch aim loop at the end of its range *)

Section AimPitchEdgeFacts.
Import DoveObject Servo PyMath.

Variable env : nat -> Dove.

(** X25. At the end of the pitch range the record and the servo part
    ways: when the target is in view, its median y is off target and the
    next one-degree step would leave [alpha_to_beta_map[-16],
    alpha_to_beta_map[45]], [Aim_pitch] prints "not in pitch range" and
    returns False without a command to the servo, but [pitch_deg] has
    already been moved and stays one degree outside the range. *)
Theorem Aim_pitch_out_of_range (fuel : nat) (w : world) (q : Q) (lo hi : Z) :
  snd (DoveObject.get_center (env (reads w))) = Some q ->
  off_target (Some q) = true ->
  is_valid (env (S (reads w))) = true ->
  alpha_to_beta_map (servo w) !! (-16) = Some lo ->
  alpha_to_beta_map (servo w) !! 45 = Some hi ->
  pitch_deg (servo w) + pitch_move q < lo \/ hi < pitch_deg (servo w) + pitch_move q ->
  (0 < fuel)%nat ->
  Aim_pitch env fuel w =
  (Returns false,
   {| servo := with_pitch (servo w) (pitch_deg (servo w) + pitch_move q);
      reads := S (S (reads w));
      trace := trace w ++ [Said "not in pitch range"] |}).
Proof.
  intros Hy Hoff Hv Hlo Hhi Hout Hfuel. destruct fuel as [|fuel]; [lia |].
  unfold Aim_pitch. rewrite (run_bind _ _ _ _ _ (get_center_eq env w)).
  rewrite Hy. cbn [pitch_loop]. rewrite Hoff.
  replace (PrimFloat.ltb 0 Config.TIMEOUT_S) with true by reflexivity. cbn [andb].
  rewrite (run_bind _ _ _ _ _
             (dove_gone_present env (S fuel) Config.UNDETECTED_TO
                {| servo := servo w; reads := S (reads w); trace := trace w |} Hv)).
  pose proof (pitch_step_number q
                {| servo := servo w; reads := S (S (reads w)); trace := trace w |}
                lo hi Hlo Hhi) as Hstep.
  cbv zeta in Hstep. cbn [servo reads trace] in Hstep. fold (pitch_move q) in Hstep.
  replace ((pitch_deg (servo w) + pitch_move q <? lo)
           || (hi <? pitch_deg (servo w) + pitch_move q)) with true in Hstep.
  - rewrite (run_bind _ _ _ _ _ Hstep). reflexivity.
  - symmetry. apply orb_true_iff.
    destruct Hout as [H | H]; [left | right]; apply Z.ltb_lt; exact H.
Qed.

End AimPitchEdgeFacts.

Lemma Aim_pitch_out_of_range_witness :
  Servo.Aim_pitch rising 1 ranged_top_world =
  (Servo.Returns false,
   {| Servo.servo :=
        with_pitch (Servo.servo ranged_top_world)
                   (Servo.pitch_deg (Servo.servo ranged_top_world)
                    + pitch_move (rising_median 0));
      Servo.reads := 2;
      Servo.trace := [Servo.Said "not in pitch range"] |}).
Proof.
  apply (Aim_pitch_out_of_range rising 1 ranged_top_world (rising_median 0) 20 176).
  - reflexivity.
  - reflexivity.
  - reflexivity.
  - reflexivity.
  - reflexivity.
  - right. vm_compute. reflexivity.
  - lia.
Defined.
